(** * A verified model of the momu skip list

    Shallow embedding of [src/skip_list.h] (class [momu::skip_list::SkipList])
    and of [src/xsf_skip_list.h] (class [xsf_skip_list::XSFSkipList]).

    The C++ heap is an explicit store: a finite map from addresses to nodes
    together with an allocation frontier.  Pointers are [option addr]
    ([None] is [nullptr]).  Every source function becomes a function in the
    result monad [res]: [Done] is a normal return, [Fault] is undefined
    behaviour (null or dangling dereference, index out of bounds, signed
    overflow), [BadAlloc] is a failed [new], and [OutOfFuel] means that the
    loops were cut off before the source function returned. *)

From stdpp Require Import base option list gmap strings.
From Stdlib Require Import ZArith Ascii.

Local Open Scope nat_scope.

(** ** The result monad *)

Inductive res (A : Type) : Type :=
| Done (a : A)
| OutOfFuel
| Fault
| BadAlloc.
Arguments Done {A} a.
Arguments OutOfFuel {A}.
Arguments Fault {A}.
Arguments BadAlloc {A}.

Definition bind {A B : Type} (x : res A) (f : A → res B) : res B :=
  match x with
  | Done a => f a
  | OutOfFuel => OutOfFuel
  | Fault => Fault
  | BadAlloc => BadAlloc
  end.

Notation "'do' x <- e ; k" := (bind e (fun x => k))
  (at level 10, x name, e at level 100, k at level 200).

(** ** Machine integers *)

(** [uint8_t] arithmetic wraps modulo 256. *)
Definition u8 (n : nat) : nat := n mod 256.

(** [size_t] arithmetic wraps modulo 2^64. *)
Definition size_t (z : Z) : Z := (z mod 2 ^ 64)%Z.

Definition INT_MAX : Z := 2147483647%Z.
Definition INT_MIN : Z := (-2147483648)%Z.

(** Addresses are 64-bit: [new] fails once the frontier reaches this limit. *)
Definition addr : Type := N.
Definition addr_limit : N := (2 ^ 64)%N.

(** Successor of a [uint8_t] loop counter ([i++]). *)
Definition u8_succ (i : nat) : res nat := Done (u8 (i + 1)).

(** Successor of an [int] loop counter; signed overflow is undefined. *)
Definition int_succ (i : nat) : res nat :=
  if (Z.of_nat i + 1 <=? INT_MAX)%Z then Done (i + 1) else Fault.

(** [for (T i = lo; i <= hi; i++) body], with [succ] the increment of [T]. *)
Fixpoint for_up {S : Type} (succ : nat → res nat) (fuel : nat) (i hi : nat)
    (body : nat → S → res S) (s : S) : res S :=
  match fuel with
  | O => OutOfFuel
  | Datatypes.S fuel' =>
      if i <=? hi then
        do s' <- body i s;
        do i' <- succ i;
        for_up succ fuel' i' hi body s'
      else Done s
  end.

(** [std::vector] / raw array access: out of range is undefined. *)
Definition vec_get {A : Type} (v : list A) (i : nat) : res A :=
  match v !! i with
  | Some x => Done x
  | None => Fault
  end.

Definition vec_set {A : Type} (v : list A) (i : nat) (x : A) : res (list A) :=
  if i <? length v then Done (<[i := x]> v) else Fault.

(** ** Coin flips and the level they give *)

Section Levels.

Context {St : Type}.
(** One flip of the coin from generator state [g]. *)
Variable fl : St → bool * St.

(** The level drawn from generator state [g]: the length of the initial run
    of successful flips, cut at [max_level]; one more flip is consumed. *)
Fixpoint level_of (max_level : nat) (g : St) : nat * St :=
  let '(b, g') := fl g in
  match max_level with
  | O => (0, g')
  | S n => if b then let '(l, g'') := level_of n g' in (S l, g'') else (0, g')
  end.

(** The [n]-th flip drawn from [g], counting from 0. *)
Fixpoint coin (g : St) (n : nat) : bool :=
  match n with
  | O => fst (fl g)
  | S n' => coin (snd (fl g)) n'
  end.

Lemma level_of_le n g : fst (level_of n g) ≤ n.
Proof.
  revert g. induction n as [|n IH]; intros g; simpl; destruct (fl g) as [b g']; [done|].
  destruct b; simpl; [|lia]. specialize (IH g'). destruct (level_of n g'). simpl in *. lia.
Qed.

Lemma level_of_coin : ∀ n g,
  (∀ i, i < fst (level_of n g) → coin g i = true) ∧
  (fst (level_of n g) < n → coin g (fst (level_of n g)) = false).
Proof.
  induction n as [|n IH]; intros g; simpl; destruct (fl g) as [b g'] eqn:Hflip; simpl.
  - split; intros; lia.
  - destruct b.
    + specialize (IH g'). destruct (level_of n g') as [l g'']. simpl in *.
      destruct IH as [IH1 IH2]. split.
      * intros [|i] Hi; simpl; rewrite Hflip; simpl; [done|]. apply IH1. lia.
      * intros Hl. rewrite Hflip. simpl. apply IH2. lia.
    + simpl. split; [intros; lia|]. intros _. by rewrite Hflip.
Qed.

(** The generator state after [n] flips. *)
Fixpoint advance (g : St) (n : nat) : St :=
  match n with
  | O => g
  | S n' => advance (snd (fl g)) n'
  end.

Lemma level_of_state : ∀ n g, snd (level_of n g) = advance g (fst (level_of n g) + 1).
Proof.
  induction n as [|n IH]; intros g; simpl; destruct (fl g) as [b g'] eqn:Hflip; simpl.
  - by rewrite Hflip.
  - destruct b; simpl; [|by rewrite Hflip].
    specialize (IH g'). destruct (level_of n g') as [l g'']. simpl in *.
    by rewrite Hflip.
Qed.

End Levels.

(** ** The string helpers of [XSFSkipList]

    [std::string] is a list of characters.  [find] gives [None] for [npos];
    [substr] gives [None] where the source throws [std::out_of_range]. *)

Definition colon : ascii := ":"%char.

(** [str.find(c)]: the index of the first [c]. *)
Fixpoint str_find (c : ascii) (str : list ascii) : option nat :=
  match str with
  | [] => None
  | x :: str' => if decide (x = c) then Some 0 else S <$> str_find c str'
  end.

(** [str.substr(pos, count)]; [count = None] is the default [npos], which
    takes the rest of the string. *)
Definition str_substr (str : list ascii) (pos : nat) (count : option nat)
    : option (list ascii) :=
  if pos <=? length str then
    Some match count with
         | Some n => take n (drop pos str)
         | None => drop pos str
         end
  else None.

(** [!str.empty() && str.find(':') != std::string::npos] *)
Definition is_valid_string (str : list ascii) : bool :=
  negb (bool_decide (str = [])) && bool_decide (str_find colon str ≠ None).

(** [get_key_value_from_string(str, key, value)]: the strings behind the two
    pointers go in and come out; the three strings are distinct objects.
    [npos + 1] wraps to 0. *)
Definition get_key_value_from_string (str key value : list ascii)
    : option (list ascii * list ascii) :=
  if negb (is_valid_string str) then Some (key, value)
  else
    key' ← str_substr str 0 (str_find colon str);
    value' ← str_substr str
                (match str_find colon str with Some n => n + 1 | None => 0 end) None;
    Some (key', value').

Section SkipList.

Context {V : Type}.
(** [V{}], the value stored in the header. *)
Variable default_value : V.
(** The state of [std::mt19937] and one draw of
    [std::bernoulli_distribution(0.5)] from it. *)
Context {G : Type}.
Variable flip : G → bool * G.
(** The hidden state of the C library's [rand()] and one call of it. *)
Context {RandState : Type}.
Variable c_rand : RandState → Z * RandState.

(** ** Nodes and memory *)

(** [struct Node]: [key_], [value_], [forward_].  The node's level is
    [length forward_ - 1].  Keys are instantiated at integers. *)
Record Node : Type := mkNode {
  key_ : Z;
  value_ : V;
  forward_ : list (option addr)
}.

Record mem : Type := mkMem {
  cells : gmap N Node;
  next_free : addr
}.

(** [p->...] *)
Definition load (m : mem) (p : option addr) : res Node :=
  match p with
  | None => Fault
  | Some a =>
      match cells m !! a with
      | Some n => Done n
      | None => Fault
      end
  end.

Definition store (m : mem) (a : addr) (n : Node) : mem :=
  mkMem (<[a := n]> (cells m)) (next_free m).

(** [p->forward_[i]] *)
Definition load_forward (m : mem) (p : option addr) (i : nat) : res (option addr) :=
  do n <- load m p;
  vec_get (forward_ n) i.

(** [p->forward_[i] = q] *)
Definition store_forward (m : mem) (p : option addr) (i : nat) (q : option addr)
    : res mem :=
  do n <- load m p;
  do fw <- vec_set (forward_ n) i q;
  match p with
  | Some a => Done (store m a (mkNode (key_ n) (value_ n) fw))
  | None => Fault
  end.

(** [new] of a node whose forward array has [len] cells, all [nullptr]. *)
Definition new_node (key : Z) (value : V) (len : nat) (m : mem)
    : res (option addr * mem) :=
  if (next_free m <? addr_limit)%N then
    Done (Some (next_free m),
          mkMem (<[next_free m := mkNode key value (replicate len None)]> (cells m))
                (next_free m + 1)%N)
  else BadAlloc.

(** [new Node<K, V>(key, value, level)]: [forward_(level + 1, nullptr)]. *)
Definition create_node (key : Z) (value : V) (level : nat) (m : mem)
    : res (option addr * mem) :=
  new_node key value (level + 1) m.

(** [delete node] *)
Definition delete_ptr (m : mem) (p : option addr) : res mem :=
  do n <- load m p;
  match p with
  | Some a => Done (mkMem (delete a (cells m)) (next_free m))
  | None => Fault
  end.

(** ** [class SkipList] *)

Record SkipList : Type := mkSkipList {
  max_level_ : nat;            (* uint8_t *)
  current_max_level_ : nat;    (* uint8_t *)
  header_ : option addr;       (* Node<K, V>* *)
  element_count_ : Z;          (* size_t *)
  gen_ : G                     (* std::mt19937 *)
}.

Definition create_header_node (max_level : nat) (m : mem) : res (option addr * mem) :=
  create_node 0%Z default_value max_level m.

(** The constructor; [max_level] is converted to [uint8_t]. *)
Definition SkipList_new (max_level : nat) (seed : G) (m : mem) : res (SkipList * mem) :=
  do r <- create_header_node (u8 max_level) m;
  let '(h, m') := r in
  Done (mkSkipList (u8 max_level) 0 h 0%Z seed, m').

Fixpoint move_forward_in_level (fuel : nat) (m : mem) (current : option addr)
    (level : nat) (key : Z) : res (option addr) :=
  match fuel with
  | O => OutOfFuel
  | S fuel' =>
      do nxt <- load_forward m current level;
      match nxt with
      | None => Done current
      | Some _ =>
          do n <- load m nxt;
          if (key_ n <? key)%Z
          then move_forward_in_level fuel' m nxt level key
          else Done current
      end
  end.

Definition get_target_node (m : mem) (predecessor : option addr) (key : Z)
    : res (option addr) :=
  do target <- load_forward m predecessor 0;
  match target with
  | None => Done None
  | Some _ =>
      do n <- load m target;
      if (key_ n =? key)%Z then Done target else Done None
  end.

Definition get_node_at_level_zero (m : mem) (predecessor : option addr) (key : Z)
    : res (option addr) :=
  do node <- load_forward m predecessor 0;
  match node with
  | None => Done None
  | Some _ =>
      do n <- load m node;
      if (key_ n =? key)%Z then Done node else Done None
  end.

(** [for (int i = current_max_level_; i >= 0; i--)], entered at level [i]. *)
Fixpoint traverse_levels (fuel : nat) (m : mem) (i : nat) (current : option addr)
    (key : Z) : res (option addr) :=
  do current' <- move_forward_in_level fuel m current i key;
  match i with
  | O => Done current'
  | S i' => traverse_levels fuel m i' current' key
  end.

Definition traverse_to_level_zero (fuel : nat) (s : SkipList) (m : mem) (key : Z)
    : res (option addr) :=
  do current <- traverse_levels fuel m (current_max_level_ s) (header_ s) key;
  get_target_node m current key.

Definition find_node (fuel : nat) (s : SkipList) (m : mem) (key : Z) : res (option addr) :=
  traverse_to_level_zero fuel s m key.

Fixpoint collect_levels (fuel : nat) (m : mem) (i : nat) (current : option addr)
    (key : Z) (predecessors : list (option addr)) : res (list (option addr)) :=
  do current' <- move_forward_in_level fuel m current i key;
  do predecessors' <- vec_set predecessors i current';
  match i with
  | O => Done predecessors'
  | S i' => collect_levels fuel m i' current' key predecessors'
  end.

Definition traverse_and_collect_predecessors (fuel : nat) (s : SkipList) (m : mem)
    (key : Z) (predecessors : list (option addr)) : res (list (option addr)) :=
  collect_levels fuel m (current_max_level_ s) (header_ s) key predecessors.

Definition find_predecessors (fuel : nat) (s : SkipList) (m : mem) (key : Z)
    : res (list (option addr)) :=
  traverse_and_collect_predecessors fuel s m key
    (replicate (max_level_ s + 1) None).

Definition update_existing_node (m : mem) (node : option addr) (value : V) : res mem :=
  do n <- load m node;
  match node with
  | Some a => Done (store m a (mkNode (key_ n) value (forward_ n)))
  | None => Fault
  end.

(** [while (distribution_(gen_) && level < max_level_) level++;] *)
Fixpoint generate_random_level_loop (fuel : nat) (max_level level : nat) (g : G)
    : res (nat * G) :=
  match fuel with
  | O => OutOfFuel
  | S fuel' =>
      let '(b, g') := flip g in
      if b && (level <? max_level)
      then generate_random_level_loop fuel' max_level (u8 (level + 1)) g'
      else Done (level, g')
  end.

Definition generate_random_level (fuel : nat) (s : SkipList) : res (nat * SkipList) :=
  do r <- generate_random_level_loop fuel (max_level_ s) 0 (gen_ s);
  let '(level, g) := r in
  Done (level, mkSkipList (max_level_ s) (current_max_level_ s) (header_ s)
                          (element_count_ s) g).

Definition adjust_max_level_for_insertion (fuel : nat) (new_level : nat)
    (predecessors : list (option addr)) (s : SkipList)
    : res (list (option addr) * SkipList) :=
  if current_max_level_ s <? new_level then
    do predecessors' <-
      for_up u8_succ fuel (u8 (current_max_level_ s + 1)) new_level
        (fun i preds => vec_set preds i (header_ s)) predecessors;
    Done (predecessors',
          mkSkipList (max_level_ s) new_level (header_ s) (element_count_ s) (gen_ s))
  else Done (predecessors, s).

Definition insert_node_at_all_levels (fuel : nat) (node : option addr)
    (predecessors : list (option addr)) (level : nat) (m : mem) : res mem :=
  for_up u8_succ fuel 0 level
    (fun i m =>
       do p <- vec_get predecessors i;
       do nxt <- load_forward m p i;
       do m1 <- store_forward m node i nxt;
       store_forward m1 p i node) m.

Definition insert_new_node (fuel : nat) (key : Z) (value : V)
    (predecessors : list (option addr)) (s : SkipList) (m : mem)
    : res (SkipList * mem) :=
  do r <- generate_random_level fuel s;
  let '(new_level, s1) := r in
  do r <- adjust_max_level_for_insertion fuel new_level predecessors s1;
  let '(predecessors', s2) := r in
  do r <- create_node key value new_level m;
  let '(new_node, m1) := r in
  do m2 <- insert_node_at_all_levels fuel new_node predecessors' new_level m1;
  Done (mkSkipList (max_level_ s2) (current_max_level_ s2) (header_ s2)
                   (size_t (element_count_ s2 + 1)) (gen_ s2), m2).

Definition put (fuel : nat) (key : Z) (value : V) (s : SkipList) (m : mem)
    : res (SkipList * mem) :=
  do predecessors <- find_predecessors fuel s m key;
  do p0 <- vec_get predecessors 0;
  do existing_node <- get_node_at_level_zero m p0 key;
  match existing_node with
  | Some _ =>
      do m' <- update_existing_node m existing_node value;
      Done (s, m')
  | None => insert_new_node fuel key value predecessors s m
  end.

Definition get (fuel : nat) (key : Z) (s : SkipList) (m : mem) : res (option V) :=
  do node <- find_node fuel s m key;
  match node with
  | Some _ => do n <- load m node; Done (Some (value_ n))
  | None => Done None
  end.

Definition contains (fuel : nat) (key : Z) (s : SkipList) (m : mem) : res bool :=
  do node <- find_node fuel s m key;
  Done (bool_decide (node ≠ None)).

Definition disconnect_node_from_levels (fuel : nat) (node : option addr)
    (predecessors : list (option addr)) (s : SkipList) (m : mem) : res mem :=
  for_up u8_succ fuel 0 (current_max_level_ s)
    (fun i m =>
       do p <- vec_get predecessors i;
       do nxt <- load_forward m p i;
       if bool_decide (nxt = node) then
         do after <- load_forward m node i;
         store_forward m p i after
       else Done m) m.

Definition delete_node (fuel : nat) (node : option addr)
    (predecessors : list (option addr)) (s : SkipList) (m : mem)
    : res (SkipList * mem) :=
  do m1 <- disconnect_node_from_levels fuel node predecessors s m;
  do m2 <- delete_ptr m1 node;
  Done (mkSkipList (max_level_ s) (current_max_level_ s) (header_ s)
                   (size_t (element_count_ s - 1)) (gen_ s), m2).

(** [while (current_max_level_ > 0 && header_->forward_[current_max_level_] == nullptr)
      current_max_level_--;] *)
Fixpoint adjust_max_level_loop (fuel : nat) (m : mem) (header : option addr)
    (cml : nat) : res nat :=
  match fuel with
  | O => OutOfFuel
  | S fuel' =>
      if 0 <? cml then
        do top <- load_forward m header cml;
        match top with
        | None => adjust_max_level_loop fuel' m header (cml - 1)
        | Some _ => Done cml
        end
      else Done cml
  end.

Definition adjust_max_level (fuel : nat) (s : SkipList) (m : mem) : res SkipList :=
  do cml <- adjust_max_level_loop fuel m (header_ s) (current_max_level_ s);
  Done (mkSkipList (max_level_ s) cml (header_ s) (element_count_ s) (gen_ s)).

Definition remove (fuel : nat) (key : Z) (s : SkipList) (m : mem)
    : res (bool * SkipList * mem) :=
  do predecessors <- find_predecessors fuel s m key;
  do p0 <- vec_get predecessors 0;
  do node_to_delete <- get_node_at_level_zero m p0 key;
  match node_to_delete with
  | None => Done (false, s, m)
  | Some _ =>
      do r <- delete_node fuel node_to_delete predecessors s m;
      let '(s1, m1) := r in
      do s2 <- adjust_max_level fuel s1 m1;
      Done (true, s2, m1)
  end.

Definition size (s : SkipList) : Z := element_count_ s.

Definition empty (s : SkipList) : bool := (element_count_ s =? 0)%Z.

(** [delete_chain_starting_from]: frees [node] and every node after it on
    the level-0 chain. *)
Fixpoint delete_chain_starting_from (fuel : nat) (node : option addr) (m : mem)
    : res mem :=
  match fuel with
  | O => OutOfFuel
  | S fuel' =>
      match node with
      | None => Done m
      | Some _ =>
          do next <- load_forward m node 0;
          do m1 <- delete_ptr m node;
          delete_chain_starting_from fuel' next m1
      end
  end.

(** [clear]: the level-0 chain, then the header.  It is private and nothing
    calls it; [header_] keeps its value. *)
Definition clear (fuel : nat) (s : SkipList) (m : mem) : res mem :=
  do first <- load_forward m (header_ s) 0;
  do m1 <- delete_chain_starting_from fuel first m;
  delete_ptr m1 (header_ s).

(** ** [class XSFSkipList] ([src/xsf_skip_list.h])

    Its nodes are the same records; [node_level_] is written by the
    constructor and read nowhere, and [forward_] has [node_level_ + 1] cells.
    [skip_list_level_] starts at 0 and is only ever set to a drawn level or
    decremented while positive, so it is kept as a natural number;
    [max_level_] and [element_count_] are [int]. *)

Record XSFSkipList : Type := mkXSF {
  xsf_max_level_ : Z;               (* int max_level_ *)
  xsf_skip_list_level_ : nat;       (* int skip_list_level_ *)
  xsf_header_ : option addr;        (* Node<K, V>* header_ *)
  xsf_element_count_ : Z            (* int element_count_ *)
}.

(** [element_count_++] on an [int]; signed overflow is undefined. *)
Definition int_incr (z : Z) : res Z :=
  if (z + 1 <=? INT_MAX)%Z then Done (z + 1)%Z else Fault.

(** [Node(K key, V value, int level)]: [forward_ = new Node*[level + 1]],
    zeroed by [memset]. *)
Definition xsf_new_node (key : Z) (value : V) (level : Z) (m : mem)
    : res (option addr * mem) :=
  if (INT_MAX <=? level)%Z then Fault
  else if (level + 1 <? 0)%Z then BadAlloc
  else new_node key value (Z.to_nat (level + 1)) m.

Definition xsf_create_node (key : Z) (value : V) (level : nat) (m : mem)
    : res (option addr * mem) :=
  xsf_new_node key value (Z.of_nat level) m.

(** [Node::set_value] *)
Definition set_value (m : mem) (node : option addr) (value : V) : res mem :=
  do n <- load m node;
  match node with
  | Some a => Done (store m a (mkNode (key_ n) value (forward_ n)))
  | None => Fault
  end.

(** The constructor.  The header's key and value are the uninitialised [K k]
    and [V v]; they are never read, and stand here as [0] and [V{}]. *)
Definition XSFSkipList_new (max_level : Z) (m : mem) : res (XSFSkipList * mem) :=
  do r <- xsf_new_node 0%Z default_value max_level m;
  let '(h, m') := r in
  Done (mkXSF max_level 0 h 0%Z, m').

(** [while (rand() % 2 && k < max_level_) k++;] with [k < max_level_]
    guarding the increment against overflow. *)
Fixpoint xsf_get_random_level_loop (fuel : nat) (max_level : Z) (k : nat) (r : RandState)
    : res (nat * RandState) :=
  match fuel with
  | O => OutOfFuel
  | S fuel' =>
      let '(x, r') := c_rand r in
      if negb (Z.rem x 2 =? 0)%Z && (Z.of_nat k <? max_level)%Z
      then xsf_get_random_level_loop fuel' max_level (k + 1) r'
      else Done (k, r')
  end.

Definition xsf_get_random_level (fuel : nat) (x : XSFSkipList) (r : RandState)
    : res (nat * RandState) :=
  xsf_get_random_level_loop fuel (xsf_max_level_ x) 0 r.

(** [Node<K, V>* update[max_level_ + 1]] followed by [memset]. *)
Definition xsf_update_array (max_level : Z) : res (list (option addr)) :=
  if (INT_MAX <=? max_level)%Z || (max_level + 1 <=? 0)%Z then Fault
  else Done (replicate (Z.to_nat (max_level + 1)) None).

(** The descent [for (int i = skip_list_level_; i >= 0; i--)] of
    [insert_element] and [delete_element], entered at level [i]; the inner
    [while] is the loop of [move_forward_in_level]. *)
Fixpoint xsf_descend (fuel : nat) (m : mem) (i : nat) (current : option addr)
    (key : Z) (update : list (option addr))
    : res (option addr * list (option addr)) :=
  do current' <- move_forward_in_level fuel m current i key;
  do update' <- vec_set update i current';
  match i with
  | O => Done (current', update')
  | S i' => xsf_descend fuel m i' current' key update'
  end.

(** [current != nullptr && current->get_key() == key] *)
Definition xsf_is_match (m : mem) (current : option addr) (key : Z) : res bool :=
  match current with
  | None => Done false
  | Some _ => do n <- load m current; Done (key_ n =? key)%Z
  end.

(** [search_element]: [Some v] stands for returning true after [value = v],
    [None] for returning false. *)
Definition xsf_search_element (fuel : nat) (key : Z) (x : XSFSkipList) (m : mem)
    : res (option V) :=
  do current <- traverse_levels fuel m (xsf_skip_list_level_ x) (xsf_header_ x) key;
  do current <- load_forward m current 0;
  do found <- xsf_is_match m current key;
  if found then
    do n <- load m current;
    Done (Some (value_ n))
  else Done None.

(** [insert_element].  The bound [i < new_node_level + 1] of the loop that
    raises the level is [i <= new_node_level]: the drawn level is at most
    [max_level_], which is below [INT_MAX] once [update] has been declared. *)
Definition xsf_insert_element (fuel : nat) (key : Z) (value : V) (x : XSFSkipList)
    (m : mem) (r : RandState) : res (Z * XSFSkipList * mem * RandState) :=
  do update <- xsf_update_array (xsf_max_level_ x);
  do cu <- xsf_descend fuel m (xsf_skip_list_level_ x) (xsf_header_ x) key update;
  let '(current, update) := cu in
  do current <- load_forward m current 0;
  do found <- xsf_is_match m current key;
  if found then
    do m' <- set_value m current value;
    Done (1%Z, x, m', r)
  else
    do lr <- xsf_get_random_level fuel x r;
    let '(new_node_level, r') := lr in
    do ux <-
      (if xsf_skip_list_level_ x <? new_node_level then
         do update' <-
           for_up int_succ fuel (xsf_skip_list_level_ x + 1) new_node_level
             (fun i u => vec_set u i (xsf_header_ x)) update;
         Done (update',
               mkXSF (xsf_max_level_ x) new_node_level (xsf_header_ x)
                     (xsf_element_count_ x))
       else Done (update, x));
    let '(update, x1) := ux in
    do nm <- xsf_create_node key value new_node_level m;
    let '(new_node, m1) := nm in
    do m2 <-
      for_up int_succ fuel 0 new_node_level
        (fun i m0 =>
           do p <- vec_get update i;
           do nxt <- load_forward m0 p i;
           do m1 <- store_forward m0 new_node i nxt;
           store_forward m1 p i new_node) m1;
    do count <- int_incr (xsf_element_count_ x1);
    Done (0%Z,
          mkXSF (xsf_max_level_ x1) (xsf_skip_list_level_ x1) (xsf_header_ x1) count,
          m2, r').

(** [element_count_--] on an [int]. *)
Definition int_decr (z : Z) : res Z :=
  if (INT_MIN <=? z - 1)%Z then Done (z - 1)%Z else Fault.

(** [delete_element]: unlink at every level, lower [skip_list_level_], then
    [delete current] and [element_count_--]. *)
Definition xsf_delete_element (fuel : nat) (key : Z) (x : XSFSkipList) (m : mem)
    : res (XSFSkipList * mem) :=
  do update <- xsf_update_array (xsf_max_level_ x);
  do cu <- xsf_descend fuel m (xsf_skip_list_level_ x) (xsf_header_ x) key update;
  let '(current, update) := cu in
  do current <- load_forward m current 0;
  do found <- xsf_is_match m current key;
  if found then
    do m1 <-
      for_up int_succ fuel 0 (xsf_skip_list_level_ x)
        (fun i m0 =>
           do p <- vec_get update i;
           do nxt <- load_forward m0 p i;
           if bool_decide (nxt = current) then
             do after <- load_forward m0 current i;
             store_forward m0 p i after
           else Done m0) m;
    do level <- adjust_max_level_loop fuel m1 (xsf_header_ x) (xsf_skip_list_level_ x);
    do m2 <- delete_ptr m1 current;
    do count <- int_decr (xsf_element_count_ x);
    Done (mkXSF (xsf_max_level_ x) level (xsf_header_ x) count, m2)
  else Done (x, m).

Definition xsf_size (x : XSFSkipList) : Z := xsf_element_count_ x.

(** [clear(Node* node)]: the nodes after [node] first, then [node]. *)
Fixpoint xsf_clear (fuel : nat) (node : option addr) (m : mem) : res mem :=
  match fuel with
  | O => OutOfFuel
  | S fuel' =>
      do next <- load_forward m node 0;
      do m1 <-
        match next with
        | Some _ => xsf_clear fuel' next m
        | None => Done m
        end;
      delete_ptr m1 node
  end.

(** [~XSFSkipList] *)
Definition XSFSkipList_destructor (fuel : nat) (x : XSFSkipList) (m : mem) : res mem :=
  do first <- load_forward m (xsf_header_ x) 0;
  do m1 <-
    match first with
    | Some _ => xsf_clear fuel first m
    | None => Done m
    end;
  delete_ptr m1 (xsf_header_ x).

(** ** The list represented by a heap *)

(** One stored element: the address of its node, its key, value and level. *)
Record entry : Type := mkEntry {
  e_addr : addr;
  e_key : Z;
  e_val : V;
  e_lvl : nat
}.

(** The elements that take part in level [j]. *)
Definition at_level (j : nat) (L : list entry) : list entry :=
  filter (fun e => j ≤ e_lvl e) L.

Definition below (k : Z) (L : list entry) : list entry :=
  filter (fun e => (e_key e < k)%Z) L.

Definition from (k : Z) (L : list entry) : list entry :=
  filter (fun e => (k ≤ e_key e)%Z) L.

Fixpoint increasing (ks : list Z) : Prop :=
  match ks with
  | [] => True
  | k :: ks' => Forall (fun k' => (k < k')%Z) ks' ∧ increasing ks'
  end.

(** The element stored under key [k], if any. *)
Definition entry_of (k : Z) (L : list entry) : option entry :=
  head (filter (fun e => e_key e = k) L).

(** The three updates of the represented list. *)
Definition set_val (k : Z) (v : V) (L : list entry) : list entry :=
  (fun e => if decide (e_key e = k) then mkEntry (e_addr e) k v (e_lvl e) else e) <$> L.

Definition insert_entry (e : entry) (L : list entry) : list entry :=
  below (e_key e) L ++ e :: from (e_key e) L.

Definition remove_key (k : Z) (L : list entry) : list entry :=
  filter (fun e => e_key e ≠ k) L.

(** What memory holds at an address. *)
Definition fwd_at (m : mem) (a : addr) (j : nat) : option (option addr) :=
  match cells m !! a with
  | Some n => forward_ n !! j
  | None => None
  end.

Definition node_hd (m : mem) (a : addr) : option (Z * V * nat) :=
  match cells m !! a with
  | Some n => Some (key_ n, value_ n, length (forward_ n))
  | None => None
  end.

(** [linked m j p C]: following [forward_[j]] from node [p] visits exactly
    the nodes [C] and then reaches [nullptr]. *)
Fixpoint linked (m : mem) (j : nat) (p : addr) (C : list addr) : Prop :=
  match C with
  | [] => fwd_at m p j = Some None
  | x :: C' => fwd_at m p j = Some (Some x) ∧ linked m j x C'
  end.

Definition last_addr (p : addr) (C : list entry) : addr :=
  default p (e_addr <$> last C).

(** The predecessor of key [k] at level [j]. *)
Definition pred_at (hd : addr) (j : nat) (k : Z) (L : list entry) : addr :=
  last_addr hd (at_level j (below k L)).

(** [shape m hd M L]: in [m] the header [hd] of level [M] and the nodes of
    [L] form a skip list whose level-0 chain is [L]. *)
Record shape (m : mem) (hd : addr) (M : nat) (L : list entry) : Prop := mkShape {
  sh_hdr : ∃ k v, node_hd m hd = Some (k, v, M + 1);
  sh_nodes : ∀ e, e ∈ L → node_hd m (e_addr e) = Some (e_key e, e_val e, e_lvl e + 1);
  sh_linked : ∀ j, j ≤ M → linked m j hd (e_addr <$> at_level j L);
  sh_sorted : increasing (e_key <$> L);
  sh_nodup : NoDup (hd :: (e_addr <$> L));
  sh_alloc : (hd < next_free m)%N ∧ ∀ e, e ∈ L → (e_addr e < next_free m)%N;
  sh_space : (N.of_nat (length L) < next_free m)%N ∧ (next_free m ≤ addr_limit)%N
}.

(** [Inv s m L]: the list object [s] in memory [m] represents [L]. *)
Record Inv (s : SkipList) (m : mem) (L : list entry) : Prop := mkInv {
  inv_max : max_level_ s ≤ 255;
  inv_cml : current_max_level_ s ≤ max_level_ s;
  inv_cml_u8 : current_max_level_ s < 255;
  inv_lvl : ∀ e, e ∈ L → e_lvl e ≤ current_max_level_ s;
  inv_count : element_count_ s = Z.of_nat (length L);
  inv_shape : ∃ hd, header_ s = Some hd ∧ shape m hd (max_level_ s) L;
  inv_top : current_max_level_ s = max_list (e_lvl <$> L)
}.

(** [XInv x m L]: the [XSFSkipList] object [x] in memory [m] represents [L]. *)
Record XInv (x : XSFSkipList) (m : mem) (L : list entry) : Prop := mkXInv {
  xinv_max : (0 ≤ xsf_max_level_ x < INT_MAX)%Z;
  xinv_level : (Z.of_nat (xsf_skip_list_level_ x) ≤ xsf_max_level_ x)%Z;
  xinv_lvl : ∀ e, e ∈ L → e_lvl e ≤ xsf_skip_list_level_ x;
  xinv_count : xsf_element_count_ x = Z.of_nat (length L);
  xinv_shape : ∃ hd, xsf_header_ x = Some hd ∧ shape m hd (Z.to_nat (xsf_max_level_ x)) L
}.

(** The coin of [get_random_level]: [rand() % 2] is non-zero. *)
Definition xsf_flip (r : RandState) : bool * RandState :=
  let '(x, r') := c_rand r in (negb (Z.rem x 2 =? 0)%Z, r').

(** ** Callers, and what they can observe *)

(** A call of the public surface, and what it returns. *)
Inductive op : Type :=
| Put (k : Z) (v : V)
| Get (k : Z)
| Contains (k : Z)
| Remove (k : Z)
| Size
| Empty.

Inductive answer : Type :=
| Unit
| Value (o : option V)
| Bool (b : bool)
| Count (z : Z).

Definition run_op (fuel : nat) (o : op) (s : SkipList) (m : mem)
    : res (answer * SkipList * mem) :=
  match o with
  | Put k v => do r <- put fuel k v s m; let '(s', m') := r in Done (Unit, s', m')
  | Get k => do r <- get fuel k s m; Done (Value r, s, m)
  | Contains k => do b <- contains fuel k s m; Done (Bool b, s, m)
  | Remove k =>
      do r <- remove fuel k s m;
      let '(b, s', m') := r in Done (Bool b, s', m')
  | Size => Done (Count (size s), s, m)
  | Empty => Done (Bool (empty s), s, m)
  end.

(** A caller performing the calls [os] one after the other on one list. *)
Fixpoint run_ops (fuel : nat) (os : list op) (s : SkipList) (m : mem)
    : res (list answer * SkipList * mem) :=
  match os with
  | [] => Done ([], s, m)
  | o :: os' =>
      do r <- run_op fuel o s m;
      let '(a, s1, m1) := r in
      do r' <- run_ops fuel os' s1 m1;
      let '(answers, s2, m2) := r' in
      Done (a :: answers, s2, m2)
  end.

(** The list without its addresses: key, value and level of every element,
    in order, with the scalar members of the object. *)
Definition item : Type := Z * V * nat.

Definition view (L : list entry) : list item :=
  (fun e => (e_key e, e_val e, e_lvl e)) <$> L.

Record astate : Type := mkAState {
  a_max_level : nat;
  a_level : nat;
  a_count : Z;
  a_gen : G;
  a_items : list item
}.

Definition abs (s : SkipList) (L : list entry) : astate :=
  mkAState (max_level_ s) (current_max_level_ s) (element_count_ s) (gen_ s) (view L).

Definition a_find (k : Z) (items : list item) : option item :=
  head (filter (fun t : item => t.1.1 = k) items).

(** What a call answers and leaves behind, in terms of the view alone. *)
Definition abs_op (o : op) (st : astate) : answer * astate :=
  match o with
  | Put k v =>
      match a_find k (a_items st) with
      | Some _ =>
          (Unit,
           mkAState (a_max_level st) (a_level st) (a_count st) (a_gen st)
             ((fun t : item => if decide (t.1.1 = k) then (k, v, t.2) else t)
                <$> a_items st))
      | None =>
          let lg := level_of flip (a_max_level st) (a_gen st) in
          (Unit,
           mkAState (a_max_level st) (a_level st `max` fst lg) (a_count st + 1) (snd lg)
             (filter (fun t : item => (t.1.1 < k)%Z) (a_items st)
              ++ (k, v, fst lg) :: filter (fun t : item => (k ≤ t.1.1)%Z) (a_items st)))
      end
  | Get k => (Value ((fun t : item => t.1.2) <$> a_find k (a_items st)), st)
  | Contains k => (Bool (bool_decide (is_Some (a_find k (a_items st)))), st)
  | Remove k =>
      match a_find k (a_items st) with
      | Some _ =>
          let rest := filter (fun t : item => t.1.1 ≠ k) (a_items st) in
          (Bool true,
           mkAState (a_max_level st) (max_list ((fun t : item => t.2) <$> rest))
                    (a_count st - 1) (a_gen st) rest)
      | None => (Bool false, st)
      end
  | Size => (Count (a_count st), st)
  | Empty => (Bool (a_count st =? 0)%Z, st)
  end.

Fixpoint abs_ops (os : list op) (st : astate) : list answer * astate :=
  match os with
  | [] => ([], st)
  | o :: os' =>
      let '(a, st1) := abs_op o st in
      let '(answers, st2) := abs_ops os' st1 in
      (a :: answers, st2)
  end.

(** ** Ownership of memory *)

(** The addresses a list owns: its header and its nodes. *)
Definition owns (hd : option addr) (L : list entry) (a : addr) : Prop :=
  hd = Some a ∨ a ∈ e_addr <$> L.

Definition same_cell (m m' : mem) (a : addr) : Prop :=
  node_hd m' a = node_hd m a ∧ ∀ j, fwd_at m' a j = fwd_at m a j.

(** [m'] has the frontier of [m] and differs from it only inside [T]. *)
Definition writes_within (T : addr → Prop) (m m' : mem) : Prop :=
  next_free m' = next_free m ∧ ∀ a, ¬ T a → same_cell m m' a.

(** Every non-null pointer of an array of predecessors lies in [T]. *)
Definition ptrs_in (T : addr → Prop) (preds : list (option addr)) : Prop :=
  ∀ j p, preds !! j = Some (Some p) → T p.

(** [m'] extends [m] and agrees with it on every cell that was allocated in
    [m] and lies outside [own]. *)
Definition frame (own : addr → Prop) (m m' : mem) : Prop :=
  (next_free m ≤ next_free m')%N ∧
  ∀ a, ¬ own a → (a < next_free m)%N → same_cell m m' a.

(** [reaches m j first C]: the pointer [first] leads, along [forward_[j]],
    through exactly the nodes [C] to [nullptr]. *)
Definition reaches (m : mem) (j : nat) (first : option addr) (C : list addr) : Prop :=
  match C with
  | [] => first = None
  | x :: C' => first = Some x ∧ linked m j x C'
  end.

(** The keys and values of a list, in order. *)
Definition bindings (L : list entry) : list (Z * V) :=
  (fun e => (e_key e, e_val e)) <$> L.

(** ** The invariant as the specification words it *)

Definition node_level (m : mem) (a : addr) : nat :=
  match cells m !! a with
  | Some n => length (forward_ n) - 1
  | None => 0
  end.

Definition key_at (m : mem) (a : addr) : Z :=
  match cells m !! a with
  | Some n => key_ n
  | None => 0%Z
  end.

Definition SpecInv (s : SkipList) (m : mem) : Prop :=
  0 ≤ current_max_level_ s ∧ current_max_level_ s ≤ max_level_ s ∧
  ∃ hd C0,
    header_ s = Some hd ∧
    linked m 0 hd C0 ∧ (hd ∉ C0) ∧
    element_count_ s = Z.of_nat (length C0) ∧
    ∀ i, i ≤ max_level_ s →
      ∃ Ci, linked m i hd Ci ∧
            increasing (key_at m <$> Ci) ∧
            Ci = filter (fun a => i ≤ node_level m a) C0.

(** The same invariant for an [XSFSkipList]. *)
Definition XSpecInv (x : XSFSkipList) (m : mem) : Prop :=
  (0 ≤ Z.of_nat (xsf_skip_list_level_ x) ≤ xsf_max_level_ x)%Z ∧
  ∃ hd C0,
    xsf_header_ x = Some hd ∧
    linked m 0 hd C0 ∧ (hd ∉ C0) ∧
    xsf_element_count_ x = Z.of_nat (length C0) ∧
    ∀ i, (Z.of_nat i ≤ xsf_max_level_ x)%Z →
      ∃ Ci, linked m i hd Ci ∧
            increasing (key_at m <$> Ci) ∧
            Ci = filter (fun a => i ≤ node_level m a) C0.

(** ** Memory lemmas *)

Lemma vec_set_Done {A : Type} (v : list A) (i : nat) (x : A) :
  i < length v → vec_set v i x = Done (<[i := x]> v).
Proof. unfold vec_set. intros H. by destruct (Nat.ltb_spec i (length v)); [|lia]. Qed.

Lemma vec_set_inv {A : Type} (v v' : list A) (i : nat) (x : A) :
  vec_set v i x = Done v' → i < length v ∧ v' = <[i := x]> v.
Proof.
  unfold vec_set. destruct (Nat.ltb_spec i (length v)); [|done]. by intros [= <-].
Qed.

Lemma vec_get_Done {A : Type} (v : list A) (i : nat) (x : A) :
  v !! i = Some x → vec_get v i = Done x.
Proof. unfold vec_get. by intros ->. Qed.

#[local] Arguments load : simpl never.
#[local] Arguments load_forward : simpl never.
#[local] Arguments store_forward : simpl never.
#[local] Arguments create_node : simpl never.
#[local] Arguments delete_ptr : simpl never.
#[local] Arguments vec_get : simpl never.
#[local] Arguments vec_set : simpl never.

Lemma load_forward_fwd_at m a j q :
  fwd_at m a j = Some q → load_forward m (Some a) j = Done q.
Proof.
  unfold fwd_at, load_forward, load, vec_get. intros H.
  destruct (cells m !! a) as [n|]; simpl in *; [|done]. by rewrite H.
Qed.

Lemma load_forward_inv m p j q :
  load_forward m p j = Done q → ∃ a, p = Some a ∧ fwd_at m a j = Some q.
Proof.
  unfold fwd_at, load_forward, load, vec_get. intros H.
  destruct p as [a|]; simpl in *; [|done]. exists a. split; [done|].
  destruct (cells m !! a) as [n|]; simpl in *; [|done].
  destruct (forward_ n !! j); by inversion H.
Qed.

Lemma load_node_hd m a k v n :
  node_hd m a = Some (k, v, n) →
  ∃ nd, load m (Some a) = Done nd ∧ key_ nd = k ∧ value_ nd = v ∧ length (forward_ nd) = n.
Proof.
  unfold node_hd, load. destruct (cells m !! a) as [nd|]; [|done].
  intros [= <- <- <-]. by exists nd.
Qed.

Lemma node_hd_fwd m a k v n j :
  node_hd m a = Some (k, v, n) → j < n → is_Some (fwd_at m a j).
Proof.
  unfold node_hd, fwd_at. destruct (cells m !! a) as [nd|]; [|done].
  intros [= <- <- <-] Hj. by apply lookup_lt_is_Some.
Qed.

Lemma fwd_at_node_hd m a j q :
  fwd_at m a j = Some q → ∃ k v n, node_hd m a = Some (k, v, n) ∧ j < n.
Proof.
  unfold node_hd, fwd_at. destruct (cells m !! a) as [nd|]; [|done].
  intros H. exists (key_ nd), (value_ nd), (length (forward_ nd)).
  split; [done|]. by eapply lookup_lt_Some.
Qed.

Lemma store_forward_spec m a j q :
  is_Some (fwd_at m a j) →
  ∃ m', store_forward m (Some a) j q = Done m' ∧
        next_free m' = next_free m ∧
        (∀ a' j', fwd_at m' a' j' =
                  if decide (a' = a ∧ j' = j) then Some q else fwd_at m a' j') ∧
        (∀ a', node_hd m' a' = node_hd m a').
Proof.
  unfold fwd_at at 1. unfold store_forward, load, vec_set.
  destruct (cells m !! a) as [nd|] eqn:Hc; [|by intros [? ?]].
  intros Hs. apply lookup_lt_is_Some in Hs. simpl.
  destruct (Nat.ltb_spec j (length (forward_ nd))); [|lia]. simpl.
  eexists. split; [done|]. split; [done|]. split.
  - intros a' j'. unfold fwd_at, store. simpl.
    destruct (decide (a' = a)) as [->|Hne].
    + rewrite lookup_insert_eq. simpl. rewrite Hc.
      destruct (decide (j' = j)) as [->|Hj].
      * rewrite decide_True by done. by apply list_lookup_insert_eq.
      * rewrite decide_False by naive_solver. by apply list_lookup_insert_ne.
    + rewrite lookup_insert_ne by done. by rewrite decide_False by naive_solver.
  - intros a'. unfold node_hd, store. simpl.
    destruct (decide (a' = a)) as [->|Hne].
    + rewrite lookup_insert_eq, Hc. simpl. by rewrite length_insert.
    + by rewrite lookup_insert_ne.
Qed.

(** ** Chains *)

Lemma fmap_head {A B : Type} (f : A → B) (l : list A) : head (f <$> l) = f <$> head l.
Proof. by destruct l. Qed.

Lemma default_last_cons {A : Type} (p x : A) (l : list A) :
  default p (last (x :: l)) = default x (last l).
Proof. rewrite last_cons. by destruct (last l). Qed.

Lemma linked_ext m m' j p C :
  (∀ a, a ∈ p :: C → fwd_at m' a j = fwd_at m a j) →
  linked m j p C → linked m' j p C.
Proof.
  revert p. induction C as [|x C IH]; intros p Hext; simpl.
  - intros H. rewrite Hext; [done|]. by left.
  - intros [H1 H2]. split.
    + rewrite Hext; [done|]. by left.
    + apply IH; [|done]. intros a Ha. apply Hext. by right.
Qed.

Lemma linked_head m j p C : linked m j p C → fwd_at m p j = Some (head C).
Proof. destruct C; simpl; naive_solver. Qed.

Lemma linked_split m j p A B :
  linked m j p (A ++ B) → linked m j (default p (last A)) B.
Proof.
  revert p. induction A as [|x A IH]; intros p; simpl; [done|].
  intros [_ H]. rewrite default_last_cons. by apply IH.
Qed.

Lemma linked_insert m m' j p A B a :
  NoDup (p :: A ++ B) → a ∉ p :: A ++ B →
  linked m j p (A ++ B) →
  fwd_at m' a j = Some (head B) →
  fwd_at m' (default p (last A)) j = Some (Some a) →
  (∀ x, x ∈ p :: A ++ B → x ≠ default p (last A) → fwd_at m' x j = fwd_at m x j) →
  linked m' j p (A ++ a :: B).
Proof.
  revert p. induction A as [|x A IH]; intros p Hnd Ha Hl Hfa Hfp Hext; simpl in *.
  - split; [done|]. destruct B as [|b B]; simpl in *; [done|].
    destruct Hl as [_ Hl]. split; [done|].
    apply NoDup_cons in Hnd as [Hp _].
    eapply linked_ext; [|done]. intros y Hy. apply Hext; [by right|].
    intros ->. done.
  - destruct Hl as [Hl1 Hl2]. rewrite default_last_cons in Hfp, Hext.
    apply NoDup_cons in Hnd as [Hp Hnd].
    assert (default x (last A) ∈ x :: A ++ B) as Hin.
    { destruct (last A) as [y|] eqn:Hlast; simpl; [|by left].
      right. apply elem_of_app. left. apply last_Some in Hlast as [l' ->].
      apply elem_of_app. right. by left. }
    split.
    + rewrite Hext; [done|by left|]. intros ->. done.
    + apply IH; try done.
      * intros Hin'. apply Ha. by right.
      * intros y Hy. apply Hext. by right.
Qed.

Lemma linked_remove m m' j p A t B :
  NoDup (p :: A ++ t :: B) →
  linked m j p (A ++ t :: B) →
  fwd_at m' (default p (last A)) j = fwd_at m t j →
  (∀ x, x ∈ p :: A ++ B → x ≠ default p (last A) → fwd_at m' x j = fwd_at m x j) →
  linked m' j p (A ++ B).
Proof.
  revert p. induction A as [|x A IH]; intros p Hnd Hl Hfp Hext; simpl in *.
  - destruct Hl as [_ Hl]. apply NoDup_cons in Hnd as [Hp Hnd].
    apply NoDup_cons in Hnd as [Ht Hnd].
    destruct B as [|b B]; simpl in *.
    + by rewrite Hfp.
    + destruct Hl as [Hl1 Hl2]. split; [by rewrite Hfp|].
      eapply linked_ext; [|done]. intros y Hy. apply Hext; [by right|].
      intros ->. apply Hp. by right.
  - destruct Hl as [Hl1 Hl2]. rewrite default_last_cons in Hfp, Hext.
    apply NoDup_cons in Hnd as [Hp Hnd].
    assert (default x (last A) ∈ x :: A ++ t :: B) as Hin.
    { destruct (last A) as [y|] eqn:Hlast; simpl; [|by left].
      right. apply elem_of_app. left. apply last_Some in Hlast as [l' ->].
      apply elem_of_app. right. by left. }
    split.
    + rewrite Hext; [done|by left|]. intros ->. done.
    + apply IH; try done. intros y Hy. apply Hext. by right.
Qed.

(** ** Sorted lists of entries *)

Lemma increasing_app (A B : list Z) :
  increasing (A ++ B) ↔
  increasing A ∧ increasing B ∧ ∀ a b, a ∈ A → b ∈ B → (a < b)%Z.
Proof.
  induction A as [|x A IH]; simpl.
  - split; [intros H; repeat split; [done|]|naive_solver].
    intros a b Ha. by apply elem_of_nil in Ha.
  - rewrite Forall_app, IH. split.
    + intros [[H1 H2] (H3 & H4 & H5)]. repeat split; try done.
      intros a b [->|Ha]%elem_of_cons Hb; [|by apply H5].
      by eapply Forall_forall in H2.
    + intros ([H1 H2] & H3 & H4). repeat split; try done.
      * apply Forall_forall. intros b Hb. apply H4; [by left|done].
      * intros a b Ha Hb. apply H4; [by right|done].
Qed.

Lemma increasing_filter (P : entry → Prop) `{∀ e, Decision (P e)} (L : list entry) :
  increasing (e_key <$> L) → increasing (e_key <$> filter P L).
Proof.
  induction L as [|e L IH]; simpl; [done|]. intros [H1 H2].
  rewrite filter_cons. destruct (decide (P e)); simpl; [|by apply IH].
  split; [|by apply IH].
  apply Forall_forall. intros k [x [-> Hx]]%list_elem_of_fmap.
  apply list_elem_of_filter in Hx as [_ Hx].
  eapply Forall_forall in H1; [done|]. apply list_elem_of_fmap. by exists x.
Qed.

Lemma split_sorted (k : Z) (L : list entry) :
  increasing (e_key <$> L) → L = below k L ++ from k L.
Proof.
  unfold below, from. induction L as [|e L IH]; simpl; [done|]. intros [H1 H2].
  rewrite !filter_cons. destruct (decide (e_key e < k)%Z) as [Hlt|Hge].
  - rewrite decide_False by lia. simpl. f_equal. by apply IH.
  - rewrite decide_True by lia.
    assert (Forall (fun e' => (k ≤ e_key e')%Z) L) as Hall.
    { apply Forall_forall. intros x Hx. eapply Forall_forall in H1;
        [|apply list_elem_of_fmap; by exists x]. simpl in H1. lia. }
    assert (filter (fun e' => (e_key e' < k)%Z) L = []) as ->.
    { clear -Hall. induction Hall as [|x L Hx _ IH]; [done|].
      rewrite filter_cons, decide_False by lia. done. }
    simpl. f_equal.
    clear -Hall. induction Hall as [|x L Hx _ IH]; [done|].
    rewrite filter_cons, decide_True by lia. by f_equal.
Qed.

Lemma below_Forall k L : Forall (fun e => (e_key e < k)%Z) (below k L).
Proof. apply Forall_forall. by intros e [? _]%list_elem_of_filter. Qed.

Lemma from_Forall k L : Forall (fun e => (k ≤ e_key e)%Z) (from k L).
Proof. apply Forall_forall. by intros e [? _]%list_elem_of_filter. Qed.

Lemma at_level_Forall (P : entry → Prop) j L : Forall P L → Forall P (at_level j L).
Proof.
  rewrite !Forall_forall. intros H e [_ He]%list_elem_of_filter. by apply H.
Qed.

Lemma at_level_split j k L :
  increasing (e_key <$> L) →
  at_level j L = at_level j (below k L) ++ at_level j (from k L).
Proof.
  intros Hs. rewrite (split_sorted k L Hs) at 1. apply filter_app.
Qed.

Lemma at_level_0 L : at_level 0 L = L.
Proof.
  unfold at_level. induction L as [|e L IH]; [done|].
  rewrite filter_cons, decide_True by lia. by f_equal.
Qed.

Lemma at_level_length j L : length (at_level j L) ≤ length L.
Proof. apply length_filter. Qed.

Lemma below_length k L : length (below k L) ≤ length L.
Proof. apply length_filter. Qed.

Lemma last_addr_app p A B : last_addr (last_addr p A) B = last_addr p (A ++ B).
Proof.
  unfold last_addr. rewrite last_app. by destruct (last B).
Qed.

Lemma last_addr_cons p e A : last_addr p (e :: A) = last_addr (e_addr e) A.
Proof. unfold last_addr. rewrite last_cons. by destruct (last A). Qed.

Lemma last_addr_fmap p A : default p (last (e_addr <$> A)) = last_addr p A.
Proof. unfold last_addr. by rewrite fmap_last. Qed.

(** The predecessor found at a higher level is a node of every lower level,
    at or before that level's predecessor. *)
Lemma prefix_of_higher hd (X : list entry) i j :
  i ≤ j →
  ∃ A mid, at_level i X = A ++ mid ∧ last_addr hd A = last_addr hd (at_level j X).
Proof.
  intros Hij. induction X as [|e X IH] using rev_ind.
  - by exists [], [].
  - destruct IH as (A & mid & HX & Hlast). unfold at_level in *.
    rewrite !filter_app, !filter_cons, !filter_nil.
    destruct (decide (j ≤ e_lvl e)) as [Hj|Hj].
    + rewrite decide_True by lia.
      exists (filter (fun e0 => i ≤ e_lvl e0) X ++ [e]), [].
      by rewrite !app_nil_r, <- !last_addr_app.
    + rewrite app_nil_r. exists A.
      destruct (decide (i ≤ e_lvl e)).
      * exists (mid ++ [e]). by rewrite HX, app_assoc.
      * exists mid. by rewrite app_nil_r.
Qed.

Lemma entry_of_sorted k L :
  increasing (e_key <$> L) →
  entry_of k L =
    match head (from k L) with
    | Some e => if decide (e_key e = k) then Some e else None
    | None => None
    end.
Proof.
  intros Hs. unfold entry_of. rewrite (split_sorted k L Hs) at 1.
  rewrite filter_app.
  assert (filter (fun e => e_key e = k) (below k L) = []) as ->.
  { pose proof (below_Forall k L) as H. induction H as [|x l Hx _ IH]; [done|].
    rewrite filter_cons, decide_False by lia. done. }
  simpl. rewrite (split_sorted k L Hs) in Hs.
  rewrite fmap_app in Hs. apply increasing_app in Hs as (_ & Hs & _).
  pose proof (from_Forall k L) as Hf.
  destruct (from k L) as [|e R]; simpl in *; [done|].
  destruct Hs as [Hs _]. rewrite filter_cons.
  destruct (decide (e_key e = k)) as [He|He]; [done|].
  apply Forall_cons in Hf as [He' _].
  assert (filter (fun e0 => e_key e0 = k) R = []) as ->; [|done].
  clear -Hs He He'. induction R as [|x R IH]; [done|].
  simpl in Hs. apply Forall_cons in Hs as [Hx Hs].
  rewrite filter_cons, decide_False by lia. by apply IH.
Qed.

(** ** The search *)

Lemma move_forward_spec m j k mid rest : ∀ c fuel,
  (∀ e, e ∈ mid ++ rest → node_hd m (e_addr e) = Some (e_key e, e_val e, e_lvl e + 1)) →
  linked m j c (e_addr <$> (mid ++ rest)) →
  Forall (fun e => (e_key e < k)%Z) mid →
  Forall (fun e => (k ≤ e_key e)%Z) rest →
  length mid < fuel →
  move_forward_in_level fuel m (Some c) j k = Done (Some (last_addr c mid)).
Proof.
  induction mid as [|e mid IH]; intros c fuel Hn Hl Hmid Hrest Hfuel;
    (destruct fuel as [|fuel]; [simpl in Hfuel; lia|]); simpl in *.
  - rewrite (load_forward_fwd_at _ _ _ _ (linked_head _ _ _ _ Hl)). simpl.
    destruct rest as [|e rest]; simpl; [done|].
    destruct (load_node_hd _ _ _ _ _ (Hn e ltac:(by left))) as (nd & -> & Hk & _).
    simpl. rewrite Hk. apply Forall_cons in Hrest as [He _].
    destruct (Z.ltb_spec (e_key e) k); [lia|done].
  - destruct Hl as [Hl1 Hl2]. rewrite (load_forward_fwd_at _ _ _ _ Hl1). simpl.
    destruct (load_node_hd _ _ _ _ _ (Hn e ltac:(by left))) as (nd & -> & Hk & _).
    simpl. rewrite Hk. apply Forall_cons in Hmid as [He Hmid].
    destruct (Z.ltb_spec (e_key e) k); [|lia].
    rewrite last_addr_cons. apply IH; try done; [|lia].
    intros e' He'. apply Hn. by right.
Qed.

Lemma level_step m hd M L k fuel i A mid :
  shape m hd M L → length L < fuel → i ≤ M →
  at_level i (below k L) = A ++ mid →
  move_forward_in_level fuel m (Some (last_addr hd A)) i k
  = Done (Some (pred_at hd i k L)).
Proof.
  intros Hsh Hfuel Hi Hsplit.
  pose proof (sh_linked _ _ _ _ Hsh _ Hi) as Hl.
  pose proof (sh_sorted _ _ _ _ Hsh) as Hs.
  rewrite (at_level_split _ k _ Hs), Hsplit, <- app_assoc, fmap_app in Hl.
  apply linked_split in Hl. rewrite last_addr_fmap in Hl.
  assert (Forall (fun e => (e_key e < k)%Z) (A ++ mid)) as HF.
  { rewrite <- Hsplit. apply at_level_Forall, below_Forall. }
  apply Forall_app in HF as [_ HF].
  assert (length (A ++ mid) ≤ length L) as Hlen.
  { rewrite <- Hsplit. etrans; [apply at_level_length|apply below_length]. }
  rewrite length_app in Hlen.
  unfold pred_at. rewrite Hsplit, <- last_addr_app.
  apply move_forward_spec with (rest := at_level i (from k L)); try done.
  - intros e He. apply (sh_nodes _ _ _ _ Hsh).
    rewrite (split_sorted k L Hs). apply elem_of_app.
    apply elem_of_app in He as [He|He].
    + left. assert (e ∈ at_level i (below k L)) as He'.
      { rewrite Hsplit. apply elem_of_app. by right. }
      by apply list_elem_of_filter in He' as [_ ?].
    + right. by apply list_elem_of_filter in He as [_ ?].
  - apply at_level_Forall, from_Forall.
  - lia.
Qed.

Lemma collect_levels_spec m hd M L k fuel :
  shape m hd M L → length L < fuel →
  ∀ i c preds,
    i ≤ M → length preds = M + 1 →
    (∃ A mid, at_level i (below k L) = A ++ mid ∧ c = last_addr hd A) →
    ∃ preds',
      collect_levels fuel m i (Some c) k preds = Done preds' ∧
      length preds' = M + 1 ∧
      ∀ j, preds' !! j =
           if decide (j ≤ i) then Some (Some (pred_at hd j k L)) else preds !! j.
Proof.
  intros Hsh Hfuel. induction i as [|i IH]; intros c preds Hi Hlen (A & mid & Hsplit & ->);
    simpl; rewrite (level_step _ _ _ _ _ _ _ _ _ Hsh Hfuel Hi Hsplit); simpl;
    rewrite vec_set_Done by lia; simpl.
  - eexists. split; [done|]. split; [by rewrite length_insert|].
    intros j. destruct (decide (j ≤ 0)) as [Hj|Hj].
    + assert (j = 0) as -> by lia. by rewrite list_lookup_insert_eq by lia.
    + by rewrite list_lookup_insert_ne by lia.
  - destruct (IH (pred_at hd (S i) k L) (<[S i := Some (pred_at hd (S i) k L)]> preds))
      as (preds' & Hrun & Hlen' & Hlook).
    + lia.
    + by rewrite length_insert.
    + destruct (prefix_of_higher hd (below k L) i (S i)) as (A' & mid' & H1 & H2); [lia|].
      exists A', mid'. split; [done|]. by rewrite H2.
    + exists preds'. split; [done|]. split; [done|].
      intros j. rewrite Hlook. destruct (decide (j ≤ i)).
      * by rewrite decide_True by lia.
      * destruct (decide (j = S i)) as [->|].
        -- rewrite decide_True by lia. by rewrite list_lookup_insert_eq by lia.
        -- rewrite decide_False by lia. by rewrite list_lookup_insert_ne by lia.
Qed.

Lemma at_level_above L c j :
  (∀ e, e ∈ L → e_lvl e ≤ c) → c < j → at_level j L = [].
Proof.
  intros Hl Hj. unfold at_level. induction L as [|e L IH]; [done|].
  rewrite filter_cons, decide_False.
  - apply IH. intros e' He'. apply Hl. by right.
  - pose proof (Hl e ltac:(by left)). lia.
Qed.

Lemma pred_at_above hd L k c j :
  (∀ e, e ∈ L → e_lvl e ≤ c) → c < j → pred_at hd j k L = hd.
Proof.
  intros Hl Hj. unfold pred_at. rewrite (at_level_above _ c); [done| |done].
  intros e [_ He]%list_elem_of_filter. by apply Hl.
Qed.

Lemma find_predecessors_spec fuel s m L k :
  Inv s m L → length L < fuel →
  ∃ hd preds,
    header_ s = Some hd ∧
    find_predecessors fuel s m k = Done preds ∧
    length preds = max_level_ s + 1 ∧
    ∀ j, preds !! j =
         if decide (j ≤ current_max_level_ s) then Some (Some (pred_at hd j k L))
         else if decide (j ≤ max_level_ s) then Some None else None.
Proof.
  intros HI Hfuel. destruct (inv_shape _ _ _ HI) as (hd & Hhd & Hsh).
  destruct (collect_levels_spec m hd _ L k fuel Hsh Hfuel (current_max_level_ s) hd
              (replicate (max_level_ s + 1) None)) as (preds & Hrun & Hlen & Hlook).
  - apply (inv_cml _ _ _ HI).
  - by rewrite length_replicate.
  - by exists [], (at_level (current_max_level_ s) (below k L)).
  - exists hd, preds. split; [done|].
    unfold find_predecessors, traverse_and_collect_predecessors.
    rewrite Hhd. split; [done|]. split; [done|].
    intros j. rewrite Hlook. destruct (decide (j ≤ current_max_level_ s)); [done|].
    destruct (decide (j ≤ max_level_ s)).
    + apply lookup_replicate_2. lia.
    + apply lookup_ge_None. rewrite length_replicate. lia.
Qed.

(** [traverse_to_level_zero] walks exactly as [traverse_and_collect_predecessors]
    does and ends at the level-0 predecessor. *)
Lemma traverse_levels_collect fuel m k : ∀ i c preds preds',
  collect_levels fuel m i c k preds = Done preds' →
  traverse_levels fuel m i c k = vec_get preds' 0.
Proof.
  induction i as [|i IH]; intros c preds preds'; simpl;
    destruct (move_forward_in_level fuel m c _ k) as [c'| | |]; simpl; try done;
    destruct (vec_set preds _ c') as [p1| | |] eqn:Hvs; simpl; try done;
    apply vec_set_inv in Hvs as [Hlt ->].
  - intros [= <-]. symmetry. apply vec_get_Done. by apply list_lookup_insert_eq.
  - apply IH.
Qed.

Lemma level_zero_candidate m hd M L k :
  shape m hd M L →
  load_forward m (Some (pred_at hd 0 k L)) 0 = Done (e_addr <$> head (from k L)).
Proof.
  intros Hsh. apply load_forward_fwd_at.
  pose proof (sh_linked _ _ _ _ Hsh 0 ltac:(lia)) as Hl.
  rewrite (at_level_split _ k _ (sh_sorted _ _ _ _ Hsh)), fmap_app in Hl.
  apply linked_split, linked_head in Hl.
  rewrite last_addr_fmap in Hl. unfold pred_at.
  by rewrite Hl, at_level_0, fmap_head.
Qed.

Lemma get_node_at_level_zero_spec m hd M L k :
  shape m hd M L →
  get_node_at_level_zero m (Some (pred_at hd 0 k L)) k = Done (e_addr <$> entry_of k L).
Proof.
  intros Hsh. unfold get_node_at_level_zero.
  rewrite (level_zero_candidate _ _ _ _ _ Hsh). simpl.
  rewrite (entry_of_sorted _ _ (sh_sorted _ _ _ _ Hsh)).
  destruct (head (from k L)) as [e|] eqn:Hhead; simpl; [|done].
  assert (e ∈ L) as He.
  { apply head_Some in Hhead as [R HR].
    assert (e ∈ from k L) as [_ ?]%list_elem_of_filter by (rewrite HR; by left). done. }
  destruct (load_node_hd _ _ _ _ _ (sh_nodes _ _ _ _ Hsh e He)) as (nd & -> & Hk & _).
  simpl. rewrite Hk. destruct (Z.eqb_spec (e_key e) k), (decide (e_key e = k)); done.
Qed.

Lemma get_target_node_eq m p k :
  get_target_node m p k = get_node_at_level_zero m p k.
Proof. done. Qed.

Lemma entry_of_elem k L e : entry_of k L = Some e → e ∈ L ∧ e_key e = k.
Proof.
  unfold entry_of. intros [R HR]%head_Some.
  assert (e ∈ filter (fun e => e_key e = k) L) as [? ?]%list_elem_of_filter
    by (rewrite HR; by left). done.
Qed.

Lemma find_node_spec fuel s m L k :
  Inv s m L → length L < fuel →
  find_node fuel s m k = Done (e_addr <$> entry_of k L).
Proof.
  intros HI Hfuel.
  destruct (find_predecessors_spec fuel s m L k HI Hfuel)
    as (hd & preds & Hhd & Hrun & Hlen & Hlook).
  destruct (inv_shape _ _ _ HI) as (hd' & Hhd' & Hsh).
  assert (hd' = hd) as -> by congruence.
  unfold find_node, traverse_to_level_zero.
  unfold find_predecessors, traverse_and_collect_predecessors in Hrun.
  rewrite (traverse_levels_collect _ _ _ _ _ _ _ Hrun).
  rewrite (vec_get_Done _ _ (Some (pred_at hd 0 k L))).
  - simpl. rewrite get_target_node_eq. by eapply get_node_at_level_zero_spec.
  - rewrite Hlook. by rewrite decide_True by lia.
Qed.

Lemma get_spec fuel s m L k :
  Inv s m L → length L < fuel →
  get fuel k s m = Done (e_val <$> entry_of k L).
Proof.
  intros HI Hfuel. unfold get. rewrite (find_node_spec _ _ _ _ _ HI Hfuel). simpl.
  destruct (entry_of k L) as [e|] eqn:He; simpl; [|done].
  destruct (inv_shape _ _ _ HI) as (hd & _ & Hsh).
  apply entry_of_elem in He as [He _].
  destruct (load_node_hd _ _ _ _ _ (sh_nodes _ _ _ _ Hsh e He)) as (nd & -> & _ & Hv & _).
  simpl. by rewrite Hv.
Qed.

Lemma contains_spec fuel s m L k :
  Inv s m L → length L < fuel →
  contains fuel k s m = Done (bool_decide (is_Some (entry_of k L))).
Proof.
  intros HI Hfuel. unfold contains. rewrite (find_node_spec _ _ _ _ _ HI Hfuel). simpl.
  f_equal. apply bool_decide_ext. destruct (entry_of k L); simpl.
  - split; [by eexists|done].
  - split; [done|by intros [? ?]].
Qed.

(** ** The highest level in use *)

Lemma max_list_char (L : list entry) c :
  (∀ e, e ∈ L → e_lvl e ≤ c) → (c = 0 ∨ ∃ e, e ∈ L ∧ e_lvl e = c) →
  c = max_list (e_lvl <$> L).
Proof.
  intros Hle Hex. apply Nat.le_antisymm.
  - destruct Hex as [->|(e & He & <-)]; [lia|].
    apply max_list_elem_of_le, list_elem_of_fmap. by exists e.
  - clear Hex. induction L as [|e L IH]; simpl; [lia|].
    apply Nat.max_lub; [apply Hle; by left|]. apply IH. intros e' He'. apply Hle. by right.
Qed.

Lemma max_list_insert_entry e L :
  increasing (e_key <$> L) →
  max_list (e_lvl <$> insert_entry e L) = e_lvl e `max` max_list (e_lvl <$> L).
Proof.
  intros Hs. rewrite (split_sorted (e_key e) L Hs) at 2. unfold insert_entry.
  rewrite !fmap_app, fmap_cons. generalize (e_lvl <$> below (e_key e) L).
  intros A. induction A as [|a A IH]; simpl; [done|]. rewrite IH. lia.
Qed.

Lemma set_val_lvl k v L : e_lvl <$> set_val k v L = e_lvl <$> L.
Proof.
  unfold set_val. rewrite <- list_fmap_compose. apply list_fmap_ext.
  intros _ e _. simpl. by destruct (decide (e_key e = k)).
Qed.

(** ** Overwriting the value of a present key *)

Lemma update_existing_node_spec m a k v0 n v :
  node_hd m a = Some (k, v0, n) →
  ∃ m', update_existing_node m (Some a) v = Done m' ∧
        next_free m' = next_free m ∧
        (∀ a' j, fwd_at m' a' j = fwd_at m a' j) ∧
        (∀ a', node_hd m' a' = if decide (a' = a) then Some (k, v, n) else node_hd m a').
Proof.
  unfold node_hd at 1. unfold update_existing_node, load.
  destruct (cells m !! a) as [nd|] eqn:Hc; [|done]. intros [= <- <- <-]. simpl.
  eexists. split; [done|]. split; [done|]. split.
  - intros a' j. unfold fwd_at, store. simpl.
    destruct (decide (a' = a)) as [->|Hne].
    + by rewrite lookup_insert_eq, Hc.
    + by rewrite lookup_insert_ne.
  - intros a'. unfold node_hd, store. simpl.
    destruct (decide (a' = a)) as [->|Hne].
    + by rewrite lookup_insert_eq.
    + by rewrite lookup_insert_ne.
Qed.

Lemma increasing_NoDup ks : increasing ks → NoDup ks.
Proof.
  induction ks as [|k ks IH]; simpl; [constructor|]. intros [H1 H2].
  constructor; [|by apply IH]. intros Hin.
  eapply Forall_forall in H1; [|done]. lia.
Qed.

Lemma NoDup_fmap_eq {A B : Type} (f : A → B) (l : list A) x y :
  NoDup (f <$> l) → x ∈ l → y ∈ l → f x = f y → x = y.
Proof.
  induction l as [|z l IH]; simpl; [by intros _ ?%elem_of_nil|].
  intros [Hz Hnd]%NoDup_cons [->|Hx]%elem_of_cons [->|Hy]%elem_of_cons Hf; try done.
  - exfalso. apply Hz. rewrite Hf. apply list_elem_of_fmap. by exists y.
  - exfalso. apply Hz. rewrite <- Hf. apply list_elem_of_fmap. by exists x.
  - by apply IH.
Qed.

Lemma set_val_addr k v L : e_addr <$> set_val k v L = e_addr <$> L.
Proof.
  unfold set_val. rewrite <- list_fmap_compose. apply list_fmap_ext.
  intros _ e _. simpl. by destruct (decide (e_key e = k)).
Qed.

Lemma set_val_key k v L : e_key <$> set_val k v L = e_key <$> L.
Proof.
  unfold set_val. rewrite <- list_fmap_compose. apply list_fmap_ext.
  intros _ e _. simpl. by destruct (decide (e_key e = k)).
Qed.

Lemma set_val_length k v L : length (set_val k v L) = length L.
Proof. apply length_fmap. Qed.

Lemma set_val_at_level k v j L : at_level j (set_val k v L) = set_val k v (at_level j L).
Proof.
  unfold at_level, set_val. induction L as [|e L IH]; [done|].
  rewrite fmap_cons, !filter_cons. destruct (decide (e_key e = k)); simpl;
    destruct (decide (j ≤ e_lvl e)); simpl; rewrite IH; try done.
  all: by destruct (decide (e_key e = k)).
Qed.

Lemma set_val_elem k v L e' :
  e' ∈ set_val k v L →
  ∃ e, e ∈ L ∧ e_addr e' = e_addr e ∧ e_key e' = e_key e ∧ e_lvl e' = e_lvl e ∧
       e_val e' = if decide (e_key e = k) then v else e_val e.
Proof.
  intros (e & -> & He)%list_elem_of_fmap. exists e. split; [done|].
  by destruct (decide (e_key e = k)).
Qed.

Lemma shape_set_val m m' hd M L k v e :
  shape m hd M L → entry_of k L = Some e →
  next_free m' = next_free m →
  (∀ a' j, fwd_at m' a' j = fwd_at m a' j) →
  (∀ a', node_hd m' a' =
         if decide (a' = e_addr e) then Some (k, v, e_lvl e + 1) else node_hd m a') →
  shape m' hd M (set_val k v L).
Proof.
  intros Hsh [He Hk]%entry_of_elem Hnext Hfwd Hnode.
  pose proof (sh_nodup _ _ _ _ Hsh) as Hnd. apply NoDup_cons in Hnd as [Hhd Hnd].
  constructor.
  - destruct (sh_hdr _ _ _ _ Hsh) as (hk & hv & Hh). exists hk, hv.
    rewrite Hnode, decide_False; [done|]. intros ->. apply Hhd.
    apply list_elem_of_fmap. by exists e.
  - intros e' (e0 & He0 & Ha & Hk0 & Hl & Hv)%set_val_elem.
    rewrite Hnode, Ha, Hk0, Hl, Hv. destruct (decide (e_key e0 = k)) as [Hk'|Hk'].
    + assert (e0 = e) as ->.
      { eapply (NoDup_fmap_eq e_key); try done; [|congruence].
        apply increasing_NoDup, (sh_sorted _ _ _ _ Hsh). }
      rewrite decide_True by done. by rewrite Hk.
    + rewrite decide_False; [by apply (sh_nodes _ _ _ _ Hsh)|].
      intros Heq. apply Hk'. rewrite <- Hk. f_equal.
      by eapply (NoDup_fmap_eq e_addr).
  - intros j Hj. rewrite set_val_at_level, set_val_addr.
    eapply linked_ext; [|by apply (sh_linked _ _ _ _ Hsh)]. intros a _. apply Hfwd.
  - rewrite set_val_key. apply (sh_sorted _ _ _ _ Hsh).
  - rewrite set_val_addr. apply (sh_nodup _ _ _ _ Hsh).
  - rewrite Hnext. destruct (sh_alloc _ _ _ _ Hsh) as [H1 H2]. split; [done|].
    intros e' (e0 & He0 & Ha & _)%set_val_elem. rewrite Ha. by apply H2.
  - rewrite Hnext, set_val_length. apply (sh_space _ _ _ _ Hsh).
Qed.

Lemma put_existing fuel s m L k v e :
  Inv s m L → length L < fuel → entry_of k L = Some e →
  ∃ m', put fuel k v s m = Done (s, m') ∧ Inv s m' (set_val k v L).
Proof.
  intros HI Hfuel He.
  destruct (find_predecessors_spec fuel s m L k HI Hfuel)
    as (hd & preds & Hhd & Hrun & Hlen & Hlook).
  destruct (inv_shape _ _ _ HI) as (hd' & Hhd' & Hsh).
  assert (hd' = hd) as -> by congruence.
  unfold put. rewrite Hrun. simpl.
  rewrite (vec_get_Done _ _ (Some (pred_at hd 0 k L)))
    by (rewrite Hlook; by rewrite decide_True by lia).
  simpl. rewrite (get_node_at_level_zero_spec _ _ _ _ _ Hsh), He. simpl.
  pose proof He as [HeL Hk]%entry_of_elem.
  pose proof (sh_nodes _ _ _ _ Hsh e HeL) as Hn. rewrite Hk in Hn.
  destruct (update_existing_node_spec m (e_addr e) _ _ _ v Hn)
    as (m' & -> & Hnext & Hfwd & Hnode).
  simpl. exists m'. split; [done|]. destruct HI. constructor; try done.
  - intros e' (e0 & He0 & _ & _ & -> & _)%set_val_elem. by apply inv_lvl0.
  - by rewrite set_val_length.
  - exists hd. split; [done|]. by eapply shape_set_val.
  - by rewrite set_val_lvl.
Qed.

(** ** Bounded loops *)

Lemma u8_small n : n < 256 → u8 n = n.
Proof. intros H. unfold u8. by apply Nat.mod_small. Qed.

Lemma for_up_spec {St : Type} (succ : nat → res nat) (P : nat → St → Prop)
    (body : nat → St → res St) hi :
  (∀ i, i ≤ hi → succ i = Done (i + 1)) →
  (∀ i s, i ≤ hi → P i s → ∃ s', body i s = Done s' ∧ P (i + 1) s') →
  ∀ n lo fuel s, lo + n = hi + 1 → n < fuel → P lo s →
  ∃ s', for_up succ fuel lo hi body s = Done s' ∧ P (hi + 1) s'.
Proof.
  intros Hsucc Hbody. induction n as [|n IH]; intros lo fuel s Hlo Hfuel HP;
    (destruct fuel as [|fuel]; [lia|]); simpl.
  - destruct (Nat.leb_spec lo hi); [lia|]. exists s. split; [done|].
    by replace (hi + 1) with lo by lia.
  - destruct (Nat.leb_spec lo hi); [|lia].
    destruct (Hbody lo s) as (s' & -> & HP'); [done|done|]. simpl.
    rewrite Hsucc by done. simpl. apply IH; [lia|lia|done].
Qed.

Lemma u8_succ_small hi i : hi < 255 → i ≤ hi → u8_succ i = Done (i + 1).
Proof. intros Hhi Hi. unfold u8_succ. by rewrite u8_small by lia. Qed.

Lemma int_succ_small hi i : (Z.of_nat hi < INT_MAX)%Z → i ≤ hi → int_succ i = Done (i + 1).
Proof.
  intros Hhi Hi. unfold int_succ. by destruct (Z.leb_spec (Z.of_nat i + 1) INT_MAX); [|lia].
Qed.

Lemma for_up_u8_spec {St : Type} (P : nat → St → Prop) (body : nat → St → res St) hi :
  hi < 255 →
  (∀ i s, i ≤ hi → P i s → ∃ s', body i s = Done s' ∧ P (i + 1) s') →
  ∀ n lo fuel s, lo + n = hi + 1 → n < fuel → P lo s →
  ∃ s', for_up u8_succ fuel lo hi body s = Done s' ∧ P (hi + 1) s'.
Proof. intros Hhi. apply for_up_spec. intros i Hi. by apply (u8_succ_small hi). Qed.

(** A [uint8_t] counter never exceeds 255: the loop cannot be left. *)
Lemma for_up_u8_255 {St : Type} (body : nat → St → res St) fuel : ∀ lo s s',
  lo ≤ 255 → for_up u8_succ fuel lo 255 body s ≠ Done s'.
Proof.
  induction fuel as [|fuel IH]; intros lo s s' Hlo; simpl; [done|].
  destruct (Nat.leb_spec lo 255); [|lia].
  destruct (body lo s) as [s1| | |]; simpl; try done.
  apply IH. unfold u8. pose proof (Nat.mod_upper_bound (lo + 1) 256). lia.
Qed.

(** ** The random level *)

Lemma generate_random_level_loop_spec : ∀ n max_level level fuel g,
  max_level ≤ 255 → level + n = max_level → n < fuel →
  generate_random_level_loop fuel max_level level g
  = Done (level + fst (level_of flip n g), snd (level_of flip n g)).
Proof.
  induction n as [|n IH]; intros max_level level fuel g Hmax Hn Hfuel;
    (destruct fuel as [|fuel]; [lia|]); simpl; destruct (flip g) as [b g'] eqn:Hflip.
  - destruct (Nat.ltb_spec level max_level); [lia|]. rewrite andb_false_r.
    simpl. by rewrite Nat.add_0_r.
  - destruct (Nat.ltb_spec level max_level); [|lia]. rewrite andb_true_r.
    destruct b; simpl.
    + rewrite u8_small by lia. rewrite (IH max_level (level + 1)) by lia.
      destruct (level_of flip n g') as [l g'']. simpl. do 2 f_equal. lia.
    + by rewrite Nat.add_0_r.
Qed.

Lemma generate_random_level_spec fuel s :
  max_level_ s ≤ 255 → max_level_ s < fuel →
  generate_random_level fuel s
  = Done (fst (level_of flip (max_level_ s) (gen_ s)),
          mkSkipList (max_level_ s) (current_max_level_ s) (header_ s) (element_count_ s)
                     (snd (level_of flip (max_level_ s) (gen_ s)))).
Proof.
  intros Hmax Hfuel. unfold generate_random_level.
  by rewrite (generate_random_level_loop_spec (max_level_ s)) by lia.
Qed.

(** ** Raising the level before an insertion *)

Lemma adjust_max_level_for_insertion_spec fuel lv preds s hd :
  header_ s = Some hd → current_max_level_ s < 255 →
  length preds = max_level_ s + 1 → lv ≤ max_level_ s → 256 ≤ fuel →
  (lv < 255 →
   ∃ preds',
     adjust_max_level_for_insertion fuel lv preds s
     = Done (preds', mkSkipList (max_level_ s) (current_max_level_ s `max` lv) (header_ s)
                                (element_count_ s) (gen_ s)) ∧
     length preds' = max_level_ s + 1 ∧
     ∀ j, preds' !! j =
          if decide (current_max_level_ s < j ∧ j ≤ lv) then Some (Some hd)
          else preds !! j) ∧
  (lv = 255 → ∀ r, adjust_max_level_for_insertion fuel lv preds s ≠ Done r).
Proof.
  intros Hhd Hcml Hlen Hlv Hfuel. unfold adjust_max_level_for_insertion. split.
  - intros Hlv'. destruct (Nat.ltb_spec (current_max_level_ s) lv) as [Hlt|Hge].
    + rewrite u8_small by lia.
      destruct (for_up_u8_spec
        (fun i p => current_max_level_ s < i ∧ length p = max_level_ s + 1 ∧
                    ∀ j, p !! j = if decide (current_max_level_ s < j ∧ j < i)
                                  then Some (Some hd) else preds !! j)
        (fun i p => vec_set p i (header_ s)) lv Hlv') with
        (n := lv - current_max_level_ s) (lo := current_max_level_ s + 1)
        (fuel := fuel) (s := preds) as (preds' & -> & _ & Hlen' & Hlook).
      * intros i p Hi (Hci & Hl & Hp). rewrite vec_set_Done by lia. eexists. split; [done|].
        split; [lia|]. split; [by rewrite length_insert|]. intros j. rewrite Hhd.
        destruct (decide (j = i)) as [->|Hne].
        -- rewrite list_lookup_insert_eq by lia. by rewrite decide_True by lia.
        -- rewrite list_lookup_insert_ne by done. rewrite Hp.
           destruct (decide (current_max_level_ s < j ∧ j < i)),
                    (decide (current_max_level_ s < j ∧ j < i + 1)); try done; lia.
      * lia.
      * lia.
      * split; [lia|]. split; [done|]. intros j. by rewrite decide_False by lia.
      * simpl. eexists. split; [|split; [done|]].
        -- do 2 f_equal. f_equal. lia.
        -- intros j. rewrite Hlook.
           destruct (decide (current_max_level_ s < j ∧ j < lv + 1)),
                    (decide (current_max_level_ s < j ∧ j ≤ lv)); try done; lia.
    + exists preds. split; [|split; [done|]].
      * destruct s. simpl in *. do 3 f_equal. lia.
      * intros j. by rewrite decide_False by lia.
  - intros -> r. destruct (Nat.ltb_spec (current_max_level_ s) 255) as [Hlt|Hge]; [|lia].
    destruct (for_up u8_succ fuel _ 255 _ preds) as [p| | |] eqn:Hrun; simpl; try done.
    exfalso. eapply for_up_u8_255; [|exact Hrun].
    unfold u8. pose proof (Nat.mod_upper_bound (current_max_level_ s + 1) 256). lia.
Qed.

(** ** Splicing a new node in *)

Lemma create_node_spec k v lv m :
  (next_free m < addr_limit)%N →
  ∃ m1, create_node k v lv m = Done (Some (next_free m), m1) ∧
        next_free m1 = (next_free m + 1)%N ∧
        (∀ a' j, fwd_at m1 a' j =
                 if decide (a' = next_free m) then replicate (lv + 1) None !! j
                 else fwd_at m a' j) ∧
        (∀ a', node_hd m1 a' =
               if decide (a' = next_free m) then Some (k, v, lv + 1) else node_hd m a').
Proof.
  intros Hlim. unfold create_node, new_node.
  destruct (N.ltb_spec (next_free m) addr_limit); [|lia].
  eexists. split; [done|]. split; [done|]. split.
  - intros a' j. unfold fwd_at. simpl. destruct (decide (a' = next_free m)) as [->|].
    + by rewrite lookup_insert_eq.
    + by rewrite lookup_insert_ne.
  - intros a'. unfold node_hd. simpl. destruct (decide (a' = next_free m)) as [->|].
    + rewrite lookup_insert_eq. simpl. by rewrite length_replicate.
    + by rewrite lookup_insert_ne.
Qed.

Lemma create_node_BadAlloc k v lv m :
  ¬ (next_free m < addr_limit)%N → create_node k v lv m = BadAlloc.
Proof.
  intros Hlim. unfold create_node, new_node.
  by destruct (N.ltb_spec (next_free m) addr_limit).
Qed.

Lemma sublist_fmap {A B : Type} (f : A → B) (l1 l2 : list A) :
  l1 `sublist_of` l2 → f <$> l1 `sublist_of` f <$> l2.
Proof. induction 1; simpl; by constructor. Qed.

Lemma nodup_at_level hd j L :
  NoDup (hd :: (e_addr <$> L)) → NoDup (hd :: (e_addr <$> at_level j L)).
Proof.
  intros H. eapply sublist_NoDup; [exact H|].
  apply sublist_skip, sublist_fmap, sublist_filter.
Qed.

Lemma at_level_elem j L e : e ∈ at_level j L → e ∈ L.
Proof. by intros [_ ?]%list_elem_of_filter. Qed.

Lemma below_elem k L e : e ∈ below k L → e ∈ L.
Proof. by intros [_ ?]%list_elem_of_filter. Qed.

Lemma at_level_insert_le j e L :
  j ≤ e_lvl e →
  at_level j (insert_entry e L)
  = at_level j (below (e_key e) L) ++ e :: at_level j (from (e_key e) L).
Proof.
  intros Hj. unfold insert_entry, at_level.
  by rewrite filter_app, filter_cons, decide_True.
Qed.

Lemma at_level_insert_gt j e L :
  increasing (e_key <$> L) → e_lvl e < j →
  at_level j (insert_entry e L) = at_level j L.
Proof.
  intros Hs Hj. rewrite (at_level_split j (e_key e) L Hs).
  unfold insert_entry, at_level. by rewrite filter_app, filter_cons, decide_False by lia.
Qed.

Lemma pred_at_elem hd j k L :
  pred_at hd j k L = hd ∨ ∃ e, e ∈ L ∧ pred_at hd j k L = e_addr e.
Proof.
  unfold pred_at, last_addr. destruct (last _) as [e|] eqn:Hlast; simpl; [|by left].
  right. exists e. split; [|done]. apply last_Some in Hlast as [l Hl].
  eapply below_elem, at_level_elem. rewrite Hl. apply elem_of_app. right. by left.
Qed.

Lemma splice_loop_spec succ fuel m m1 hd M L k v lv preds :
  shape m hd M L → lv ≤ M →
  (∀ i, i ≤ lv → succ i = Done (i + 1)) → lv + 1 < fuel →
  next_free m1 = (next_free m + 1)%N →
  (∀ a' j, fwd_at m1 a' j =
           if decide (a' = next_free m) then replicate (lv + 1) None !! j
           else fwd_at m a' j) →
  (∀ j, j ≤ lv → preds !! j = Some (Some (pred_at hd j k L))) →
  ∃ m2,
    for_up succ fuel 0 lv
      (fun i m0 =>
         do p <- vec_get preds i;
         do nxt <- load_forward m0 p i;
         do m1 <- store_forward m0 (Some (next_free m)) i nxt;
         store_forward m1 p i (Some (next_free m))) m1 = Done m2 ∧
    next_free m2 = next_free m1 ∧
    (∀ a', node_hd m2 a' = node_hd m1 a') ∧
    ∀ j, j ≤ M →
         linked m2 j hd (e_addr <$> at_level j (insert_entry (mkEntry (next_free m) k v lv) L)).
Proof.
  intros Hsh HlvM Hlv Hfuel Hnext Hfwd Hpreds.
  set (a := next_free m) in *. set (new := mkEntry a k v lv).
  pose proof (sh_sorted _ _ _ _ Hsh) as Hs.
  assert (∀ x, x ∈ hd :: (e_addr <$> L) → x ≠ a) as Hfresh.
  { destruct (sh_alloc _ _ _ _ Hsh) as [H1 H2].
    intros x [->|(e & -> & He)%list_elem_of_fmap]%elem_of_cons; [unfold a; lia|].
    specialize (H2 e He). unfold a. lia. }
  assert (∀ j x, x ∈ hd :: (e_addr <$> at_level j L) → x ≠ a) as Hfresh'.
  { intros j x [->|(e & -> & He)%list_elem_of_fmap]%elem_of_cons; apply Hfresh; [by left|].
    right. apply list_elem_of_fmap. exists e. split; [done|]. by eapply at_level_elem. }
  assert (∀ j, pred_at hd j k L ≠ a) as Hpa.
  { intros j. apply Hfresh. destruct (pred_at_elem hd j k L) as [->|(e & He & ->)]; [by left|].
    right. apply list_elem_of_fmap. by exists e. }
  destruct (for_up_spec succ
    (fun i mi =>
       next_free mi = next_free m1 ∧
       (∀ a', node_hd mi a' = node_hd m1 a') ∧
       (∀ j, j < i → j ≤ M → linked mi j hd (e_addr <$> at_level j (insert_entry new L))) ∧
       (∀ j, i ≤ j → j ≤ M → linked mi j hd (e_addr <$> at_level j L)) ∧
       (∀ j, i ≤ j → j ≤ lv → fwd_at mi a j = Some None))
    (fun i m0 =>
       do p <- vec_get preds i;
       do nxt <- load_forward m0 p i;
       do m1 <- store_forward m0 (Some a) i nxt;
       store_forward m1 p i (Some a)) lv Hlv) with
    (n := lv + 1) (lo := 0) (fuel := fuel) (s := m1)
    as (m2 & Hrun & Hn2 & Hnode2 & Hl2 & Hl2' & _).
  - intros i mi Hi (Hni & Hnodei & Hlo & Hhi & Hnew).
    rewrite (vec_get_Done _ _ _ (Hpreds i Hi)). simpl.
    pose proof (Hhi i ltac:(lia) ltac:(lia)) as Hli.
    rewrite (at_level_split i k L Hs), fmap_app in Hli.
    pose proof Hli as Hnxt. apply linked_split, linked_head in Hnxt.
    rewrite last_addr_fmap in Hnxt. fold (pred_at hd i k L) in Hnxt.
    rewrite (load_forward_fwd_at _ _ _ _ Hnxt). simpl.
    destruct (store_forward_spec mi a i (head (e_addr <$> at_level i (from k L))))
      as (m' & -> & Hn' & Hf' & Hnode'); [rewrite Hnew by lia; by eexists|]. simpl.
    destruct (store_forward_spec m' (pred_at hd i k L) i (Some a))
      as (m'' & -> & Hn'' & Hf'' & Hnode'').
    { rewrite Hf', decide_False by (intros [? _]; by eapply Hpa). rewrite Hnxt. by eexists. }
    exists m''. split; [done|].
    assert (∀ x j, j ≠ i → fwd_at m'' x j = fwd_at mi x j) as Hother.
    { intros x j Hj. rewrite Hf'', decide_False by lia. by rewrite Hf', decide_False by lia. }
    split; [congruence|]. split; [intros a'; by rewrite Hnode'', Hnode'|].
    split; [|split].
    + intros j Hj HjM. destruct (decide (j = i)) as [->|Hne].
      * rewrite (at_level_insert_le i new L) by (simpl; lia). simpl.
        rewrite fmap_app, fmap_cons. simpl.
        eapply (linked_insert mi m''); try done.
        -- rewrite <- fmap_app, <- (at_level_split i k L Hs).
           apply nodup_at_level, (sh_nodup _ _ _ _ Hsh).
        -- rewrite <- fmap_app, <- (at_level_split i k L Hs). intros Hin.
           by eapply Hfresh'.
        -- rewrite Hf'', decide_False by (intros [? _]; by eapply Hpa).
           by rewrite Hf', decide_True.
        -- rewrite last_addr_fmap. fold (pred_at hd i k L). by rewrite Hf'', decide_True.
        -- rewrite last_addr_fmap. fold (pred_at hd i k L). intros x Hx Hxp.
           rewrite Hf'', decide_False by naive_solver. rewrite Hf', decide_False; [done|].
           intros [-> _]. eapply (Hfresh' i); [|done].
           by rewrite (at_level_split i k L Hs), fmap_app.
      * eapply linked_ext; [|apply Hlo; [lia|done]]. intros x _. by apply Hother.
    + intros j Hj HjM. eapply linked_ext; [|apply Hhi; [lia|done]].
      intros x _. apply Hother. lia.
    + intros j Hj Hjl. rewrite Hother by lia. apply Hnew; lia.
  - lia.
  - lia.
  - split; [done|]. split; [done|]. split; [intros j Hj; lia|]. split.
    + intros j _ HjM. eapply linked_ext; [|by apply (sh_linked _ _ _ _ Hsh)].
      intros x Hx. rewrite Hfwd, decide_False; [done|]. by eapply Hfresh'.
    + intros j _ Hj. rewrite Hfwd, decide_True by done. apply lookup_replicate_2. lia.
  - exists m2. split; [done|]. split; [done|]. split; [done|].
    intros j Hj. destruct (decide (j < lv + 1)).
    + by apply Hl2.
    + rewrite at_level_insert_gt by (try done; simpl; lia). apply Hl2'; [lia|done].
Qed.

Lemma insert_entry_length e L :
  increasing (e_key <$> L) → length (insert_entry e L) = length L + 1.
Proof.
  intros Hs. rewrite (split_sorted (e_key e) L Hs) at 2. unfold insert_entry.
  rewrite !length_app. simpl. lia.
Qed.

Lemma insert_entry_elem e L e' :
  increasing (e_key <$> L) → e' ∈ insert_entry e L ↔ e' = e ∨ e' ∈ L.
Proof.
  intros Hs. rewrite (split_sorted (e_key e) L Hs) at 2. unfold insert_entry.
  rewrite !elem_of_app, elem_of_cons. tauto.
Qed.

Lemma insert_entry_sorted e L :
  increasing (e_key <$> L) → entry_of (e_key e) L = None →
  increasing (e_key <$> insert_entry e L).
Proof.
  intros Hs Hnone. unfold insert_entry. rewrite fmap_app, fmap_cons.
  assert (Forall (fun e' => (e_key e < e_key e')%Z) (from (e_key e) L)) as Hgt.
  { apply Forall_forall. intros e' He'. pose proof He' as [Hge HL]%list_elem_of_filter.
    destruct (decide (e_key e' = e_key e)) as [Heq|]; [|lia].
    exfalso. unfold entry_of in Hnone. apply head_None in Hnone.
    assert (e' ∈ filter (fun e0 => e_key e0 = e_key e) L) as Hin
      by by apply list_elem_of_filter.
    rewrite Hnone in Hin. by apply elem_of_nil in Hin. }
  apply increasing_app. split; [by apply increasing_filter|]. split.
  - simpl. split; [|by apply increasing_filter]. by apply Forall_fmap.
  - intros x y (ex & -> & Hx)%list_elem_of_fmap Hy.
    apply list_elem_of_filter in Hx as [Hx _].
    apply elem_of_cons in Hy as [->|(ey & -> & Hy)%list_elem_of_fmap]; [done|].
    eapply Forall_forall in Hgt; [|done]. simpl in Hgt. lia.
Qed.

Lemma shape_insert m m2 hd M L k v lv :
  shape m hd M L → entry_of k L = None → (next_free m < addr_limit)%N →
  next_free m2 = (next_free m + 1)%N →
  (∀ a', node_hd m2 a' =
         if decide (a' = next_free m) then Some (k, v, lv + 1) else node_hd m a') →
  (∀ j, j ≤ M →
        linked m2 j hd (e_addr <$> at_level j (insert_entry (mkEntry (next_free m) k v lv) L))) →
  shape m2 hd M (insert_entry (mkEntry (next_free m) k v lv) L).
Proof.
  intros Hsh Hnone Hlim Hnext Hnode Hlink.
  pose proof (sh_sorted _ _ _ _ Hsh) as Hs.
  destruct (sh_alloc _ _ _ _ Hsh) as [Hhd Hall].
  constructor; try done.
  - destruct (sh_hdr _ _ _ _ Hsh) as (hk & hv & Hh). exists hk, hv.
    rewrite Hnode, decide_False; [done|lia].
  - intros e [->|He]%insert_entry_elem; [| |done].
    + simpl. by rewrite Hnode, decide_True.
    + rewrite Hnode, decide_False; [by apply (sh_nodes _ _ _ _ Hsh)|].
      specialize (Hall e He). lia.
  - by apply insert_entry_sorted.
  - pose proof (sh_nodup _ _ _ _ Hsh) as Hnd.
    rewrite (split_sorted k L Hs), fmap_app in Hnd. unfold insert_entry. simpl.
    rewrite fmap_app, fmap_cons. simpl.
    rewrite <- Permutation_middle. apply NoDup_cons in Hnd as [Hhd' Hnd].
    assert (next_free m ∉ (e_addr <$> below k L) ++ (e_addr <$> from k L)) as Hfresh.
    { rewrite <- fmap_app, <- (split_sorted k L Hs).
      intros (e & Heq & He)%list_elem_of_fmap. specialize (Hall e He). lia. }
    apply NoDup_cons. split; [|by apply NoDup_cons].
    intros [Heq|Hin]%elem_of_cons; [lia|done].
  - rewrite Hnext. split; [lia|]. intros e [->|He]%insert_entry_elem; [| |done].
    + simpl. lia.
    + specialize (Hall e He). lia.
  - rewrite Hnext, insert_entry_length by done.
    destruct (sh_space _ _ _ _ Hsh). lia.
Qed.

(** ** [put] of an absent key *)

Lemma put_new fuel s m L k v :
  Inv s m L → length L + 256 ≤ fuel → entry_of k L = None →
  let lv := fst (level_of flip (max_level_ s) (gen_ s)) in
  let s' := mkSkipList (max_level_ s) (current_max_level_ s `max` lv) (header_ s)
                       (element_count_ s + 1) (snd (level_of flip (max_level_ s) (gen_ s))) in
  (lv < 255 → (next_free m < addr_limit)%N →
   ∃ m', put fuel k v s m = Done (s', m') ∧
         next_free m' = (next_free m + 1)%N ∧
         Inv s' m' (insert_entry (mkEntry (next_free m) k v lv) L)) ∧
  (lv = 255 ∨ ¬ (next_free m < addr_limit)%N → ∀ r, put fuel k v s m ≠ Done r).
Proof.
  intros HI Hfuel Hnone lv s'.
  destruct (find_predecessors_spec fuel s m L k HI ltac:(lia))
    as (hd & preds & Hhd & Hrun & Hlen & Hlook).
  destruct (inv_shape _ _ _ HI) as (hd' & Hhd' & Hsh).
  assert (hd' = hd) as -> by congruence.
  pose proof (inv_max _ _ _ HI) as Hmax. pose proof (inv_cml _ _ _ HI) as Hcml.
  pose proof (inv_cml_u8 _ _ _ HI) as Hcml8.
  assert (lv ≤ max_level_ s) as HlvM by apply level_of_le.
  unfold put. rewrite Hrun. simpl.
  rewrite (vec_get_Done _ _ (Some (pred_at hd 0 k L)))
    by (rewrite Hlook; by rewrite decide_True by lia).
  simpl. rewrite (get_node_at_level_zero_spec _ _ _ _ _ Hsh), Hnone. simpl.
  unfold insert_new_node. rewrite generate_random_level_spec by lia. simpl.
  fold lv.
  set (s1 := mkSkipList _ _ _ _ (snd _)).
  destruct (adjust_max_level_for_insertion_spec fuel lv preds s1 hd)
    as [Hadj Hdiv]; try done; [lia|].
  split.
  - intros Hlv Hlim. destruct (Hadj Hlv) as (preds' & -> & Hlen' & Hlook'). simpl.
    destruct (create_node_spec k v lv m Hlim) as (m1 & -> & Hn1 & Hf1 & Hnode1). simpl.
    unfold insert_node_at_all_levels.
    destruct (splice_loop_spec u8_succ fuel m m1 hd (max_level_ s) L k v lv preds')
      as (m2 & -> & Hn2 & Hnode2 & Hlink2); try done;
      [intros i Hi; by apply (u8_succ_small lv)|lia| |].
    { intros j Hj. rewrite Hlook'. simpl.
      destruct (decide (current_max_level_ s < j ∧ j ≤ lv)) as [[Hc _]|Hc].
      - by rewrite (pred_at_above hd L k _ j (inv_lvl _ _ _ HI) Hc).
      - rewrite Hlook, decide_True; [done|lia]. }
    simpl. destruct (sh_space _ _ _ _ Hsh) as [Hsp1 Hsp2].
    assert (size_t (element_count_ s + 1) = (element_count_ s + 1)%Z) as ->.
    { rewrite (inv_count _ _ _ HI). unfold size_t. apply Z.mod_small.
      unfold addr_limit in *. lia. }
    exists m2. split; [done|]. split; [congruence|].
    constructor; simpl; try done; try lia.
    + intros e [->|He]%insert_entry_elem; [| |apply (sh_sorted _ _ _ _ Hsh)]; simpl; [lia|].
      pose proof (inv_lvl _ _ _ HI e He). lia.
    + rewrite insert_entry_length by apply (sh_sorted _ _ _ _ Hsh).
      rewrite (inv_count _ _ _ HI). lia.
    + exists hd. split; [done|]. apply shape_insert; try done; [congruence|].
      intros a'. by rewrite Hnode2, Hnode1.
    + rewrite max_list_insert_entry by apply (sh_sorted _ _ _ _ Hsh). simpl.
      rewrite (inv_top _ _ _ HI). lia.
  - intros [Hlv|Hlim] r.
    + destruct (adjust_max_level_for_insertion fuel lv preds s1) as [[p s2]| | |] eqn:Hr;
        simpl; try done. exfalso. by apply (Hdiv Hlv (p, s2)).
    + destruct (adjust_max_level_for_insertion fuel lv preds s1) as [[p s2]| | |] eqn:Hr;
        simpl; try done. by rewrite create_node_BadAlloc.
Qed.

(** ** Unlinking a node *)

Lemma delete_ptr_spec m a :
  is_Some (node_hd m a) →
  ∃ m', delete_ptr m (Some a) = Done m' ∧
        next_free m' = next_free m ∧
        (∀ a' j, a' ≠ a → fwd_at m' a' j = fwd_at m a' j) ∧
        (∀ a', a' ≠ a → node_hd m' a' = node_hd m a').
Proof.
  unfold node_hd at 1. unfold delete_ptr, load.
  destruct (cells m !! a) as [nd|] eqn:Hc; [|by intros [? ?]]. intros _. simpl.
  eexists. split; [done|]. split; [done|]. split.
  - intros a' j Hne. unfold fwd_at. simpl. by rewrite lookup_delete_ne.
  - intros a' Hne. unfold node_hd. simpl. by rewrite lookup_delete_ne.
Qed.

Lemma filter_Forall_id {A : Type} (P : A → Prop) `{∀ x, Decision (P x)} (l : list A) :
  Forall P l → filter P l = l.
Proof.
  induction 1 as [|x l Hx _ IH]; [done|]. rewrite filter_cons, decide_True by done.
  by f_equal.
Qed.

Lemma remove_key_split k L e :
  increasing (e_key <$> L) → entry_of k L = Some e →
  ∃ R, from k L = e :: R ∧ remove_key k L = below k L ++ R ∧
       Forall (fun e' => (k < e_key e')%Z) R.
Proof.
  intros Hs He. pose proof He as [_ Hk]%entry_of_elem.
  rewrite (entry_of_sorted k L Hs) in He.
  destruct (from k L) as [|e' R] eqn:Hfrom; simpl in He; [done|].
  destruct (decide (e_key e' = k)); [|done]. injection He as ->.
  exists R. split; [done|].
  pose proof Hs as Hs'. rewrite (split_sorted k L Hs), Hfrom, fmap_app in Hs'.
  apply increasing_app in Hs' as (_ & [HR _] & _). rewrite Hk in HR.
  rewrite Forall_fmap in HR.
  assert (Forall (fun e' => (k < e_key e')%Z) R) as HR'.
  { eapply Forall_impl; [exact HR|]. by simpl. }
  split; [|done].
  unfold remove_key. rewrite (split_sorted k L Hs) at 1. rewrite Hfrom, filter_app.
  rewrite filter_cons, decide_False by (intros Hne; apply Hne; congruence). f_equal.
  - apply filter_Forall_id. eapply Forall_impl; [apply below_Forall|]. simpl. lia.
  - apply filter_Forall_id. eapply Forall_impl; [apply HR'|]. simpl. lia.
Qed.

Lemma at_level_app j A B : at_level j (A ++ B) = at_level j A ++ at_level j B.
Proof. apply filter_app. Qed.

Lemma at_level_cons j e A :
  at_level j (e :: A) = if decide (j ≤ e_lvl e) then e :: at_level j A else at_level j A.
Proof. unfold at_level. by rewrite filter_cons. Qed.

Lemma unlink_loop_spec succ fuel m hd M c L k e R preds :
  shape m hd M L →
  c ≤ M → (∀ i, i ≤ c → succ i = Done (i + 1)) →
  (∀ e', e' ∈ L → e_lvl e' ≤ c) →
  from k L = e :: R → c + 1 < fuel →
  (∀ j, j ≤ c → preds !! j = Some (Some (pred_at hd j k L))) →
  ∃ m1,
    for_up succ fuel 0 c
      (fun i m0 =>
         do p <- vec_get preds i;
         do nxt <- load_forward m0 p i;
         if bool_decide (nxt = Some (e_addr e)) then
           do after <- load_forward m0 (Some (e_addr e)) i;
           store_forward m0 p i after
         else Done m0) m = Done m1 ∧
    next_free m1 = next_free m ∧
    (∀ a', node_hd m1 a' = node_hd m a') ∧
    ∀ j, j ≤ M → linked m1 j hd (e_addr <$> at_level j (below k L ++ R)).
Proof.
  intros Hsh Hcml Hcml8 Hlvl Hfrom Hfuel Hpreds.
  pose proof (sh_sorted _ _ _ _ Hsh) as Hs.
  assert (L = below k L ++ e :: R) as HL by (rewrite <- Hfrom; by apply split_sorted).
  assert (∀ j, NoDup (hd :: (e_addr <$> at_level j (below k L)) ++
                      e_addr e :: (e_addr <$> at_level j R))) as Hnd.
  { intros j. pose proof (sh_nodup _ _ _ _ Hsh) as Hnd. rewrite HL, fmap_app, fmap_cons in Hnd.
    eapply sublist_NoDup; [exact Hnd|]. apply sublist_skip, sublist_app.
    - apply sublist_fmap, sublist_filter.
    - apply sublist_skip, sublist_fmap, sublist_filter. }
  destruct (for_up_spec succ
    (fun i mi =>
       next_free mi = next_free m ∧
       (∀ a', node_hd mi a' = node_hd m a') ∧
       (∀ j, j < i → j ≤ M →
             linked mi j hd (e_addr <$> at_level j (below k L ++ R))) ∧
       (∀ j, i ≤ j → j ≤ M → linked mi j hd (e_addr <$> at_level j L)))
    (fun i m0 =>
       do p <- vec_get preds i;
       do nxt <- load_forward m0 p i;
       if bool_decide (nxt = Some (e_addr e)) then
         do after <- load_forward m0 (Some (e_addr e)) i;
         store_forward m0 p i after
       else Done m0) (c) Hcml8) with
    (n := c + 1) (lo := 0) (fuel := fuel) (s := m)
    as (m1 & Hrun & Hn1 & Hnode1 & Hl1 & Hl1').
  - intros i mi Hi (Hni & Hnodei & Hlo & Hhi).
    rewrite (vec_get_Done _ _ _ (Hpreds i Hi)). simpl.
    pose proof (Hhi i ltac:(lia) ltac:(lia)) as Hli.
    rewrite HL, at_level_app, at_level_cons in Hli.
    destruct (decide (i ≤ e_lvl e)) as [Hie|Hie].
    + rewrite fmap_app, fmap_cons in Hli.
      pose proof Hli as Hnxt. apply linked_split in Hnxt.
      rewrite last_addr_fmap in Hnxt. fold (pred_at hd i k L) in Hnxt.
      destruct Hnxt as [Hnxt Hafter]. apply linked_head in Hafter.
      rewrite (load_forward_fwd_at _ _ _ _ Hnxt). simpl.
      rewrite bool_decide_eq_true_2 by done.
      rewrite (load_forward_fwd_at _ _ _ _ Hafter). simpl.
      destruct (store_forward_spec mi (pred_at hd i k L) i (head (e_addr <$> at_level i R)))
        as (m' & -> & Hn' & Hf' & Hnode'); [rewrite Hnxt; by eexists|].
      exists m'. split; [done|]. split; [congruence|].
      split; [intros a'; by rewrite Hnode'|]. split.
      * intros j Hj HjM. destruct (decide (j = i)) as [->|Hne].
        -- rewrite at_level_app, fmap_app.
           eapply (linked_remove mi m'); [apply Hnd|exact Hli| |].
           ++ rewrite last_addr_fmap. fold (pred_at hd i k L).
              by rewrite Hf', decide_True, Hafter.
           ++ rewrite last_addr_fmap. fold (pred_at hd i k L). intros x _ Hx.
              by rewrite Hf', decide_False by naive_solver.
        -- eapply linked_ext; [|apply Hlo; [lia|done]]. intros x _.
           by rewrite Hf', decide_False by lia.
      * intros j Hj HjM. eapply linked_ext; [|apply Hhi; [lia|done]]. intros x _.
        by rewrite Hf', decide_False by lia.
    + rewrite fmap_app in Hli.
      pose proof Hli as Hnxt. apply linked_split, linked_head in Hnxt.
      rewrite last_addr_fmap in Hnxt. fold (pred_at hd i k L) in Hnxt.
      rewrite (load_forward_fwd_at _ _ _ _ Hnxt). simpl.
      rewrite bool_decide_eq_false_2.
      * exists mi. split; [done|]. split; [done|]. split; [done|]. split.
        -- intros j Hj HjM. destruct (decide (j = i)) as [->|Hne].
           ++ by rewrite at_level_app, fmap_app.
           ++ apply Hlo; [lia|done].
        -- intros j Hj HjM. apply Hhi; [lia|done].
      * intros Heq. specialize (Hnd i).
        apply NoDup_cons in Hnd as [_ Hnd]. apply NoDup_app in Hnd as (_ & _ & Hnd).
        apply NoDup_cons in Hnd as [Hnd _]. apply Hnd.
        destruct (e_addr <$> at_level i R) as [|x l]; simpl in Heq; [done|].
        injection Heq as ->. by left.
  - lia.
  - lia.
  - split; [done|]. split; [done|]. split; [intros j Hj; lia|].
    intros j _ HjM. by apply (sh_linked _ _ _ _ Hsh).
  - exists m1. split; [done|]. split; [done|]. split; [done|].
    intros j Hj. destruct (decide (j < c + 1)).
    + by apply Hl1.
    + rewrite (at_level_above (below k L ++ R) (c)) by
        (try lia; intros e' He'; apply Hlvl; rewrite HL;
         rewrite elem_of_app in He'; rewrite elem_of_app, elem_of_cons; tauto).
      rewrite <- (at_level_above L (c) j) by (done || lia).
      apply Hl1'; [lia|done].
Qed.

(** ** Lowering the level after a removal *)

Lemma adjust_max_level_loop_spec m hd : ∀ cml fuel,
  (∀ j, j ≤ cml → is_Some (fwd_at m hd j)) → cml < fuel →
  ∃ c', adjust_max_level_loop fuel m (Some hd) cml = Done c' ∧
        c' ≤ cml ∧
        (∀ j, c' < j → j ≤ cml → fwd_at m hd j = Some None) ∧
        (c' = 0 ∨ ∃ x, fwd_at m hd c' = Some (Some x)).
Proof.
  induction cml as [|c IH]; intros fuel Hf Hfuel;
    (destruct fuel as [|fuel]; [lia|]); simpl.
  - exists 0. split; [done|]. split; [done|]. split; [intros; lia|by left].
  - destruct (Hf (S c)) as [q Hq]; [done|].
    rewrite (load_forward_fwd_at _ _ _ _ Hq). simpl. destruct q as [x|].
    + exists (S c). split; [done|]. split; [done|]. split; [intros; lia|right; by exists x].
    + rewrite Nat.sub_0_r. destruct (IH fuel) as (c' & -> & Hle & Hnull & Hend).
      * intros j Hj. apply Hf. lia.
      * lia.
      * exists c'. split; [done|]. split; [lia|]. split; [|done].
        intros j Hj1 Hj2. destruct (decide (j = S c)) as [->|]; [done|]. apply Hnull; lia.
Qed.

(** ** [remove] *)

Lemma remove_key_elem k L e : e ∈ remove_key k L ↔ e_key e ≠ k ∧ e ∈ L.
Proof. unfold remove_key. by rewrite list_elem_of_filter. Qed.

Lemma remove_absent fuel s m L k :
  Inv s m L → length L < fuel → entry_of k L = None →
  remove fuel k s m = Done (false, s, m).
Proof.
  intros HI Hfuel Hnone.
  destruct (find_predecessors_spec fuel s m L k HI Hfuel)
    as (hd & preds & Hhd & Hrun & Hlen & Hlook).
  destruct (inv_shape _ _ _ HI) as (hd' & Hhd' & Hsh).
  assert (hd' = hd) as -> by congruence.
  unfold remove. rewrite Hrun. simpl.
  rewrite (vec_get_Done _ _ (Some (pred_at hd 0 k L)))
    by (rewrite Hlook; by rewrite decide_True by lia).
  simpl. by rewrite (get_node_at_level_zero_spec _ _ _ _ _ Hsh), Hnone.
Qed.

Lemma remove_key_length k L e :
  increasing (e_key <$> L) → entry_of k L = Some e →
  length L = length (remove_key k L) + 1.
Proof.
  intros Hs He. destruct (remove_key_split k L e Hs He) as (R & Hfrom & -> & _).
  rewrite (split_sorted k L Hs) at 1. rewrite Hfrom, !length_app. simpl. lia.
Qed.

Lemma remove_present fuel s m L k e :
  Inv s m L → length L + 256 ≤ fuel → entry_of k L = Some e →
  ∃ hd c' m',
    header_ s = Some hd ∧
    remove fuel k s m
    = Done (true,
            mkSkipList (max_level_ s) c' (header_ s) (element_count_ s - 1) (gen_ s),
            m') ∧
    Inv (mkSkipList (max_level_ s) c' (header_ s) (element_count_ s - 1) (gen_ s))
        m' (remove_key k L) ∧
    c' ≤ current_max_level_ s ∧
    (∀ j, c' < j → j ≤ current_max_level_ s → fwd_at m' hd j = Some None) ∧
    (c' = 0 ∨ ∃ x, fwd_at m' hd c' = Some (Some x)).
Proof.
  intros HI Hfuel He.
  destruct (find_predecessors_spec fuel s m L k HI ltac:(lia))
    as (hd & preds & Hhd & Hrun & Hlen & Hlook).
  destruct (inv_shape _ _ _ HI) as (hd' & Hhd' & Hsh).
  assert (hd' = hd) as -> by congruence.
  pose proof (sh_sorted _ _ _ _ Hsh) as Hs.
  pose proof (inv_cml _ _ _ HI) as Hcml. pose proof (inv_cml_u8 _ _ _ HI) as Hcml8.
  pose proof He as [HeL Hk]%entry_of_elem.
  destruct (remove_key_split k L e Hs He) as (R & Hfrom & HL' & HR).
  unfold remove. rewrite Hrun. simpl.
  rewrite (vec_get_Done _ _ (Some (pred_at hd 0 k L)))
    by (rewrite Hlook; by rewrite decide_True by lia).
  simpl. rewrite (get_node_at_level_zero_spec _ _ _ _ _ Hsh), He. simpl.
  unfold delete_node.
  unfold disconnect_node_from_levels.
  destruct (unlink_loop_spec u8_succ fuel m hd (max_level_ s) (current_max_level_ s)
              L k e R preds)
    as (m1 & -> & Hn1 & Hnode1 & Hl1); try done;
    [intros i Hi; by apply (u8_succ_small (current_max_level_ s))
    |apply (inv_lvl _ _ _ HI)|lia| |].
  { intros j Hj. rewrite Hlook. by rewrite decide_True. }
  simpl. destruct (delete_ptr_spec m1 (e_addr e)) as (m2 & -> & Hn2 & Hf2 & Hnode2).
  { rewrite Hnode1, (sh_nodes _ _ _ _ Hsh e HeL). by eexists. }
  simpl. rewrite <- HL' in Hl1.
  pose proof (sh_nodup _ _ _ _ Hsh) as Hnd.
  assert (∀ x, x ∈ hd :: (e_addr <$> remove_key k L) → x ≠ e_addr e) as Hne.
  { intros x Hx ->. apply NoDup_cons in Hnd as [Hhdn Hnd].
    apply elem_of_cons in Hx as [Hx|(e' & Heq & [Hk' He']%remove_key_elem)%list_elem_of_fmap].
    - apply Hhdn. rewrite <- Hx. apply list_elem_of_fmap. by exists e.
    - apply Hk'. rewrite <- Hk. f_equal. symmetry. by eapply (NoDup_fmap_eq e_addr). }
  assert (∀ j, j ≤ max_level_ s → linked m2 j hd (e_addr <$> at_level j (remove_key k L)))
    as Hl2.
  { intros j Hj. eapply linked_ext; [|by apply Hl1]. intros x Hx. apply Hf2, Hne.
    apply elem_of_cons in Hx as [->|(e' & -> & He')%list_elem_of_fmap]; [by left|].
    right. apply list_elem_of_fmap. exists e'. split; [done|]. by eapply at_level_elem. }
  unfold adjust_max_level. simpl. rewrite Hhd.
  destruct (adjust_max_level_loop_spec m2 hd (current_max_level_ s) fuel)
    as (c' & -> & Hc' & Hnull & Hend); [|lia|].
  { intros j Hj. rewrite (linked_head _ _ _ _ (Hl2 j ltac:(lia))). by eexists. }
  simpl. destruct (sh_space _ _ _ _ Hsh) as [Hsp1 Hsp2].
  pose proof (remove_key_length k L e Hs He) as Hlen'.
  assert (size_t (element_count_ s - 1) = (element_count_ s - 1)%Z) as ->.
  { rewrite (inv_count _ _ _ HI). unfold size_t. apply Z.mod_small.
    unfold addr_limit in *. lia. }
  assert (∀ e', e' ∈ remove_key k L → e_lvl e' ≤ c') as Hlvl'.
  { intros e' He'. destruct (decide (e_lvl e' ≤ c')) as [|Hgt]; [done|]. exfalso.
    pose proof He' as [_ He'L]%remove_key_elem.
    pose proof (inv_lvl _ _ _ HI e' He'L) as Hle.
    pose proof (Hl2 (e_lvl e') ltac:(lia)) as Hl. apply linked_head in Hl.
    rewrite Hnull in Hl by lia. injection Hl as Hl. symmetry in Hl.
    rewrite fmap_head in Hl. apply fmap_None, head_None in Hl.
    assert (e' ∈ at_level (e_lvl e') (remove_key k L)) as Hin
      by (apply list_elem_of_filter; split; [lia|done]).
    rewrite Hl in Hin. by apply elem_of_nil in Hin. }
  assert (c' = max_list (e_lvl <$> remove_key k L)) as Htop.
  { apply max_list_char; [done|]. destruct Hend as [->|[x Hx]]; [by left|]. right.
    pose proof (Hl2 c' ltac:(lia)) as Hl. apply linked_head in Hl.
    rewrite Hx, fmap_head in Hl. injection Hl as Hl.
    destruct (head (at_level c' (remove_key k L))) as [e'|] eqn:Hhead; [|done].
    apply head_Some in Hhead as [l Hhead].
    assert (e' ∈ at_level c' (remove_key k L)) as Hin by (rewrite Hhead; by left).
    apply list_elem_of_filter in Hin as [Hlv Hin].
    exists e'. split; [done|]. pose proof (Hlvl' e' Hin). lia. }
  exists hd, c', m2. split; [done|]. split; [done|]. split; [|done].
  constructor; simpl; [apply (inv_max _ _ _ HI)|lia|lia|done| | |done].
  - rewrite (inv_count _ _ _ HI). lia.
  - exists hd. split; [done|]. constructor.
    + destruct (sh_hdr _ _ _ _ Hsh) as (hk & hv & Hh). exists hk, hv.
      rewrite Hnode2, Hnode1; [done|]. apply Hne. by left.
    + intros e' He'. rewrite Hnode2, Hnode1.
      * apply (sh_nodes _ _ _ _ Hsh). by apply remove_key_elem in He' as [_ ?].
      * apply Hne. right. apply list_elem_of_fmap. by exists e'.
    + done.
    + by apply increasing_filter.
    + eapply sublist_NoDup; [exact Hnd|]. apply sublist_skip, sublist_fmap, sublist_filter.
    + rewrite Hn2, Hn1. destruct (sh_alloc _ _ _ _ Hsh) as [H1 H2]. split; [done|].
      intros e' [_ He']%remove_key_elem. by apply H2.
    + rewrite Hn2, Hn1. split; [lia|done].
Qed.

(** ** Lookups in the represented list *)

Lemma entry_of_intro L e :
  increasing (e_key <$> L) → e ∈ L → entry_of (e_key e) L = Some e.
Proof.
  intros Hs He. unfold entry_of.
  destruct (filter (fun e0 => e_key e0 = e_key e) L) as [|e0 l] eqn:Hf.
  - assert (e ∈ filter (fun e0 => e_key e0 = e_key e) L) as Hin
      by by apply list_elem_of_filter.
    rewrite Hf in Hin. by apply elem_of_nil in Hin.
  - simpl. f_equal.
    assert (e0 ∈ filter (fun e0 => e_key e0 = e_key e) L) as [Hk Hin]%list_elem_of_filter
      by (rewrite Hf; by left).
    eapply (NoDup_fmap_eq e_key); try done. by apply increasing_NoDup.
Qed.

Lemma entry_of_None k L : entry_of k L = None ↔ ∀ e, e ∈ L → e_key e ≠ k.
Proof.
  unfold entry_of. rewrite head_None. split.
  - intros Hf e He Hk.
    assert (e ∈ filter (fun e0 => e_key e0 = k) L) as Hin by by apply list_elem_of_filter.
    rewrite Hf in Hin. by apply elem_of_nil in Hin.
  - intros Hall. destruct (filter _ L) as [|e l] eqn:Hf; [done|]. exfalso.
    assert (e ∈ filter (fun e0 => e_key e0 = k) L) as [Hk Hin]%list_elem_of_filter
      by (rewrite Hf; by left).
    by eapply Hall.
Qed.

Lemma entry_of_set_val_same k v L e :
  increasing (e_key <$> L) → entry_of k L = Some e →
  entry_of k (set_val k v L) = Some (mkEntry (e_addr e) k v (e_lvl e)).
Proof.
  intros Hs [He Hk]%entry_of_elem.
  change k with (e_key (mkEntry (e_addr e) k v (e_lvl e))) at 1.
  apply entry_of_intro; [by rewrite set_val_key|].
  apply list_elem_of_fmap. exists e. by rewrite decide_True.
Qed.

Lemma filter_key_set_val k k2 v L :
  k2 ≠ k →
  filter (fun e => e_key e = k2) (set_val k v L) = filter (fun e => e_key e = k2) L.
Proof.
  intros Hne. unfold set_val. induction L as [|e L IH]; [done|].
  rewrite fmap_cons, !filter_cons. destruct (decide (e_key e = k)) as [Hk|Hk]; simpl.
  - by rewrite !decide_False by congruence.
  - destruct (decide (e_key e = k2)); by rewrite IH.
Qed.

Lemma entry_of_other k k2 v e L :
  increasing (e_key <$> L) → k2 ≠ k → e_key e = k →
  entry_of k2 (set_val k v L) = entry_of k2 L ∧
  entry_of k2 (insert_entry e L) = entry_of k2 L ∧
  entry_of k2 (remove_key k L) = entry_of k2 L.
Proof.
  intros Hs Hne Hk. unfold entry_of. split; [by rewrite filter_key_set_val|]. split.
  - rewrite (split_sorted (e_key e) L Hs) at 2. unfold insert_entry.
    by rewrite !filter_app, filter_cons, decide_False by congruence.
  - unfold remove_key. f_equal. induction L as [|x L IH]; [done|].
    simpl in Hs. destruct Hs as [_ Hs]. rewrite !filter_cons.
    destruct (decide (e_key x ≠ k)) as [Hx|Hx].
    + rewrite filter_cons. destruct (decide (e_key x = k2)); by rewrite IH.
    + rewrite decide_False by (intros ?; apply Hx; congruence). by apply IH.
Qed.

(** ** The constructor *)

Lemma SkipList_new_spec max_level seed m :
  (next_free m < addr_limit)%N →
  ∃ m', SkipList_new max_level seed m
        = Done (mkSkipList (u8 max_level) 0 (Some (next_free m)) 0 seed, m') ∧
        Inv (mkSkipList (u8 max_level) 0 (Some (next_free m)) 0 seed) m' [].
Proof.
  intros Hlim. unfold SkipList_new, create_header_node.
  destruct (create_node_spec 0 default_value (u8 max_level) m Hlim)
    as (m' & -> & Hn & Hf & Hnode).
  simpl. exists m'. split; [done|].
  assert (u8 max_level < 256) by (unfold u8; apply Nat.mod_upper_bound; lia).
  constructor; simpl; try done; try lia.
  - intros e He. by apply elem_of_nil in He.
  - eexists. split; [done|]. constructor; simpl.
    + exists 0%Z, default_value. by rewrite Hnode, decide_True.
    + intros e He. by apply elem_of_nil in He.
    + intros j Hj. rewrite Hf, decide_True by done. apply lookup_replicate_2. lia.
    + done.
    + apply NoDup_singleton.
    + split; [lia|]. intros e He. by apply elem_of_nil in He.
    + lia.
Qed.

(** ** From the representation to the invariant of the specification *)

Lemma filter_fmap_on {A B : Type} (f : A → B) (P : B → Prop) (Q : A → Prop)
    `{∀ y, Decision (P y)} `{∀ x, Decision (Q x)} (l : list A) :
  (∀ x, x ∈ l → P (f x) ↔ Q x) → filter P (f <$> l) = f <$> filter Q l.
Proof.
  induction l as [|x l IH]; intros HPQ; [done|].
  rewrite fmap_cons, !filter_cons.
  rewrite IH by (intros y Hy; apply HPQ; by right).
  pose proof (HPQ x ltac:(by left)) as Hx.
  destruct (decide (P (f x))), (decide (Q x)); try done; tauto.
Qed.

Lemma Inv_SpecInv s m L : Inv s m L → SpecInv s m.
Proof.
  intros HI. destruct (inv_shape _ _ _ HI) as (hd & Hhd & Hsh).
  split; [lia|]. split; [apply (inv_cml _ _ _ HI)|].
  exists hd, (e_addr <$> L). split; [done|].
  split; [rewrite <- (at_level_0 L) at 1; apply (sh_linked _ _ _ _ Hsh); lia|].
  split; [pose proof (sh_nodup _ _ _ _ Hsh) as Hnd; by apply NoDup_cons in Hnd as [? _]|].
  split; [by rewrite length_fmap, (inv_count _ _ _ HI)|].
  intros i Hi. exists (e_addr <$> at_level i L).
  split; [by apply (sh_linked _ _ _ _ Hsh)|].
  assert (∀ e, e ∈ L → key_at m (e_addr e) = e_key e ∧ node_level m (e_addr e) = e_lvl e)
    as Hcell.
  { intros e He. pose proof (sh_nodes _ _ _ _ Hsh e He) as Hn.
    unfold node_hd in Hn. unfold key_at, node_level.
    destruct (cells m !! e_addr e) as [nd|]; [|done]. injection Hn as -> _ ->.
    split; [done|lia]. }
  split.
  - rewrite <- list_fmap_compose.
    erewrite (list_fmap_ext _ e_key (at_level i L)).
    + apply increasing_filter, (sh_sorted _ _ _ _ Hsh).
    + intros _ e He%list_elem_of_lookup_2%at_level_elem. simpl. by apply Hcell.
  - unfold at_level. symmetry. apply filter_fmap_on.
    intros e He. destruct (Hcell e He) as [_ ->]. done.
Qed.

(** ** What a returning [put] has done *)

Lemma put_cases fuel s m L k v s' m' :
  Inv s m L → length L + 256 ≤ fuel →
  put fuel k v s m = Done (s', m') →
  (∃ e, entry_of k L = Some e ∧ s' = s ∧ next_free m' = next_free m ∧
        Inv s m' (set_val k v L)) ∨
  (entry_of k L = None ∧
   fst (level_of flip (max_level_ s) (gen_ s)) < 255 ∧ (next_free m < addr_limit)%N ∧
   s' = mkSkipList (max_level_ s)
          (current_max_level_ s `max` fst (level_of flip (max_level_ s) (gen_ s)))
          (header_ s) (element_count_ s + 1) (snd (level_of flip (max_level_ s) (gen_ s))) ∧
   Inv s' m' (insert_entry
                (mkEntry (next_free m) k v (fst (level_of flip (max_level_ s) (gen_ s)))) L)).
Proof.
  intros HI Hfuel Hput. destruct (entry_of k L) as [e|] eqn:He.
  - left. destruct (put_existing fuel s m L k v e HI ltac:(lia) He) as (m1 & Hrun & HI1).
    rewrite Hrun in Hput. injection Hput as <- <-. exists e.
    split; [done|]. split; [done|]. split; [|done].
    destruct (inv_shape _ _ _ HI) as (hd & Hhd & Hsh).
    pose proof He as [HeL Hk]%entry_of_elem.
    pose proof (sh_nodes _ _ _ _ Hsh e HeL) as Hn. rewrite Hk in Hn.
    destruct (update_existing_node_spec m (e_addr e) _ _ _ v Hn) as (m2 & Hupd & Hnext & _).
    destruct (find_predecessors_spec fuel s m L k HI ltac:(lia))
      as (hd' & preds & Hhd' & Hfp & _ & Hlook).
    assert (hd' = hd) as -> by congruence.
    unfold put in Hrun. rewrite Hfp in Hrun. simpl in Hrun.
    rewrite (vec_get_Done _ _ (Some (pred_at hd 0 k L))) in Hrun
      by (rewrite Hlook; by rewrite decide_True by lia).
    simpl in Hrun. rewrite (get_node_at_level_zero_spec _ _ _ _ _ Hsh), He in Hrun.
    simpl in Hrun. rewrite Hupd in Hrun. simpl in Hrun. by injection Hrun as <-.
  - right. split; [done|].
    destruct (put_new fuel s m L k v HI Hfuel He) as [Hok Hbad].
    destruct (decide (fst (level_of flip (max_level_ s) (gen_ s)) < 255)) as [Hlv|Hlv];
      [|exfalso; eapply Hbad; [left; pose proof (level_of_le flip (max_level_ s) (gen_ s));
                              pose proof (inv_max _ _ _ HI); lia|done]].
    destruct (decide (next_free m < addr_limit)%N) as [Hlim|Hlim];
      [|exfalso; eapply Hbad; [by right|done]].
    destruct (Hok Hlv Hlim) as (m1 & Hrun & _ & HI1).
    rewrite Hrun in Hput. by injection Hput as <- <-.
Qed.

Lemma put_cases_length fuel s m L k v s' m' :
  Inv s m L → length L + 256 ≤ fuel →
  put fuel k v s m = Done (s', m') →
  ∃ L', Inv s' m' L' ∧ length L' ≤ length L + 1 ∧
        (∃ e', entry_of k L' = Some e' ∧ e_val e' = v) ∧
        (∀ k2, k2 ≠ k → entry_of k2 L' = entry_of k2 L).
Proof.
  intros HI Hfuel Hput.
  destruct (inv_shape _ _ _ HI) as (hd & _ & Hsh). pose proof (sh_sorted _ _ _ _ Hsh) as Hs.
  destruct (put_cases _ _ _ _ _ _ _ _ HI Hfuel Hput)
    as [(e & He & -> & _ & HI')|(Hnone & _ & _ & _ & HI')].
  - exists (set_val k v L). split; [done|]. split; [rewrite set_val_length; lia|]. split.
    + eexists. split; [by apply entry_of_set_val_same|done].
    + intros k2 Hk2. pose proof He as [_ Hk]%entry_of_elem.
      by destruct (entry_of_other k k2 v e L Hs Hk2 Hk) as (? & _ & _).
  - eexists. split; [exact HI'|]. split; [by rewrite insert_entry_length|]. split.
    + destruct (inv_shape _ _ _ HI') as (hd' & _ & Hsh').
      eexists. split; [|shelve].
      match goal with |- entry_of _ (insert_entry ?e _) = _ =>
        change k with (e_key e) at 1; apply entry_of_intro;
        [apply (sh_sorted _ _ _ _ Hsh')|apply insert_entry_elem; [done|by left]] end.
      Unshelve. done.
    + intros k2 Hk2.
      match goal with |- entry_of _ (insert_entry ?e _) = _ =>
        by destruct (entry_of_other k k2 v e L Hs Hk2 eq_refl) as (_ & ? & _) end.
Qed.

Lemma put_existing_store fuel s m L k v e :
  Inv s m L → length L < fuel → entry_of k L = Some e →
  ∃ nd, cells m !! e_addr e = Some nd ∧ key_ nd = k ∧
        length (forward_ nd) = e_lvl e + 1 ∧
        put fuel k v s m = Done (s, store m (e_addr e) (mkNode k v (forward_ nd))).
Proof.
  intros HI Hfuel He.
  destruct (find_predecessors_spec fuel s m L k HI Hfuel)
    as (hd & preds & Hhd & Hrun & Hlen & Hlook).
  destruct (inv_shape _ _ _ HI) as (hd' & Hhd' & Hsh).
  assert (hd' = hd) as -> by congruence.
  pose proof He as [HeL Hk]%entry_of_elem.
  pose proof (sh_nodes _ _ _ _ Hsh e HeL) as Hn. unfold node_hd in Hn.
  destruct (cells m !! e_addr e) as [nd|] eqn:Hc; [|done]. injection Hn as Hk' _ Hl.
  exists nd. split; [done|]. split; [congruence|]. split; [done|].
  unfold put. rewrite Hrun. simpl.
  rewrite (vec_get_Done _ _ (Some (pred_at hd 0 k L)))
    by (rewrite Hlook; by rewrite decide_True by lia).
  simpl. rewrite (get_node_at_level_zero_spec _ _ _ _ _ Hsh), He. simpl.
  unfold update_existing_node, load. rewrite Hc. simpl. by rewrite Hk', Hk.
Qed.

Lemma remove_returns fuel s m L k :
  Inv s m L → length L + 256 ≤ fuel →
  ∃ b s' m' L', remove fuel k s m = Done (b, s', m') ∧ Inv s' m' L'.
Proof.
  intros HI Hfuel. destruct (entry_of k L) as [e|] eqn:He.
  - destruct (remove_present fuel s m L k e HI Hfuel He)
      as (hd' & c' & m' & _ & Hrun & HI' & _).
    by eexists true, _, m', _.
  - exists false, s, m, L. split; [|done]. apply (remove_absent fuel s m L k HI); [lia|done].
Qed.

(** * [XSFSkipList] *)

Lemma raise_loop_spec succ fuel c lv (preds : list (option addr)) hdp :
  (∀ i, i ≤ lv → succ i = Done (i + 1)) → c < lv → lv < length preds → lv - c < fuel →
  ∃ preds',
    for_up succ fuel (c + 1) lv (fun i p => vec_set p i hdp) preds = Done preds' ∧
    length preds' = length preds ∧
    ∀ j, preds' !! j = if decide (c < j ∧ j ≤ lv) then Some hdp else preds !! j.
Proof.
  intros Hsucc Hc Hlen Hfuel.
  destruct (for_up_spec succ
    (fun i p => c < i ∧ length p = length preds ∧
                ∀ j, p !! j = if decide (c < j ∧ j < i) then Some hdp else preds !! j)
    (fun i p => vec_set p i hdp) lv Hsucc) with
    (n := lv - c) (lo := c + 1) (fuel := fuel) (s := preds)
    as (preds' & Hrun & _ & Hlen' & Hlook).
  - intros i p Hi (Hci & Hl & Hp). rewrite vec_set_Done by lia. eexists. split; [done|].
    split; [lia|]. split; [by rewrite length_insert|]. intros j.
    destruct (decide (j = i)) as [->|Hne].
    + rewrite list_lookup_insert_eq by lia. by rewrite decide_True by lia.
    + rewrite list_lookup_insert_ne by done. rewrite Hp.
      destruct (decide (c < j ∧ j < i)), (decide (c < j ∧ j < i + 1)); try done; lia.
  - lia.
  - lia.
  - split; [lia|]. split; [done|]. intros j. by rewrite decide_False by lia.
  - exists preds'. split; [done|]. split; [done|]. intros j. rewrite Hlook.
    destruct (decide (c < j ∧ j < lv + 1)), (decide (c < j ∧ j ≤ lv)); try done; lia.
Qed.

Lemma xsf_get_random_level_loop_spec : ∀ n max_level k fuel r,
  (Z.of_nat k + Z.of_nat n = max_level)%Z → n < fuel →
  xsf_get_random_level_loop fuel max_level k r
  = Done (k + fst (level_of xsf_flip n r), snd (level_of xsf_flip n r)).
Proof.
  induction n as [|n IH]; intros max_level k fuel r Hn Hfuel;
    (destruct fuel as [|fuel]; [lia|]); simpl; unfold xsf_flip;
    destruct (c_rand r) as [x r'] eqn:Hrand.
  - destruct (Z.ltb_spec (Z.of_nat k) max_level); [lia|]. rewrite andb_false_r.
    simpl. by rewrite Nat.add_0_r.
  - destruct (Z.ltb_spec (Z.of_nat k) max_level); [|lia]. rewrite andb_true_r.
    destruct (negb (Z.rem x 2 =? 0)%Z); simpl.
    + rewrite (IH max_level (k + 1)) by lia. fold xsf_flip.
      destruct (level_of xsf_flip n r') as [l r'']. simpl. do 2 f_equal. lia.
    + by rewrite Nat.add_0_r.
Qed.

Lemma xsf_descend_collect fuel m k : ∀ i c u u',
  collect_levels fuel m i c k u = Done u' →
  xsf_descend fuel m i c k u = do c' <- vec_get u' 0; Done (c', u').
Proof.
  induction i as [|i IH]; intros c u u'; simpl;
    destruct (move_forward_in_level fuel m c _ k) as [c'| | |]; simpl; try done;
    destruct (vec_set u _ c') as [u1| | |] eqn:Hvs; simpl; try done;
    apply vec_set_inv in Hvs as [Hlt ->].
  - intros [= <-]. by rewrite (vec_get_Done _ _ c') by by apply list_lookup_insert_eq.
  - apply IH.
Qed.

Lemma xsf_find fuel x m L k :
  XInv x m L → length L < fuel →
  ∃ hd preds,
    xsf_header_ x = Some hd ∧
    xsf_update_array (xsf_max_level_ x)
    = Done (replicate (Z.to_nat (xsf_max_level_ x) + 1) None) ∧
    collect_levels fuel m (xsf_skip_list_level_ x) (xsf_header_ x) k
      (replicate (Z.to_nat (xsf_max_level_ x) + 1) None) = Done preds ∧
    length preds = Z.to_nat (xsf_max_level_ x) + 1 ∧
    ∀ j, j ≤ xsf_skip_list_level_ x → preds !! j = Some (Some (pred_at hd j k L)).
Proof.
  intros HI Hfuel. destruct (xinv_shape _ _ _ HI) as (hd & Hhd & Hsh).
  pose proof (xinv_max _ _ _ HI) as Hmax. pose proof (xinv_level _ _ _ HI) as Hlevel.
  destruct (collect_levels_spec m hd _ L k fuel Hsh Hfuel (xsf_skip_list_level_ x) hd
              (replicate (Z.to_nat (xsf_max_level_ x) + 1) None))
    as (preds & Hrun & Hlen & Hlook).
  - lia.
  - by rewrite length_replicate.
  - by exists [], (at_level (xsf_skip_list_level_ x) (below k L)).
  - exists hd, preds. split; [done|]. split.
    + unfold xsf_update_array.
      destruct (Z.leb_spec INT_MAX (xsf_max_level_ x)); [lia|].
      destruct (Z.leb_spec (xsf_max_level_ x + 1) 0); [lia|]. simpl.
      do 2 f_equal. lia.
    + rewrite Hhd. split; [done|]. split; [done|].
      intros j Hj. by rewrite Hlook, decide_True.
Qed.

Lemma xsf_candidate m hd M L k :
  shape m hd M L →
  load_forward m (Some (pred_at hd 0 k L)) 0 = Done (e_addr <$> head (from k L)) ∧
  xsf_is_match m (e_addr <$> head (from k L)) k = Done (bool_decide (is_Some (entry_of k L))) ∧
  (is_Some (entry_of k L) → e_addr <$> head (from k L) = e_addr <$> entry_of k L).
Proof.
  intros Hsh. split; [by eapply level_zero_candidate|].
  rewrite (entry_of_sorted _ _ (sh_sorted _ _ _ _ Hsh)). unfold xsf_is_match.
  destruct (head (from k L)) as [e|] eqn:Hhead; simpl.
  - assert (e ∈ L) as He.
    { apply head_Some in Hhead as [l Hl].
      assert (e ∈ from k L) as [_ ?]%list_elem_of_filter by (rewrite Hl; by left). done. }
    destruct (load_node_hd _ _ _ _ _ (sh_nodes _ _ _ _ Hsh e He)) as (nd & -> & Hk & _).
    simpl. rewrite Hk. destruct (Z.eqb_spec (e_key e) k), (decide (e_key e = k)); try done.
    all: split; try done; try (by intros [? ?]).
    all: f_equal; symmetry.
    all: try (apply bool_decide_eq_true_2; by eexists).
    all: try (apply bool_decide_eq_false_2; by intros [? ?]).
  - split; try (by intros [? ?]). f_equal; symmetry.
    all: try (apply bool_decide_eq_false_2; by intros [? ?]).
Qed.

Lemma xsf_search_element_spec fuel x m L k :
  XInv x m L → length L < fuel →
  xsf_search_element fuel k x m = Done (e_val <$> entry_of k L).
Proof.
  intros HI Hfuel.
  destruct (xsf_find fuel x m L k HI Hfuel) as (hd & preds & Hhd & _ & Hrun & Hlen & Hlook).
  destruct (xinv_shape _ _ _ HI) as (hd' & Hhd' & Hsh).
  assert (hd' = hd) as -> by congruence.
  destruct (xsf_candidate m hd _ L k Hsh) as (Hc1 & Hc2 & Hc3).
  unfold xsf_search_element. rewrite (traverse_levels_collect _ _ _ _ _ _ _ Hrun).
  rewrite (vec_get_Done _ _ _ (Hlook 0 ltac:(lia))). simpl. rewrite Hc1. simpl.
  rewrite Hc2. simpl. destruct (entry_of k L) as [e|] eqn:He.
  - rewrite bool_decide_eq_true_2 by by eexists. rewrite Hc3 by by eexists. simpl.
    apply entry_of_elem in He as [He _].
    destruct (load_node_hd _ _ _ _ _ (sh_nodes _ _ _ _ Hsh e He)) as (nd & -> & _ & Hv & _).
    simpl. by rewrite Hv.
  - by rewrite bool_decide_eq_false_2 by by intros [? ?].
Qed.

Lemma xsf_insert_existing fuel x m r L k v e :
  XInv x m L → length L < fuel → entry_of k L = Some e →
  ∃ nd, cells m !! e_addr e = Some nd ∧
        xsf_insert_element fuel k v x m r
        = Done (1%Z, x, store m (e_addr e) (mkNode k v (forward_ nd)), r) ∧
        XInv x (store m (e_addr e) (mkNode k v (forward_ nd))) (set_val k v L).
Proof.
  intros HI Hfuel He.
  destruct (xsf_find fuel x m L k HI Hfuel) as (hd & preds & Hhd & Hupd & Hrun & Hlen & Hlook).
  destruct (xinv_shape _ _ _ HI) as (hd' & Hhd' & Hsh).
  assert (hd' = hd) as -> by congruence.
  destruct (xsf_candidate m hd _ L k Hsh) as (Hc1 & Hc2 & Hc3).
  pose proof He as [HeL Hk]%entry_of_elem.
  pose proof (sh_nodes _ _ _ _ Hsh e HeL) as Hn. rewrite Hk in Hn.
  destruct (update_existing_node_spec m (e_addr e) _ _ _ v Hn)
    as (m' & Hset & Hnext & Hfwd & Hnode).
  unfold node_hd in Hn. destruct (cells m !! e_addr e) as [nd|] eqn:Hc; [|done].
  injection Hn as Hk' _ Hl.
  assert (m' = store m (e_addr e) (mkNode k v (forward_ nd))) as ->.
  { unfold update_existing_node, load in Hset. rewrite Hc in Hset. simpl in Hset.
    rewrite Hk' in Hset. by injection Hset as <-. }
  exists nd. split; [done|]. split.
  - unfold xsf_insert_element. rewrite Hupd. simpl.
    rewrite (xsf_descend_collect _ _ _ _ _ _ _ Hrun).
    rewrite (vec_get_Done _ _ _ (Hlook 0 ltac:(lia))). simpl. rewrite Hc1. simpl.
    rewrite Hc2, He. rewrite bool_decide_eq_true_2 by by eexists.
    rewrite Hc3 by by eexists. rewrite He. simpl.
    change (set_value m (Some (e_addr e)) v) with (update_existing_node m (Some (e_addr e)) v).
    by rewrite Hset.
  - destruct HI. constructor; try done.
    + intros e' (e0 & He0 & _ & _ & -> & _)%set_val_elem. by apply xinv_lvl0.
    + by rewrite set_val_length.
    + exists hd. split; [done|]. by eapply shape_set_val.
Qed.

Lemma xsf_create_node_eq k v lv m :
  (Z.of_nat lv < INT_MAX)%Z → xsf_create_node k v lv m = create_node k v lv m.
Proof.
  intros Hlv. unfold xsf_create_node, xsf_new_node, create_node.
  destruct (Z.leb_spec INT_MAX (Z.of_nat lv)); [lia|].
  destruct (Z.ltb_spec (Z.of_nat lv + 1) 0); [lia|]. f_equal. lia.
Qed.

Lemma xsf_insert_new fuel x m r L k v :
  XInv x m L →
  (Z.of_nat (length L) + xsf_max_level_ x + 2 ≤ Z.of_nat fuel)%Z →
  entry_of k L = None →
  let M := Z.to_nat (xsf_max_level_ x) in
  let lv := fst (level_of xsf_flip M r) in
  let x' := mkXSF (xsf_max_level_ x) (xsf_skip_list_level_ x `max` lv) (xsf_header_ x)
                  (xsf_element_count_ x + 1) in
  ((next_free m < addr_limit)%N → (xsf_element_count_ x < INT_MAX)%Z →
   ∃ m', xsf_insert_element fuel k v x m r
         = Done (0%Z, x', m', snd (level_of xsf_flip M r)) ∧
         next_free m' = (next_free m + 1)%N ∧
         XInv x' m' (insert_entry (mkEntry (next_free m) k v lv) L)) ∧
  (¬ ((next_free m < addr_limit)%N ∧ (xsf_element_count_ x < INT_MAX)%Z) →
   ∀ res, xsf_insert_element fuel k v x m r ≠ Done res).
Proof.
  intros HI Hfuel Hnone M lv x'.
  pose proof (xinv_max _ _ _ HI) as Hmax. pose proof (xinv_level _ _ _ HI) as Hlevel.
  destruct (xsf_find fuel x m L k HI ltac:(lia))
    as (hd & preds & Hhd & Hupd & Hrun & Hlen & Hlook).
  destruct (xinv_shape _ _ _ HI) as (hd' & Hhd' & Hsh).
  assert (hd' = hd) as -> by congruence.
  destruct (xsf_candidate m hd _ L k Hsh) as (Hc1 & Hc2 & _).
  assert (lv ≤ M) as HlvM by apply level_of_le.
  unfold xsf_insert_element. rewrite Hupd. simpl.
  rewrite (xsf_descend_collect _ _ _ _ _ _ _ Hrun).
  rewrite (vec_get_Done _ _ _ (Hlook 0 ltac:(lia))). simpl. rewrite Hc1. simpl.
  rewrite Hc2, Hnone. rewrite bool_decide_eq_false_2 by by intros [? ?].
  unfold xsf_get_random_level.
  rewrite (xsf_get_random_level_loop_spec M) by (unfold M; lia).
  simpl. fold M. fold lv.
  assert (∃ preds',
    (if xsf_skip_list_level_ x <? lv then
       do update' <- for_up int_succ fuel (xsf_skip_list_level_ x + 1) lv
                       (fun i u => vec_set u i (xsf_header_ x)) preds;
       Done (update', mkXSF (xsf_max_level_ x) lv (xsf_header_ x) (xsf_element_count_ x))
     else Done (preds, x))
    = Done (preds', mkXSF (xsf_max_level_ x) (xsf_skip_list_level_ x `max` lv)
                          (xsf_header_ x) (xsf_element_count_ x)) ∧
    ∀ j, j ≤ lv → preds' !! j = Some (Some (pred_at hd j k L))) as (preds' & -> & Hlook').
  { destruct (Nat.ltb_spec (xsf_skip_list_level_ x) lv) as [Hlt|Hge].
    - destruct (raise_loop_spec int_succ fuel (xsf_skip_list_level_ x) lv preds (xsf_header_ x))
        as (preds' & -> & _ & Hl'); try lia.
      { intros i Hi. apply (int_succ_small lv); [lia|done]. }
      simpl. exists preds'. split; [do 3 f_equal; lia|].
      intros j Hj. rewrite Hl'.
      destruct (decide (xsf_skip_list_level_ x < j ∧ j ≤ lv)) as [[Hc _]|Hc].
      + by rewrite Hhd, (pred_at_above hd L k _ j (xinv_lvl _ _ _ HI) Hc).
      + apply Hlook. lia.
    - exists preds. split; [destruct x; simpl in *; do 3 f_equal; lia|].
      intros j Hj. apply Hlook. lia. }
  simpl. rewrite xsf_create_node_eq by lia.
  destruct (decide (next_free m < addr_limit)%N) as [Hlim|Hlim].
  2:{ rewrite create_node_BadAlloc by done. simpl. split; [done|]. by intros _ res. }
  destruct (create_node_spec k v lv m Hlim) as (m1 & -> & Hn1 & Hf1 & Hnode1). simpl.
  assert (∀ i, i ≤ lv → int_succ i = Done (i + 1)) as Hsucc.
  { intros i Hi. apply (int_succ_small lv); [lia|done]. }
  destruct (splice_loop_spec int_succ fuel m m1 hd M L k v lv preds'
              Hsh HlvM Hsucc ltac:(lia) Hn1 Hf1 Hlook')
    as (m2 & -> & Hn2 & Hnode2 & Hlink2).
  simpl. unfold int_incr.
  destruct (Z.leb_spec (xsf_element_count_ x + 1) INT_MAX) as [Hcnt|Hcnt]; simpl.
  2:{ split; [intros; lia|]. by intros _ res. }
  split; [|intros Hn; exfalso; apply Hn; split; [done|lia]].
  intros _ _. exists m2. split; [done|]. split; [congruence|].
  constructor; simpl; try done; try lia.
  - intros e [->|He]%insert_entry_elem; [| |apply (sh_sorted _ _ _ _ Hsh)]; simpl; [lia|].
    pose proof (xinv_lvl _ _ _ HI e He). lia.
  - rewrite insert_entry_length by apply (sh_sorted _ _ _ _ Hsh).
    rewrite (xinv_count _ _ _ HI). lia.
  - exists hd. split; [done|]. apply shape_insert; try done; [congruence|].
    intros a'. by rewrite Hnode2, Hnode1.
Qed.

Lemma xsf_delete_absent fuel x m L k :
  XInv x m L → length L < fuel → entry_of k L = None →
  xsf_delete_element fuel k x m = Done (x, m).
Proof.
  intros HI Hfuel Hnone.
  destruct (xsf_find fuel x m L k HI Hfuel) as (hd & preds & Hhd & Hupd & Hrun & Hlen & Hlook).
  destruct (xinv_shape _ _ _ HI) as (hd' & Hhd' & Hsh).
  assert (hd' = hd) as -> by congruence.
  destruct (xsf_candidate m hd _ L k Hsh) as (Hc1 & Hc2 & _).
  unfold xsf_delete_element. rewrite Hupd. simpl.
  rewrite (xsf_descend_collect _ _ _ _ _ _ _ Hrun).
  rewrite (vec_get_Done _ _ _ (Hlook 0 ltac:(lia))). simpl. rewrite Hc1. simpl.
  rewrite Hc2, Hnone. by rewrite bool_decide_eq_false_2 by by intros [? ?].
Qed.

Lemma xsf_delete_present fuel x m L k e :
  XInv x m L →
  (Z.of_nat (length L) + xsf_max_level_ x + 2 ≤ Z.of_nat fuel)%Z →
  entry_of k L = Some e →
  ∃ hd c' m',
    xsf_header_ x = Some hd ∧
    xsf_delete_element fuel k x m
    = Done (mkXSF (xsf_max_level_ x) c' (xsf_header_ x) (xsf_element_count_ x - 1), m') ∧
    XInv (mkXSF (xsf_max_level_ x) c' (xsf_header_ x) (xsf_element_count_ x - 1))
         m' (remove_key k L) ∧
    c' ≤ xsf_skip_list_level_ x ∧
    (∀ j, c' < j → j ≤ xsf_skip_list_level_ x → fwd_at m' hd j = Some None) ∧
    (c' = 0 ∨ ∃ a, fwd_at m' hd c' = Some (Some a)).
Proof.
  intros HI Hfuel He.
  pose proof (xinv_max _ _ _ HI) as Hmax. pose proof (xinv_level _ _ _ HI) as Hlevel.
  destruct (xsf_find fuel x m L k HI ltac:(lia))
    as (hd & preds & Hhd & Hupd & Hrun & Hlen & Hlook).
  destruct (xinv_shape _ _ _ HI) as (hd' & Hhd' & Hsh).
  assert (hd' = hd) as -> by congruence.
  destruct (xsf_candidate m hd _ L k Hsh) as (Hc1 & Hc2 & Hc3).
  pose proof (sh_sorted _ _ _ _ Hsh) as Hs.
  pose proof He as [HeL Hk]%entry_of_elem.
  destruct (remove_key_split k L e Hs He) as (R & Hfrom & HL' & HR).
  unfold xsf_delete_element. rewrite Hupd. simpl.
  rewrite (xsf_descend_collect _ _ _ _ _ _ _ Hrun).
  rewrite (vec_get_Done _ _ _ (Hlook 0 ltac:(lia))). simpl. rewrite Hc1. simpl.
  rewrite Hc2, He. rewrite bool_decide_eq_true_2 by by eexists.
  rewrite Hc3 by by eexists. rewrite He. simpl.
  assert (∀ i, i ≤ xsf_skip_list_level_ x → int_succ i = Done (i + 1)) as Hsucc.
  { intros i Hi. apply (int_succ_small (xsf_skip_list_level_ x)); [lia|done]. }
  destruct (unlink_loop_spec int_succ fuel m hd (Z.to_nat (xsf_max_level_ x))
              (xsf_skip_list_level_ x) L k e R preds Hsh ltac:(lia) Hsucc
              (xinv_lvl _ _ _ HI) Hfrom ltac:(lia) Hlook)
    as (m1 & -> & Hn1 & Hnode1 & Hl1).
  simpl. rewrite <- HL' in Hl1. rewrite Hhd.
  destruct (adjust_max_level_loop_spec m1 hd (xsf_skip_list_level_ x) fuel)
    as (c' & -> & Hc' & Hnull & Hend); [|lia|].
  { intros j Hj. rewrite (linked_head _ _ _ _ (Hl1 j ltac:(lia))). by eexists. }
  simpl. destruct (delete_ptr_spec m1 (e_addr e)) as (m2 & -> & Hn2 & Hf2 & Hnode2).
  { rewrite Hnode1, (sh_nodes _ _ _ _ Hsh e HeL). by eexists. }
  simpl. pose proof (sh_nodup _ _ _ _ Hsh) as Hnd.
  assert (∀ a, a ∈ hd :: (e_addr <$> remove_key k L) → a ≠ e_addr e) as Hne.
  { intros a Ha ->. apply NoDup_cons in Hnd as [Hhdn Hnd].
    apply elem_of_cons in Ha as [Ha|(e' & Heq & [Hk' He']%remove_key_elem)%list_elem_of_fmap].
    - apply Hhdn. rewrite <- Ha. apply list_elem_of_fmap. by exists e.
    - apply Hk'. rewrite <- Hk. f_equal. symmetry. by eapply (NoDup_fmap_eq e_addr). }
  assert (∀ j, j ≤ Z.to_nat (xsf_max_level_ x) →
               linked m2 j hd (e_addr <$> at_level j (remove_key k L))) as Hl2.
  { intros j Hj. eapply linked_ext; [|by apply Hl1]. intros a Ha. apply Hf2, Hne.
    apply elem_of_cons in Ha as [->|(e' & -> & He')%list_elem_of_fmap]; [by left|].
    right. apply list_elem_of_fmap. exists e'. split; [done|]. by eapply at_level_elem. }
  pose proof (remove_key_length k L e Hs He) as Hlen'.
  unfold int_decr, INT_MIN.
  destruct (Z.leb_spec (-2147483648) (xsf_element_count_ x - 1)) as [_|Hlt];
    [|rewrite (xinv_count _ _ _ HI) in Hlt; lia].
  simpl. exists hd, c', m2. split; [done|]. split; [done|].
  assert (hd ≠ e_addr e) as Hhe by (apply Hne; by left).
  split; [|split; [done|split]].
  - constructor; simpl; [done|lia| |rewrite (xinv_count _ _ _ HI); lia|].
    + intros e' He'. destruct (decide (e_lvl e' ≤ c')) as [|Hgt]; [done|]. exfalso.
      pose proof He' as [_ He'L]%remove_key_elem.
      pose proof (xinv_lvl _ _ _ HI e' He'L) as Hle.
      pose proof (Hl1 (e_lvl e') ltac:(lia)) as Hl. apply linked_head in Hl.
      rewrite Hnull in Hl by lia. injection Hl as Hl. symmetry in Hl.
      rewrite fmap_head in Hl. apply fmap_None, head_None in Hl.
      assert (e' ∈ at_level (e_lvl e') (remove_key k L)) as Hin
        by (apply list_elem_of_filter; split; [lia|done]).
      rewrite Hl in Hin. by apply elem_of_nil in Hin.
    + exists hd. split; [done|]. constructor.
      * destruct (sh_hdr _ _ _ _ Hsh) as (hk & hv & Hh). exists hk, hv.
        by rewrite Hnode2, Hnode1.
      * intros e' He'. rewrite Hnode2, Hnode1.
        -- apply (sh_nodes _ _ _ _ Hsh). by apply remove_key_elem in He' as [_ ?].
        -- apply Hne. right. apply list_elem_of_fmap. by exists e'.
      * done.
      * by apply increasing_filter.
      * eapply sublist_NoDup; [exact Hnd|].
        apply sublist_skip, sublist_fmap, sublist_filter.
      * rewrite Hn2, Hn1. destruct (sh_alloc _ _ _ _ Hsh) as [H1 H2]. split; [done|].
        intros e' [_ He']%remove_key_elem. by apply H2.
      * rewrite Hn2, Hn1. destruct (sh_space _ _ _ _ Hsh). split; [lia|done].
  - intros j Hj1 Hj2. rewrite Hf2 by done. by apply Hnull.
  - destruct Hend as [->|[a Ha]]; [by left|]. right. exists a. by rewrite Hf2.
Qed.

Lemma XSFSkipList_new_spec max_level m :
  (0 ≤ max_level < INT_MAX)%Z → (next_free m < addr_limit)%N →
  ∃ m', XSFSkipList_new max_level m = Done (mkXSF max_level 0 (Some (next_free m)) 0, m') ∧
        XInv (mkXSF max_level 0 (Some (next_free m)) 0) m' [].
Proof.
  intros Hmax Hlim. unfold XSFSkipList_new.
  pose proof (xsf_create_node_eq 0 default_value (Z.to_nat max_level) m ltac:(lia)) as Heq.
  unfold xsf_create_node in Heq. rewrite Z2Nat.id in Heq by lia. rewrite Heq.
  destruct (create_node_spec 0 default_value (Z.to_nat max_level) m Hlim)
    as (m' & -> & Hn & Hf & Hnode).
  simpl. exists m'. split; [done|].
  constructor; simpl; try done; try lia.
  - intros e He. by apply elem_of_nil in He.
  - eexists. split; [done|]. constructor; simpl.
    + exists 0%Z, default_value. by rewrite Hnode, decide_True.
    + intros e He. by apply elem_of_nil in He.
    + intros j Hj. rewrite Hf, decide_True by done. apply lookup_replicate_2. lia.
    + done.
    + apply NoDup_singleton.
    + split; [lia|]. intros e He. by apply elem_of_nil in He.
    + lia.
Qed.

(** * Frames: what an operation leaves alone *)

Lemma same_cell_refl m a : same_cell m m a.
Proof. by split. Qed.

Lemma same_cell_trans m1 m2 m3 a :
  same_cell m1 m2 a → same_cell m2 m3 a → same_cell m1 m3 a.
Proof.
  intros [H1 H2] [H3 H4]. split; [congruence|]. intros j. by rewrite H4, H2.
Qed.

Lemma writes_within_refl (T : addr → Prop) m : writes_within T m m.
Proof. split; [done|]. intros a _. apply same_cell_refl. Qed.

Lemma writes_within_trans (T : addr → Prop) m1 m2 m3 :
  writes_within T m1 m2 → writes_within T m2 m3 → writes_within T m1 m3.
Proof.
  intros [H1 H2] [H3 H4]. split; [congruence|].
  intros a Ha. eapply same_cell_trans; [by apply H2|by apply H4].
Qed.

Lemma store_writes (T : addr → Prop) m a nd :
  T a → writes_within T m (store m a nd).
Proof.
  intros Ha. split; [done|]. intros a' Ha'.
  assert (a ≠ a') by (intros ->; done).
  unfold same_cell, node_hd, fwd_at, store. simpl. by rewrite lookup_insert_ne.
Qed.

Lemma store_forward_writes (T : addr → Prop) m p i q m' :
  store_forward m p i q = Done m' → (∀ a, p = Some a → T a) → writes_within T m m'.
Proof.
  unfold store_forward, load, vec_set. destruct p as [a|]; [|done].
  destruct (cells m !! a) as [nd|]; simpl; [|done].
  destruct (i <? length (forward_ nd)); simpl; [|done].
  intros [= <-] HT. apply store_writes. by apply HT.
Qed.

Lemma update_existing_node_writes (T : addr → Prop) m p v m' :
  update_existing_node m p v = Done m' → (∀ a, p = Some a → T a) → writes_within T m m'.
Proof.
  unfold update_existing_node, load. destruct p as [a|]; [|done].
  destruct (cells m !! a) as [nd|]; simpl; [|done].
  intros [= <-] HT. apply store_writes. by apply HT.
Qed.

Lemma delete_ptr_writes (T : addr → Prop) m p m' :
  delete_ptr m p = Done m' → (∀ a, p = Some a → T a) → writes_within T m m'.
Proof.
  unfold delete_ptr, load. destruct p as [a|]; [|done].
  destruct (cells m !! a) as [nd|]; simpl; [|done].
  intros [= <-] HT. split; [done|]. intros a' Ha'.
  assert (a ≠ a') by (intros ->; by apply Ha', HT).
  unfold same_cell, node_hd, fwd_at. simpl. by rewrite lookup_delete_ne.
Qed.

Lemma create_node_inv k v lv m p m1 :
  create_node k v lv m = Done (p, m1) →
  p = Some (next_free m) ∧ next_free m1 = (next_free m + 1)%N ∧
  ∀ a, a ≠ next_free m → same_cell m m1 a.
Proof.
  unfold create_node, new_node. destruct (next_free m <? addr_limit)%N; [|done].
  intros [= <- <-]. split; [done|]. split; [done|]. intros a Ha.
  unfold same_cell, node_hd, fwd_at. simpl. by rewrite lookup_insert_ne.
Qed.

Lemma for_up_preserves {St : Type} (P : St → Prop) succ (body : nat → St → res St) :
  (∀ i s s', body i s = Done s' → P s → P s') →
  ∀ fuel lo hi s s', for_up succ fuel lo hi body s = Done s' → P s → P s'.
Proof.
  intros Hbody. induction fuel as [|fuel IH]; intros lo hi s s'; simpl; [done|].
  destruct (lo <=? hi); [|by intros [= <-]].
  destruct (body lo s) as [s1| | |] eqn:Hb; simpl; try done.
  destruct (succ lo) as [lo'| | |]; simpl; try done.
  intros Hrun HP. eapply IH; [exact Hrun|]. by eapply Hbody.
Qed.

Lemma vec_set_ptrs_in (T : addr → Prop) preds i q preds' :
  vec_set preds i q = Done preds' → ptrs_in T preds → (∀ a, q = Some a → T a) →
  ptrs_in T preds'.
Proof.
  intros [Hi ->]%vec_set_inv Hp Hq j p.
  destruct (decide (j = i)) as [->|Hne].
  - rewrite list_lookup_insert_eq by done. intros [= ->]. by apply Hq.
  - rewrite list_lookup_insert_ne by done. apply Hp.
Qed.

Lemma found_ptrs_in hd L k (preds : list (option addr)) c M :
  (∀ j, preds !! j =
        if decide (j ≤ c) then Some (Some (pred_at hd j k L))
        else if decide (j ≤ M) then Some None else None) →
  ptrs_in (owns (Some hd) L) preds.
Proof.
  intros Hlook j p. rewrite Hlook. destruct (decide (j ≤ c)).
  - intros [= <-]. destruct (pred_at_elem hd j k L) as [->|(e & He & ->)]; [by left|].
    right. apply list_elem_of_fmap. by exists e.
  - by destruct (decide (j ≤ M)).
Qed.

Lemma put_frame fuel s m L k v s' m' :
  Inv s m L → length L < fuel →
  put fuel k v s m = Done (s', m') →
  frame (owns (header_ s) L) m m'.
Proof.
  intros HI Hfuel Hput.
  destruct (find_predecessors_spec fuel s m L k HI Hfuel)
    as (hd & preds & Hhd & Hrun & Hlen & Hlook).
  destruct (inv_shape _ _ _ HI) as (hd' & Hhd' & Hsh).
  assert (hd' = hd) as -> by congruence.
  pose proof (found_ptrs_in _ _ _ _ _ _ Hlook) as Hptrs.
  unfold put in Hput. rewrite Hrun in Hput. simpl in Hput.
  rewrite (vec_get_Done _ _ (Some (pred_at hd 0 k L))) in Hput
    by (rewrite Hlook; by rewrite decide_True by lia).
  simpl in Hput. rewrite (get_node_at_level_zero_spec _ _ _ _ _ Hsh) in Hput.
  rewrite Hhd. destruct (entry_of k L) as [e|] eqn:He; simpl in Hput.
  - destruct (update_existing_node m (Some (e_addr e)) v) as [m1| | |] eqn:Hu;
      simpl in Hput; try done. injection Hput as <- <-.
    destruct (update_existing_node_writes (owns (Some hd) L) _ _ _ _ Hu) as [Hn Hw].
    { intros a [= <-]. right. apply list_elem_of_fmap. exists e. split; [done|].
      by apply entry_of_elem in He as [? _]. }
    split; [lia|]. intros a Ha _. by apply Hw.
  - unfold insert_new_node, generate_random_level in Hput.
    destruct (generate_random_level_loop fuel (max_level_ s) 0 (gen_ s)) as [[lv g]| | |];
      simpl in Hput; try done.
    destruct (adjust_max_level_for_insertion fuel lv preds _) as [[preds' s2]| | |] eqn:Ha;
      simpl in Hput; try done.
    destruct (create_node k v lv m) as [[nn m1]| | |] eqn:Hc; simpl in Hput; try done.
    destruct (insert_node_at_all_levels fuel nn preds' lv m1) as [m2| | |] eqn:Hi;
      simpl in Hput; try done.
    injection Hput as <- <-.
    apply create_node_inv in Hc as (-> & Hn1 & Hsame1).
    assert (ptrs_in (owns (Some hd) L) preds') as Hptrs'.
    { unfold adjust_max_level_for_insertion in Ha. simpl in Ha.
      destruct (current_max_level_ s <? lv); [|by injection Ha as <- _].
      destruct (for_up u8_succ fuel _ lv _ preds) as [p1| | |] eqn:Hraise;
        simpl in Ha; try done. injection Ha as <- _.
      eapply (for_up_preserves (ptrs_in (owns (Some hd) L))); [|exact Hraise|exact Hptrs].
      intros i p p' Hset Hp. cbv beta in Hset.
      eapply vec_set_ptrs_in; [exact Hset|exact Hp|].
      rewrite Hhd. intros a [= <-]. by left. }
    set (T := fun a => a = next_free m ∨ owns (Some hd) L a).
    assert (writes_within T m1 m2) as [Hn2 Hw2].
    { unfold insert_node_at_all_levels in Hi.
      eapply (for_up_preserves (writes_within T m1)); [|exact Hi|apply writes_within_refl].
      intros i mi mi' Hbody Hwi. cbv beta in Hbody.
      destruct (vec_get preds' i) as [p| | |] eqn:Hp; simpl in Hbody; try done.
      destruct (load_forward mi p i) as [nxt| | |]; simpl in Hbody; try done.
      destruct (store_forward mi (Some (next_free m)) i nxt) as [mj| | |] eqn:Hs1;
        simpl in Hbody; try done.
      eapply writes_within_trans; [exact Hwi|].
      eapply writes_within_trans.
      - eapply store_forward_writes; [exact Hs1|]. intros a [= <-]. by left.
      - eapply store_forward_writes; [exact Hbody|]. intros a ->. right.
        unfold vec_get in Hp. destruct (preds' !! i) as [q|] eqn:Hq; [|done].
        injection Hp as ->. by eapply Hptrs'. }
    split; [lia|]. intros a Ha' Hlt.
    eapply same_cell_trans; [apply Hsame1; lia|]. apply Hw2.
    intros [->|Hown]; [lia|done].
Qed.

Lemma remove_frame fuel s m L k b s' m' :
  Inv s m L → length L < fuel →
  remove fuel k s m = Done (b, s', m') →
  frame (owns (header_ s) L) m m'.
Proof.
  intros HI Hfuel Hrem.
  destruct (find_predecessors_spec fuel s m L k HI Hfuel)
    as (hd & preds & Hhd & Hrun & Hlen & Hlook).
  destruct (inv_shape _ _ _ HI) as (hd' & Hhd' & Hsh).
  assert (hd' = hd) as -> by congruence.
  pose proof (found_ptrs_in _ _ _ _ _ _ Hlook) as Hptrs.
  unfold remove in Hrem. rewrite Hrun in Hrem. simpl in Hrem.
  rewrite (vec_get_Done _ _ (Some (pred_at hd 0 k L))) in Hrem
    by (rewrite Hlook; by rewrite decide_True by lia).
  simpl in Hrem. rewrite (get_node_at_level_zero_spec _ _ _ _ _ Hsh) in Hrem.
  rewrite Hhd. destruct (entry_of k L) as [e|] eqn:He; simpl in Hrem.
  2:{ injection Hrem as <- <- <-. split; [lia|]. intros a _ _. apply same_cell_refl. }
  unfold delete_node in Hrem.
  destruct (disconnect_node_from_levels fuel (Some (e_addr e)) preds s m) as [m1| | |] eqn:Hd;
    simpl in Hrem; try done.
  destruct (delete_ptr m1 (Some (e_addr e))) as [m2| | |] eqn:Hdel; simpl in Hrem; try done.
  destruct (adjust_max_level fuel _ m2) as [s2| | |]; simpl in Hrem; try done.
  injection Hrem as <- <- <-.
  assert (owns (Some hd) L (e_addr e)) as Hown.
  { right. apply list_elem_of_fmap. exists e. split; [done|].
    by apply entry_of_elem in He as [? _]. }
  assert (writes_within (owns (Some hd) L) m m1) as Hw1.
  { unfold disconnect_node_from_levels in Hd.
    eapply (for_up_preserves (writes_within (owns (Some hd) L) m));
      [|exact Hd|apply writes_within_refl].
    intros i mi mi' Hbody Hwi. cbv beta in Hbody.
    eapply writes_within_trans; [exact Hwi|].
    destruct (vec_get preds i) as [p| | |] eqn:Hp; simpl in Hbody; try done.
    destruct (load_forward mi p i) as [nxt| | |]; simpl in Hbody; try done.
    destruct (bool_decide (nxt = Some (e_addr e)));
      [|injection Hbody as <-; apply writes_within_refl].
    destruct (load_forward mi (Some (e_addr e)) i) as [after| | |]; simpl in Hbody; try done.
    eapply store_forward_writes; [exact Hbody|]. intros a ->.
    unfold vec_get in Hp. destruct (preds !! i) as [q|] eqn:Hq; [|done].
    injection Hp as ->. by eapply Hptrs. }
  assert (writes_within (owns (Some hd) L) m1 m2) as Hw2.
  { eapply delete_ptr_writes; [exact Hdel|]. by intros a [= <-]. }
  destruct (writes_within_trans _ _ _ _ Hw1 Hw2) as [Hn Hw].
  split; [lia|]. intros a Ha _. by apply Hw.
Qed.

Lemma shape_frame m m' hd M L :
  shape m hd M L →
  (∀ a, a ∈ hd :: (e_addr <$> L) → same_cell m m' a) →
  (next_free m ≤ next_free m')%N → (next_free m' ≤ addr_limit)%N →
  shape m' hd M L.
Proof.
  intros Hsh Hsame Hle Hlim. constructor.
  - destruct (sh_hdr _ _ _ _ Hsh) as (hk & hv & Hh). exists hk, hv.
    destruct (Hsame hd ltac:(by left)) as [-> _]. done.
  - intros e He. destruct (Hsame (e_addr e)) as [-> _].
    + right. apply list_elem_of_fmap. by exists e.
    + by apply (sh_nodes _ _ _ _ Hsh).
  - intros j Hj. eapply linked_ext; [|by apply (sh_linked _ _ _ _ Hsh)].
    intros a Ha. apply Hsame.
    apply elem_of_cons in Ha as [->|(e & -> & He)%list_elem_of_fmap]; [by left|].
    right. apply list_elem_of_fmap. exists e. split; [done|]. by eapply at_level_elem.
  - apply (sh_sorted _ _ _ _ Hsh).
  - apply (sh_nodup _ _ _ _ Hsh).
  - destruct (sh_alloc _ _ _ _ Hsh) as [H1 H2]. split; [lia|].
    intros e He. specialize (H2 e He). lia.
  - destruct (sh_space _ _ _ _ Hsh). split; [lia|done].
Qed.

(** A list whose cells an operation on another list has left alone still
    represents what it represented. *)
Lemma Inv_frame s m m' L (own : addr → Prop) :
  Inv s m L → frame own m m' →
  (∀ a, owns (header_ s) L a → ¬ own a) →
  (next_free m' ≤ addr_limit)%N →
  Inv s m' L.
Proof.
  intros HI [Hle Hfr] Hdisj Hlim. destruct HI as [? ? ? ? ? (hd & Hhd & Hsh) ?].
  constructor; try done. exists hd. split; [done|].
  eapply shape_frame; try done. intros a Ha.
  destruct (sh_alloc _ _ _ _ Hsh) as [H1 H2]. apply Hfr.
  - apply Hdisj. rewrite Hhd. apply elem_of_cons in Ha as [->|Ha]; [by left|by right].
  - apply elem_of_cons in Ha as [->|(e & -> & He)%list_elem_of_fmap]; [done|by apply H2].
Qed.

(** * The operations in terms of the view *)

Lemma view_filter (P' : item → Prop) (P : entry → Prop)
    `{∀ t, Decision (P' t)} `{∀ e, Decision (P e)} (L : list entry) :
  (∀ e, P' (e_key e, e_val e, e_lvl e) ↔ P e) →
  filter P' (view L) = view (filter P L).
Proof. intros HP. unfold view. apply filter_fmap_on. intros e _. apply HP. Qed.

Lemma a_find_view k L :
  a_find k (view L) = (fun e => (e_key e, e_val e, e_lvl e)) <$> entry_of k L.
Proof.
  unfold a_find, entry_of.
  rewrite (view_filter _ (fun e => e_key e = k)) by done. unfold view. apply fmap_head.
Qed.

Lemma view_set_val k v L :
  view (set_val k v L)
  = (fun t : item => if decide (t.1.1 = k) then (k, v, t.2) else t) <$> view L.
Proof.
  unfold view, set_val. rewrite <- !list_fmap_compose. apply list_fmap_ext.
  intros _ e _. simpl. by destruct (decide (e_key e = k)).
Qed.

Lemma view_insert_entry e L :
  view (insert_entry e L)
  = filter (fun t : item => (t.1.1 < e_key e)%Z) (view L)
    ++ (e_key e, e_val e, e_lvl e)
    :: filter (fun t : item => (e_key e ≤ t.1.1)%Z) (view L).
Proof.
  rewrite (view_filter _ (fun e' => (e_key e' < e_key e)%Z)) by done.
  rewrite (view_filter _ (fun e' => (e_key e ≤ e_key e')%Z)) by done.
  unfold insert_entry, view. by rewrite fmap_app, fmap_cons.
Qed.

Lemma view_remove_key k L :
  view (remove_key k L) = filter (fun t : item => t.1.1 ≠ k) (view L).
Proof. by rewrite (view_filter _ (fun e => e_key e ≠ k)). Qed.

Lemma view_lvl L : (fun t : item => t.2) <$> view L = e_lvl <$> L.
Proof. unfold view. by rewrite <- list_fmap_compose. Qed.

Lemma remove_cases fuel s m L k b s' m' :
  Inv s m L → length L + 256 ≤ fuel →
  remove fuel k s m = Done (b, s', m') →
  (∃ e, entry_of k L = Some e ∧ b = true ∧
        s' = mkSkipList (max_level_ s) (max_list (e_lvl <$> remove_key k L)) (header_ s)
                        (element_count_ s - 1) (gen_ s) ∧
        Inv s' m' (remove_key k L)) ∨
  (entry_of k L = None ∧ b = false ∧ s' = s ∧ m' = m).
Proof.
  intros HI Hfuel Hrem. destruct (entry_of k L) as [e|] eqn:He.
  - left. destruct (remove_present fuel s m L k e HI Hfuel He)
      as (hd & c' & m1 & _ & Hrun & HI' & _).
    rewrite Hrun in Hrem. injection Hrem as <- <- <-.
    pose proof (inv_top _ _ _ HI') as Htop. simpl in Htop. subst c'. by exists e.
  - right. rewrite (remove_absent fuel s m L k HI ltac:(lia) He) in Hrem.
    by injection Hrem as <- <- <-.
Qed.

(** Every call answers what the view says, leaves a represented list whose
    view is the one predicted, and writes only to cells the list owns or has
    just allocated. *)
Lemma run_op_sound fuel o s m L a s' m' :
  Inv s m L → length L + 256 ≤ fuel →
  run_op fuel o s m = Done (a, s', m') →
  ∃ L', Inv s' m' L' ∧
        abs_op o (abs s L) = (a, abs s' L') ∧
        length L' ≤ length L + 1 ∧
        frame (owns (header_ s) L) m m' ∧
        (∀ x, owns (header_ s') L' x → owns (header_ s) L x ∨ (next_free m ≤ x)%N).
Proof.
  intros HI Hfuel Hrun.
  destruct (inv_shape _ _ _ HI) as (hd & Hhd & Hsh). pose proof (sh_sorted _ _ _ _ Hsh) as Hs.
  assert (frame (owns (header_ s) L) m m) as Hrefl.
  { split; [lia|]. intros x _ _. apply same_cell_refl. }
  destruct o as [k v|k|k|k| |]; simpl in Hrun.
  - destruct (put fuel k v s m) as [[s1 m1]| | |] eqn:Hput; simpl in Hrun; try done.
    injection Hrun as <- <- <-.
    assert (length L < fuel) as Hfuel' by lia.
    pose proof (put_frame _ _ _ _ _ _ _ _ HI Hfuel' Hput) as Hfr.
    destruct (put_cases _ _ _ _ _ _ _ _ HI Hfuel Hput)
      as [(e & He & -> & _ & HI')|(Hnone & _ & _ & -> & HI')].
    + exists (set_val k v L). split; [done|]. split; [|split; [rewrite set_val_length; lia|]].
      * unfold abs_op, abs. simpl. rewrite a_find_view, He. simpl.
        by rewrite view_set_val.
      * split; [done|]. intros x [Hx|Hx]; left; [by left|right].
        by rewrite <- (set_val_addr k v).
    + eexists. split; [exact HI'|]. split; [|split; [by rewrite insert_entry_length|]].
      * unfold abs_op, abs. simpl. rewrite a_find_view, Hnone. simpl.
        by rewrite view_insert_entry.
      * split; [done|]. simpl. intros x [Hx|Hx]; [left; by left|].
        apply list_elem_of_fmap in Hx as (e' & -> & [->|He']%insert_entry_elem); [| |done].
        -- right. simpl. lia.
        -- left. right. apply list_elem_of_fmap. by exists e'.
  - rewrite (get_spec fuel s m L k HI) in Hrun by lia. simpl in Hrun.
    injection Hrun as <- <- <-. exists L. split; [done|]. split; [|split; [lia|split; [exact Hrefl|by left]]].
    unfold abs_op, abs. simpl. rewrite a_find_view. by destruct (entry_of k L).
  - rewrite (contains_spec fuel s m L k HI) in Hrun by lia. simpl in Hrun.
    injection Hrun as <- <- <-. exists L. split; [done|]. split; [|split; [lia|split; [exact Hrefl|by left]]].
    unfold abs_op, abs. simpl. rewrite a_find_view. do 2 f_equal. apply bool_decide_ext.
    destruct (entry_of k L); simpl; split; intros [? ?]; try done; by eexists.
  - destruct (remove fuel k s m) as [[[b1 s1] m1]| | |] eqn:Hrem; simpl in Hrun; try done.
    injection Hrun as <- <- <-.
    assert (length L < fuel) as Hfuel' by lia.
    pose proof (remove_frame _ _ _ _ _ _ _ _ HI Hfuel' Hrem) as Hfr.
    destruct (remove_cases _ _ _ _ _ _ _ _ HI Hfuel Hrem)
      as [(e & He & -> & -> & HI')|(Hnone & -> & -> & ->)].
    + exists (remove_key k L). split; [done|]. split; [|split].
      * unfold abs_op, abs. simpl. rewrite a_find_view, He. simpl.
        by rewrite <- view_remove_key, view_lvl.
      * pose proof (remove_key_length k L e Hs He). lia.
      * split; [done|]. simpl. intros x [Hx|Hx]; left; [by left|right].
        apply list_elem_of_fmap in Hx as (e' & -> & [_ He']%remove_key_elem).
        apply list_elem_of_fmap. by exists e'.
    + exists L. split; [done|]. split; [|split; [lia|split; [exact Hrefl|by left]]].
      unfold abs_op, abs. simpl. by rewrite a_find_view, Hnone.
  - injection Hrun as <- <- <-. exists L. split; [done|]. split; [done|]. split; [lia|].
    split; [exact Hrefl|by left].
  - injection Hrun as <- <- <-. exists L. split; [done|]. split; [done|]. split; [lia|].
    split; [exact Hrefl|by left].
Qed.

Lemma run_ops_sound fuel : ∀ os s m L answers s' m',
  Inv s m L → length L + length os + 256 ≤ fuel →
  run_ops fuel os s m = Done (answers, s', m') →
  ∃ L', Inv s' m' L' ∧
        abs_ops os (abs s L) = (answers, abs s' L') ∧
        frame (owns (header_ s) L) m m' ∧
        (∀ x, owns (header_ s') L' x → owns (header_ s) L x ∨ (next_free m ≤ x)%N).
Proof.
  induction os as [|o os IH]; intros s m L answers s' m' HI Hfuel Hrun; simpl in *.
  - injection Hrun as <- <- <-. exists L. split; [done|]. split; [done|]. split; [|by left].
    split; [lia|]. intros x _ _. apply same_cell_refl.
  - destruct (run_op fuel o s m) as [[[a s1] m1]| | |] eqn:Hop; simpl in Hrun; try done.
    destruct (run_ops fuel os s1 m1) as [[[answers' s2] m2]| | |] eqn:Hrest;
      simpl in Hrun; try done.
    injection Hrun as <- <- <-.
    assert (length L + 256 ≤ fuel) as Hfuel1 by lia.
    destruct (run_op_sound _ _ _ _ _ _ _ _ HI Hfuel1 Hop)
      as (L1 & HI1 & Habs1 & Hlen1 & [Hle1 Hfr1] & Hown1).
    assert (length L1 + length os + 256 ≤ fuel) as Hfuel2 by lia.
    destruct (IH _ _ _ _ _ _ HI1 Hfuel2 Hrest) as (L2 & HI2 & Habs2 & [Hle2 Hfr2] & Hown2).
    exists L2. split; [done|]. split; [by rewrite Habs1, Habs2|]. split; [split; [lia|]|].
    + intros x Hx Hlt. eapply same_cell_trans; [by apply Hfr1|]. apply Hfr2; [|lia].
      intros Hx1. destruct (Hown1 x Hx1); [done|lia].
    + intros x Hx2. destruct (Hown2 x Hx2) as [Hx1|?]; [|right; lia].
      destruct (Hown1 x Hx1); [by left|by right].
Qed.

Lemma SkipList_new_inv max_level seed m s m' :
  SkipList_new max_level seed m = Done (s, m') →
  s = mkSkipList (u8 max_level) 0 (Some (next_free m)) 0 seed ∧
  Inv s m' [] ∧
  next_free m' = (next_free m + 1)%N ∧
  ∀ a, a ≠ next_free m → same_cell m m' a.
Proof.
  intros Hnew. destruct (decide (next_free m < addr_limit)%N) as [Hlim|Hlim].
  - destruct (SkipList_new_spec max_level seed m Hlim) as (m1 & Hrun & HI).
    rewrite Hrun in Hnew. injection Hnew as <- <-. split; [done|]. split; [done|].
    unfold SkipList_new, create_header_node in Hrun.
    destruct (create_node 0 default_value (u8 max_level) m) as [[p m2]| | |] eqn:Hc;
      simpl in Hrun; try done.
    injection Hrun as _ <-. by apply create_node_inv in Hc as (_ & ? & ?).
  - unfold SkipList_new, create_header_node in Hnew.
    by rewrite create_node_BadAlloc in Hnew.
Qed.

(** ** What a returning [insert_element] has done *)

Lemma xsf_insert_cases fuel x m r L k v ret x' m' r' :
  XInv x m L →
  (Z.of_nat (length L) + xsf_max_level_ x + 2 ≤ Z.of_nat fuel)%Z →
  xsf_insert_element fuel k v x m r = Done (ret, x', m', r') →
  (∃ e nd, entry_of k L = Some e ∧ ret = 1%Z ∧ x' = x ∧ r' = r ∧
           cells m !! e_addr e = Some nd ∧
           m' = store m (e_addr e) (mkNode k v (forward_ nd)) ∧
           XInv x m' (set_val k v L)) ∨
  (entry_of k L = None ∧ ret = 0%Z ∧
   next_free m' = (next_free m + 1)%N ∧
   xsf_element_count_ x' = (xsf_element_count_ x + 1)%Z ∧
   ∃ lv, XInv x' m' (insert_entry (mkEntry (next_free m) k v lv) L)).
Proof.
  intros HI Hfuel Hrun. pose proof (xinv_max _ _ _ HI) as Hmax.
  destruct (entry_of k L) as [e|] eqn:He.
  - left. destruct (xsf_insert_existing fuel x m r L k v e HI ltac:(lia) He)
      as (nd & Hc & Hrun' & HI').
    rewrite Hrun' in Hrun. injection Hrun as <- <- <- <-. by exists e, nd.
  - right. destruct (xsf_insert_new fuel x m r L k v HI Hfuel He) as [Hok Hbad].
    destruct (decide ((next_free m < addr_limit)%N ∧ (xsf_element_count_ x < INT_MAX)%Z))
      as [[Hlim Hcount]|Hn]; [|exfalso; by eapply (Hbad Hn)].
    destruct (Hok Hlim Hcount) as (m1 & Hrun' & Hnext & HI').
    rewrite Hrun' in Hrun. injection Hrun as <- <- <- <-.
    split; [done|]. split; [done|]. split; [done|]. split; [done|]. by eexists.
Qed.

Lemma xsf_insert_then_search fuel x m r L k v ret x' m' r' :
  XInv x m L →
  (Z.of_nat (length L) + xsf_max_level_ x + 2 ≤ Z.of_nat fuel)%Z →
  xsf_insert_element fuel k v x m r = Done (ret, x', m', r') →
  xsf_search_element fuel k x' m' = Done (Some v).
Proof.
  intros HI Hfuel Hrun.
  destruct (xinv_shape _ _ _ HI) as (hd & _ & Hsh). pose proof (sh_sorted _ _ _ _ Hsh) as Hs.
  pose proof (xinv_max _ _ _ HI) as Hmax.
  destruct (xsf_insert_cases _ _ _ _ _ _ _ _ _ _ _ HI Hfuel Hrun)
    as [(e & nd & He & _ & -> & _ & _ & -> & HI')|(Hnone & _ & _ & _ & lv & HI')].
  - rewrite (xsf_search_element_spec fuel x _ _ k HI') by (rewrite set_val_length; lia).
    by rewrite (entry_of_set_val_same k v L e Hs He).
  - rewrite (xsf_search_element_spec fuel _ _ _ k HI')
      by (rewrite insert_entry_length by done; lia).
    destruct (xinv_shape _ _ _ HI') as (hd' & _ & Hsh').
    replace (entry_of k (insert_entry (mkEntry (next_free m) k v lv) L))
      with (Some (mkEntry (next_free m) k v lv)); [done|].
    symmetry. apply (entry_of_intro (insert_entry (mkEntry (next_free m) k v lv) L)
                       (mkEntry (next_free m) k v lv)).
    + apply (sh_sorted _ _ _ _ Hsh').
    + apply insert_entry_elem; [done|by left].
Qed.

(** A header pointer that is not [nullptr] at level [c] leads to an element
    of level at least [c]. *)
Lemma header_pointer_entry m hd M L c a :
  shape m hd M L → c ≤ M → fwd_at m hd c = Some (Some a) →
  ∃ e, e ∈ L ∧ c ≤ e_lvl e.
Proof.
  intros Hsh Hc Hx.
  pose proof (sh_linked _ _ _ _ Hsh c Hc) as Hl.
  apply linked_head in Hl. rewrite Hx, fmap_head in Hl. injection Hl as Hl.
  destruct (head (at_level c L)) as [e|] eqn:Hhead; [|done].
  apply head_Some in Hhead as [l Hhead].
  assert (e ∈ at_level c L) as Hin by (rewrite Hhead; by left).
  apply list_elem_of_filter in Hin as [Hlv Hin]. by exists e.
Qed.

(** * The claims *)

(** C1. Round trip, for both lists.  [SkipList]: whenever [put k v] returns,
    [get k] on the resulting list returns [v] and [contains k] returns true;
    [put] does return when the key is present, or when the level drawn for
    the new node is below 255 and [new] succeeds.  In general [get k] returns
    the value stored under [k] when the list has an element with key [k], and
    the empty result when it has none.  [XSFSkipList]: after a returning
    [insert_element k v], [search_element k] finds [v]; in general it finds
    the stored value of a present key and nothing for an absent one. *)
Theorem C1_put_get_round_trip fuel s m L x mx r LX k v :
  Inv s m L → length L + 256 ≤ fuel →
  XInv x mx LX → (Z.of_nat (length LX) + xsf_max_level_ x + 2 ≤ Z.of_nat fuel)%Z →
  ((∀ s' m', put fuel k v s m = Done (s', m') →
             get fuel k s' m' = Done (Some v) ∧ contains fuel k s' m' = Done true) ∧
   ((∃ e, e ∈ L ∧ e_key e = k) ∨
    (fst (level_of flip (max_level_ s) (gen_ s)) < 255 ∧ (next_free m < addr_limit)%N) →
    ∃ s' m', put fuel k v s m = Done (s', m')) ∧
   (∀ e, e ∈ L → e_key e = k →
         get fuel k s m = Done (Some (e_val e)) ∧ contains fuel k s m = Done true) ∧
   ((∀ e, e ∈ L → e_key e ≠ k) →
    get fuel k s m = Done None ∧ contains fuel k s m = Done false)) ∧
  ((∀ ret x' mx' r', xsf_insert_element fuel k v x mx r = Done (ret, x', mx', r') →
                     xsf_search_element fuel k x' mx' = Done (Some v)) ∧
   (∀ e, e ∈ LX → e_key e = k → xsf_search_element fuel k x mx = Done (Some (e_val e))) ∧
   ((∀ e, e ∈ LX → e_key e ≠ k) → xsf_search_element fuel k x mx = Done None)).
Proof.
  intros HI Hfuel HXI HXfuel.
  destruct (inv_shape _ _ _ HI) as (hd & _ & Hsh). pose proof (sh_sorted _ _ _ _ Hsh) as Hs.
  destruct (xinv_shape _ _ _ HXI) as (hdx & _ & Hshx).
  pose proof (sh_sorted _ _ _ _ Hshx) as Hsx. pose proof (xinv_max _ _ _ HXI) as Hmax.
  split; [split; [|split; [|split]]|split; [|split]].
  - intros s' m' H.
    destruct (put_cases_length _ _ _ _ _ _ _ _ HI Hfuel H)
      as (L' & HI' & Hlen & (e' & He' & Hv) & _).
    rewrite (get_spec fuel s' m' L' k HI') by lia.
    rewrite (contains_spec fuel s' m' L' k HI') by lia. rewrite He', <- Hv.
    split; [done|]. f_equal; try (apply bool_decide_eq_true_2; by eexists).
  - intros [(e & He & Hk)|[Hlv Hlim]].
    + destruct (put_existing fuel s m L k v e HI ltac:(lia)) as (m' & Hrun & _).
      { rewrite <- Hk. by apply entry_of_intro. }
      by exists s, m'.
    + destruct (entry_of k L) as [e|] eqn:He.
      * destruct (put_existing fuel s m L k v e HI ltac:(lia) He) as (m' & Hrun & _).
        by exists s, m'.
      * destruct (put_new fuel s m L k v HI Hfuel He) as [Hok _].
        destruct (Hok Hlv Hlim) as (m' & Hrun & _). eauto.
  - intros e He Hk.
    rewrite (get_spec fuel s m L k HI) by lia.
    rewrite (contains_spec fuel s m L k HI) by lia. subst k.
    rewrite entry_of_intro by done. split; [done|].
    f_equal; try (apply bool_decide_eq_true_2; by eexists).
  - intros H.
    rewrite (get_spec fuel s m L k HI) by lia.
    rewrite (contains_spec fuel s m L k HI) by lia. apply entry_of_None in H. rewrite H.
    split; [done|]. f_equal; try (apply bool_decide_eq_false_2; by intros [? ?]).
  - intros ret x' mx' r' Hrun. by eapply xsf_insert_then_search.
  - intros e He Hk. rewrite (xsf_search_element_spec fuel x mx LX k HXI) by lia.
    subst k. by rewrite entry_of_intro.
  - intros H. rewrite (xsf_search_element_spec fuel x mx LX k HXI) by lia.
    apply entry_of_None in H. by rewrite H.
Qed.

(** C2. [SkipList]: [remove k] returns, and returns true exactly when the list
    has an element with key [k].  After a true removal [get k] is empty,
    [size] is one less, and a second [remove k] returns false; a false removal
    changes neither the list object nor memory.  [XSFSkipList]:
    [delete_element k] (which returns nothing) returns; afterwards
    [search_element k] finds nothing; when the key was present [size] is one
    less and a second [delete_element k] changes nothing; when it was absent
    nothing has changed. *)
Theorem C2_remove_correct fuel s m L x mx LX k :
  Inv s m L → length L + 256 ≤ fuel →
  XInv x mx LX → (Z.of_nat (length LX) + xsf_max_level_ x + 2 ≤ Z.of_nat fuel)%Z →
  (∃ b s' m',
     remove fuel k s m = Done (b, s', m') ∧
     (b = true ↔ ∃ e, e ∈ L ∧ e_key e = k) ∧
     (b = true →
      get fuel k s' m' = Done None ∧
      size s' = (size s - 1)%Z ∧
      remove fuel k s' m' = Done (false, s', m')) ∧
     (b = false → s' = s ∧ m' = m)) ∧
  (∃ x' mx',
     xsf_delete_element fuel k x mx = Done (x', mx') ∧
     xsf_search_element fuel k x' mx' = Done None ∧
     ((∃ e, e ∈ LX ∧ e_key e = k) →
      xsf_size x' = (xsf_size x - 1)%Z ∧
      xsf_delete_element fuel k x' mx' = Done (x', mx')) ∧
     ((∀ e, e ∈ LX → e_key e ≠ k) → x' = x ∧ mx' = mx)).
Proof.
  intros HI Hfuel HXI HXfuel.
  destruct (inv_shape _ _ _ HI) as (hd & _ & Hsh). pose proof (sh_sorted _ _ _ _ Hsh) as Hs.
  destruct (xinv_shape _ _ _ HXI) as (hdx & _ & Hshx).
  pose proof (sh_sorted _ _ _ _ Hshx) as Hsx. pose proof (xinv_max _ _ _ HXI) as Hmax.
  split.
  - destruct (entry_of k L) as [e|] eqn:He.
    + destruct (remove_present fuel s m L k e HI Hfuel He)
        as (hd' & c' & m' & _ & Hrun & HI' & _).
      pose proof (remove_key_length k L e Hs He) as Hlen.
      assert (entry_of k (remove_key k L) = None) as Hgone.
      { apply entry_of_None. by intros e' [? _]%remove_key_elem. }
      eexists true, _, m'. split; [exact Hrun|]. split; [|split; [|done]].
      * split; [|done]. intros _. exists e. by apply entry_of_elem.
      * intros _. split; [|split].
        -- rewrite (get_spec fuel _ m' _ k HI') by lia. by rewrite Hgone.
        -- done.
        -- apply (remove_absent fuel _ m' _ k HI'); [lia|done].
    + exists false, s, m. split; [by apply (remove_absent fuel s m L k HI); [lia|]|].
      split; [|split; [done|done]].
      split; [done|]. intros (e & HeL & Hk). exfalso.
      by eapply entry_of_None.
  - destruct (entry_of k LX) as [e|] eqn:He.
    + destruct (xsf_delete_present fuel x mx LX k e HXI HXfuel He)
        as (hd' & c' & mx' & _ & Hrun & HI' & _).
      pose proof (remove_key_length k LX e Hsx He) as Hlen.
      assert (entry_of k (remove_key k LX) = None) as Hgone.
      { apply entry_of_None. by intros e' [? _]%remove_key_elem. }
      eexists _, mx'. split; [exact Hrun|]. split; [|split].
      * rewrite (xsf_search_element_spec fuel _ mx' _ k HI') by lia. by rewrite Hgone.
      * intros _. split; [done|].
        apply (xsf_delete_absent fuel _ mx' _ k HI'); [lia|done].
      * intros Hall. exfalso. apply entry_of_elem in He as [HeL Hk]. by eapply Hall.
    + exists x, mx. rewrite (xsf_delete_absent fuel x mx LX k HXI) by (done || lia).
      split; [done|]. split; [|split; [|done]].
      * rewrite (xsf_search_element_spec fuel x mx LX k HXI) by lia. by rewrite He.
      * intros (e & HeL & Hk). exfalso. by eapply entry_of_None.
Qed.

(** C3. [SkipList]: [put k v2] on a list that already has an element with key
    [k] returns the list object unchanged (so the current maximum level and
    [element_count_] are what they were), allocates nothing, changes no other
    node, keeps the key and the forward array (hence the level) of the node
    of [k] and stores [v2] in it; [get k] then returns [v2].  [XSFSkipList]:
    [insert_element k v2] on such a list returns 1 with the same list object
    and the same [rand()] state, and memory differs only in the value of the
    node of [k]; [search_element k] then finds [v2]. *)
Theorem C3_put_overwrites_in_place fuel s m L x mx r LX k v2 e ex :
  Inv s m L → length L < fuel → e ∈ L → e_key e = k →
  XInv x mx LX → length LX < fuel → ex ∈ LX → e_key ex = k →
  (∃ s' m' nd,
     put fuel k v2 s m = Done (s', m') ∧
     get fuel k s' m' = Done (Some v2) ∧
     s' = s ∧
     current_max_level_ s' = current_max_level_ s ∧
     element_count_ s' = element_count_ s ∧ size s' = size s ∧
     next_free m' = next_free m ∧
     (∀ a, a ≠ e_addr e → cells m' !! a = cells m !! a) ∧
     cells m !! e_addr e = Some nd ∧
     cells m' !! e_addr e = Some (mkNode k v2 (forward_ nd)) ∧
     node_level m' (e_addr e) = node_level m (e_addr e)) ∧
  (∃ nd,
     cells mx !! e_addr ex = Some nd ∧
     xsf_insert_element fuel k v2 x mx r
     = Done (1%Z, x, store mx (e_addr ex) (mkNode k v2 (forward_ nd)), r) ∧
     xsf_search_element fuel k x (store mx (e_addr ex) (mkNode k v2 (forward_ nd)))
     = Done (Some v2)).
Proof.
  intros HI Hfuel He Hk HXI HXfuel Hex Hkx.
  destruct (inv_shape _ _ _ HI) as (hd & _ & Hsh). pose proof (sh_sorted _ _ _ _ Hsh) as Hs.
  destruct (xinv_shape _ _ _ HXI) as (hdx & _ & Hshx).
  pose proof (sh_sorted _ _ _ _ Hshx) as Hsx.
  split.
  - assert (entry_of k L = Some e) as Hent by (rewrite <- Hk; by apply entry_of_intro).
    destruct (put_existing fuel s m L k v2 e HI Hfuel Hent) as (m' & Hrun & HI').
    destruct (put_existing_store fuel s m L k v2 e HI Hfuel Hent)
      as (nd & Hc & _ & _ & Hrun').
    rewrite Hrun in Hrun'. injection Hrun' as ->.
    exists s, (store m (e_addr e) (mkNode k v2 (forward_ nd))), nd.
    split; [done|]. split.
    { rewrite (get_spec fuel s _ _ k HI') by (rewrite set_val_length; lia).
      by rewrite (entry_of_set_val_same k v2 L e Hs Hent). }
    do 5 (split; [done|]). split; [|split; [done|split]].
    + intros a Ha. unfold store. simpl. by rewrite lookup_insert_ne.
    + unfold store. simpl. by rewrite lookup_insert_eq.
    + unfold node_level, store. simpl. by rewrite lookup_insert_eq, Hc.
  - assert (entry_of k LX = Some ex) as Hent by (rewrite <- Hkx; by apply entry_of_intro).
    destruct (xsf_insert_existing fuel x mx r LX k v2 ex HXI HXfuel Hent)
      as (nd & Hc & Hrun & HI').
    exists nd. split; [done|]. split; [done|].
    rewrite (xsf_search_element_spec fuel x _ _ k HI') by (rewrite set_val_length; lia).
    by rewrite (entry_of_set_val_same k v2 LX ex Hsx Hent).
Qed.

(** C4. The representation invariant implies the structural invariant of the
    specification, every [put] and [remove] that returns re-establishes both,
    and [get] and [contains] return without writing to the list ([size] and
    [empty] only read [element_count_]). *)
Theorem C4_operations_preserve_invariant fuel s m L :
  Inv s m L → length L + 256 ≤ fuel →
  SpecInv s m ∧
  (∀ k v s' m', put fuel k v s m = Done (s', m') →
                SpecInv s' m' ∧ ∃ L', Inv s' m' L') ∧
  (∀ k b s' m', remove fuel k s m = Done (b, s', m') →
                SpecInv s' m' ∧ ∃ L', Inv s' m' L') ∧
  (∀ k, ∃ r b, get fuel k s m = Done r ∧ contains fuel k s m = Done b) ∧
  size s = Z.of_nat (length L) ∧ (empty s = true ↔ L = []).
Proof.
  intros HI Hfuel. split; [by eapply Inv_SpecInv|]. split; [|split; [|split; [|split]]].
  - intros k v s' m' Hput.
    destruct (put_cases_length _ _ _ _ _ _ _ _ HI Hfuel Hput) as (L' & HI' & _).
    split; [by eapply Inv_SpecInv|by exists L'].
  - intros k b s' m' Hrem.
    destruct (remove_returns fuel s m L k HI Hfuel) as (b0 & s0 & m0 & L' & Hrun & HI').
    rewrite Hrun in Hrem. injection Hrem as <- <- <-.
    split; [by eapply Inv_SpecInv|by exists L'].
  - intros k. eexists _, _. split.
    + apply (get_spec fuel s m L k HI). lia.
    + apply (contains_spec fuel s m L k HI). lia.
  - apply (inv_count _ _ _ HI).
  - unfold empty. rewrite (inv_count _ _ _ HI). split.
    + intros H%Z.eqb_eq. destruct L; [done|]. rewrite length_cons in H. lia.
    + by intros ->.
Qed.

(** C5. Both level generators return a level between 0 and the maximum
    level which is the length of the initial run of successful flips cut at
    the maximum level: every flip before the returned level succeeded, and
    when the level is below the maximum the flip at that position failed.
    One flip more than the level has been consumed. *)
Theorem C5_random_level_in_range fuel s x r :
  max_level_ s ≤ 255 → max_level_ s < fuel →
  (0 ≤ xsf_max_level_ x)%Z → Z.to_nat (xsf_max_level_ x) < fuel →
  (∃ lv,
     generate_random_level fuel s
     = Done (lv, mkSkipList (max_level_ s) (current_max_level_ s) (header_ s)
                            (element_count_ s) (advance flip (gen_ s) (lv + 1))) ∧
     0 ≤ lv ∧ lv ≤ max_level_ s ∧
     (∀ i, i < lv → coin flip (gen_ s) i = true) ∧
     (lv < max_level_ s → coin flip (gen_ s) lv = false)) ∧
  (∃ lv,
     xsf_get_random_level fuel x r = Done (lv, advance xsf_flip r (lv + 1)) ∧
     (0 ≤ Z.of_nat lv ≤ xsf_max_level_ x)%Z ∧
     (∀ i, i < lv → coin xsf_flip r i = true) ∧
     ((Z.of_nat lv < xsf_max_level_ x)%Z → coin xsf_flip r lv = false)).
Proof.
  intros Hmax Hfuel Hxmax Hxfuel. split.
  - exists (fst (level_of flip (max_level_ s) (gen_ s))).
    rewrite generate_random_level_spec by done. rewrite level_of_state.
    split; [done|]. split; [lia|]. split; [apply level_of_le|].
    apply level_of_coin.
  - exists (fst (level_of xsf_flip (Z.to_nat (xsf_max_level_ x)) r)).
    unfold xsf_get_random_level.
    rewrite (xsf_get_random_level_loop_spec (Z.to_nat (xsf_max_level_ x))) by lia.
    rewrite level_of_state. simpl. split; [done|].
    pose proof (level_of_le xsf_flip (Z.to_nat (xsf_max_level_ x)) r).
    pose proof (level_of_coin xsf_flip (Z.to_nat (xsf_max_level_ x)) r) as [H1 H2].
    split; [lia|]. split; [done|]. intros Hlt. apply H2. lia.
Qed.

(** C6. [SkipList]: after a [remove] that returned true,
    [current_max_level_] is the result of decrementing the old value while it
    was positive and the header's forward pointer at it was empty: it did not
    grow, the header's forward pointer is [nullptr] at every level it passed,
    and it stopped at 0 or at a level whose header pointer is not [nullptr],
    which is the level of some remaining element.  So when every remaining
    element lies strictly below the old maximum level, the level drops.
    [XSFSkipList]: the same holds of [skip_list_level_] after a
    [delete_element] of a key that was present. *)
Theorem C6_level_shrinks_after_remove fuel s m L x mx LX k :
  Inv s m L → length L + 256 ≤ fuel →
  XInv x mx LX → (Z.of_nat (length LX) + xsf_max_level_ x + 2 ≤ Z.of_nat fuel)%Z →
  (∀ s' m',
     remove fuel k s m = Done (true, s', m') →
     current_max_level_ s' ≤ current_max_level_ s ∧
     (∀ j, current_max_level_ s' < j → j ≤ current_max_level_ s →
           load_forward m' (header_ s') j = Done None) ∧
     (current_max_level_ s' = 0 ∨
      (∃ a, load_forward m' (header_ s') (current_max_level_ s') = Done (Some a)) ∧
      ∃ e', e' ∈ L ∧ e_key e' ≠ k ∧ e_lvl e' = current_max_level_ s') ∧
     (0 < current_max_level_ s →
      (∀ e', e' ∈ L → e_key e' ≠ k → e_lvl e' < current_max_level_ s) →
      current_max_level_ s' < current_max_level_ s)) ∧
  (∀ x' mx',
     (∃ e, e ∈ LX ∧ e_key e = k) →
     xsf_delete_element fuel k x mx = Done (x', mx') →
     xsf_skip_list_level_ x' ≤ xsf_skip_list_level_ x ∧
     (∀ j, xsf_skip_list_level_ x' < j → j ≤ xsf_skip_list_level_ x →
           load_forward mx' (xsf_header_ x') j = Done None) ∧
     (xsf_skip_list_level_ x' = 0 ∨
      (∃ a, load_forward mx' (xsf_header_ x') (xsf_skip_list_level_ x') = Done (Some a)) ∧
      ∃ e', e' ∈ LX ∧ e_key e' ≠ k ∧ e_lvl e' = xsf_skip_list_level_ x') ∧
     (0 < xsf_skip_list_level_ x →
      (∀ e', e' ∈ LX → e_key e' ≠ k → e_lvl e' < xsf_skip_list_level_ x) →
      xsf_skip_list_level_ x' < xsf_skip_list_level_ x)).
Proof.
  intros HI Hfuel HXI HXfuel. split.
  - intros s' m' Hrem.
    destruct (entry_of k L) as [e|] eqn:He;
      [|by rewrite (remove_absent fuel s m L k HI ltac:(lia) He) in Hrem].
    destruct (remove_present fuel s m L k e HI Hfuel He)
      as (hd & c' & m1 & Hhd & Hrun & HI' & Hle & Hnull & Hend).
    rewrite Hrun in Hrem. injection Hrem as <- <-. simpl. rewrite Hhd.
    assert (c' = 0 ∨
            (∃ a, fwd_at m1 hd c' = Some (Some a)) ∧
            ∃ e', e' ∈ L ∧ e_key e' ≠ k ∧ e_lvl e' = c') as Htop.
    { destruct Hend as [->|[a Ha]]; [by left|]. right. split; [by exists a|].
      destruct (inv_shape _ _ _ HI') as (hd' & Hhd' & Hsh'). simpl in *.
      assert (hd' = hd) as -> by congruence.
      destruct (header_pointer_entry _ _ _ _ c' a Hsh'
                  ltac:(pose proof (inv_cml _ _ _ HI); lia) Ha) as (e' & Hin & Hlv).
      pose proof (inv_lvl _ _ _ HI' e' Hin) as Hlv'. simpl in Hlv'.
      apply remove_key_elem in Hin as [Hk Hin]. exists e'. repeat split; [done|done|lia]. }
    split; [done|]. split; [|split].
    + intros j Hj1 Hj2. apply load_forward_fwd_at. by apply Hnull.
    + destruct Htop as [->|[[a Ha] Hex]]; [by left|]. right. split; [|done].
      exists a. by apply load_forward_fwd_at.
    + intros Hpos Hsole. destruct Htop as [->|[_ (e' & He' & Hk' & <-)]]; [done|].
      by apply Hsole.
  - intros x' mx' (e0 & He0 & Hk0) Hdel.
    destruct (xinv_shape _ _ _ HXI) as (hdx & _ & Hshx).
    pose proof (sh_sorted _ _ _ _ Hshx) as Hsx. pose proof (xinv_max _ _ _ HXI) as Hmax.
    assert (entry_of k LX = Some e0) as He by (rewrite <- Hk0; by apply entry_of_intro).
    destruct (xsf_delete_present fuel x mx LX k e0 HXI HXfuel He)
      as (hd & c' & m1 & Hhd & Hrun & HI' & Hle & Hnull & Hend).
    rewrite Hrun in Hdel. injection Hdel as <- <-. simpl. rewrite Hhd.
    assert (c' = 0 ∨
            (∃ a, fwd_at m1 hd c' = Some (Some a)) ∧
            ∃ e', e' ∈ LX ∧ e_key e' ≠ k ∧ e_lvl e' = c') as Htop.
    { destruct Hend as [->|[a Ha]]; [by left|]. right. split; [by exists a|].
      destruct (xinv_shape _ _ _ HI') as (hd' & Hhd' & Hsh'). simpl in *.
      assert (hd' = hd) as -> by congruence.
      destruct (header_pointer_entry _ _ _ _ c' a Hsh'
                  ltac:(pose proof (xinv_level _ _ _ HXI); lia) Ha) as (e' & Hin & Hlv).
      pose proof (xinv_lvl _ _ _ HI' e' Hin) as Hlv'. simpl in Hlv'.
      apply remove_key_elem in Hin as [Hk Hin]. exists e'. repeat split; [done|done|lia]. }
    split; [done|]. split; [|split].
    + intros j Hj1 Hj2. apply load_forward_fwd_at. by apply Hnull.
    + destruct Htop as [->|[[a Ha] Hex]]; [by left|]. right. split; [|done].
      exists a. by apply load_forward_fwd_at.
    + intros Hpos Hsole. destruct Htop as [->|[_ (e' & He' & Hk' & <-)]]; [done|].
      by apply Hsole.
Qed.

(** C8 (for [momu::skip_list::SkipList]).  Two lists built with the same
    maximum level and the same seed, side by side in one memory, answer the
    same sequence of calls in the same way, the second doing so after the
    first has been worked on: the answers agree, and the two lists end up
    with equal views, that is the same keys, values and node levels, the same
    current level, count and generator state.  The first list is still
    intact after the calls on the second. *)
Theorem C8_same_seed_same_behaviour fuel max_level seed os
    m0 sA m1 sB m2 answersA sA' m3 answersB sB' m4 :
  SkipList_new max_level seed m0 = Done (sA, m1) →
  SkipList_new max_level seed m1 = Done (sB, m2) →
  length os + 256 ≤ fuel →
  run_ops fuel os sA m2 = Done (answersA, sA', m3) →
  run_ops fuel os sB m3 = Done (answersB, sB', m4) →
  answersA = answersB ∧
  gen_ sA' = gen_ sB' ∧
  ∃ LA LB, Inv sA' m4 LA ∧ Inv sB' m4 LB ∧ abs sA' LA = abs sB' LB.
Proof.
  intros HnewA HnewB Hfuel HrunA HrunB.
  apply SkipList_new_inv in HnewA as (-> & HIA & Hn1 & _).
  apply SkipList_new_inv in HnewB as (-> & HIB & Hn2 & Hsame2).
  assert (Inv (mkSkipList (u8 max_level) 0 (Some (next_free m0)) 0 seed) m2 []) as HIA2.
  { eapply (Inv_frame _ m1 m2 [] (fun _ => False)); [done| |intros a _ []|].
    - split; [lia|]. intros a _ Ha. apply Hsame2. lia.
    - destruct (inv_shape _ _ _ HIB) as (hd & _ & Hsh). apply (sh_space _ _ _ _ Hsh). }
  assert (length (@nil entry) + length os + 256 ≤ fuel) as Hfuel0 by (simpl; lia).
  destruct (run_ops_sound _ _ _ _ _ _ _ _ HIA2 Hfuel0 HrunA)
    as (LA & HIA3 & HabsA & HfrA & HownA).
  assert (Inv (mkSkipList (u8 max_level) 0 (Some (next_free m1)) 0 seed) m3 []) as HIB3.
  { eapply Inv_frame; [exact HIB|exact HfrA| |].
    - simpl. intros a Ha Ha'. destruct Ha as [[= <-]|Ha]; [|by apply elem_of_nil in Ha].
      destruct Ha' as [[= Heq]|Ha']; [lia|by apply elem_of_nil in Ha'].
    - destruct (inv_shape _ _ _ HIA3) as (hd & _ & Hsh). apply (sh_space _ _ _ _ Hsh). }
  destruct (run_ops_sound _ _ _ _ _ _ _ _ HIB3 Hfuel0 HrunB)
    as (LB & HIB4 & HabsB & HfrB & HownB).
  assert (Inv sA' m4 LA) as HIA4.
  { eapply Inv_frame; [exact HIA3|exact HfrB| |].
    - simpl. intros a Ha [[= <-]|Ha']; [|by apply elem_of_nil in Ha'].
      destruct (HownA _ Ha) as [[Heq|Hx]|Hge]; simpl in *.
      + injection Heq as Heq. lia.
      + by apply elem_of_nil in Hx.
      + lia.
    - destruct (inv_shape _ _ _ HIB4) as (hd & _ & Hsh). apply (sh_space _ _ _ _ Hsh). }
  unfold abs in HabsA, HabsB. simpl in HabsA, HabsB. rewrite HabsA in HabsB.
  apply pair_equal_spec in HabsB as [-> Habs].
  split; [done|]. split; [injection Habs; intros; congruence|]. exists LA, LB.
  split; [done|]. split; [done|]. unfold abs. by rewrite Habs.
Qed.

(** C9. Frame: for a key [k2] other than [k], [get k2] returns after [put k v]
    and after [remove k] what it returned before. *)
Theorem C9_other_keys_untouched fuel s m L k k2 v :
  Inv s m L → length L + 256 ≤ fuel → k2 ≠ k →
  (∀ s' m', put fuel k v s m = Done (s', m') →
            get fuel k2 s' m' = get fuel k2 s m) ∧
  (∀ b s' m', remove fuel k s m = Done (b, s', m') →
              get fuel k2 s' m' = get fuel k2 s m).
Proof.
  intros HI Hfuel Hne.
  destruct (inv_shape _ _ _ HI) as (hd & _ & Hsh). pose proof (sh_sorted _ _ _ _ Hsh) as Hs.
  rewrite (get_spec fuel s m L k2 HI) by lia. split.
  - intros s' m' Hput.
    destruct (put_cases_length _ _ _ _ _ _ _ _ HI Hfuel Hput) as (L' & HI' & Hlen & _ & Hoth).
    rewrite (get_spec fuel s' m' L' k2 HI') by lia. by rewrite Hoth.
  - intros b s' m' Hrem. destruct (entry_of k L) as [e|] eqn:He.
    + destruct (remove_present fuel s m L k e HI Hfuel He)
        as (hd' & c' & m1 & _ & Hrun & HI' & _).
      rewrite Hrun in Hrem. injection Hrem as <- <- <-.
      pose proof (remove_key_length k L e Hs He).
      rewrite (get_spec fuel _ m1 _ k2 HI') by lia.
      pose proof He as [_ Hk]%entry_of_elem.
      by destruct (entry_of_other k k2 v e L Hs Hne Hk) as (_ & _ & ->).
    + rewrite (remove_absent fuel s m L k HI ltac:(lia) He) in Hrem.
      injection Hrem as <- <- <-. apply (get_spec fuel s m L k2 HI). lia.
Qed.

(** C10. [insert_element] returns 1 exactly when the list had an element with
    the key, and then only the value of that element is replaced and
    [element_count_] stays; it returns 0 exactly when the list had none, and
    then the list has one more element, holding the key and value, and
    [element_count_] is one more.  It does return when the key is present,
    and when it is absent provided [new] succeeds and the [int] counter does
    not overflow. *)
Theorem C10_insert_element_result fuel x m r L k v :
  XInv x m L →
  (Z.of_nat (length L) + xsf_max_level_ x + 2 ≤ Z.of_nat fuel)%Z →
  (∀ ret x' m' r',
     xsf_insert_element fuel k v x m r = Done (ret, x', m', r') →
     (ret = 1%Z ↔ ∃ e, e ∈ L ∧ e_key e = k) ∧
     (ret = 0%Z ↔ ∀ e, e ∈ L → e_key e ≠ k) ∧
     xsf_search_element fuel k x' m' = Done (Some v) ∧
     (ret = 1%Z → x' = x ∧ r' = r ∧ XInv x' m' (set_val k v L) ∧
                  xsf_size x' = xsf_size x) ∧
     (ret = 0%Z → ∃ lv, XInv x' m' (insert_entry (mkEntry (next_free m) k v lv) L) ∧
                        next_free m' = (next_free m + 1)%N ∧
                        xsf_size x' = (xsf_size x + 1)%Z)) ∧
  ((∃ e, e ∈ L ∧ e_key e = k) ∨
   ((next_free m < addr_limit)%N ∧ (xsf_element_count_ x < INT_MAX)%Z) →
   ∃ ret x' m' r', xsf_insert_element fuel k v x m r = Done (ret, x', m', r')).
Proof.
  intros HI Hfuel.
  destruct (xinv_shape _ _ _ HI) as (hd & _ & Hsh). pose proof (sh_sorted _ _ _ _ Hsh) as Hs.
  pose proof (xinv_max _ _ _ HI) as Hmax.
  destruct (entry_of k L) as [e|] eqn:He.
  - destruct (xsf_insert_existing fuel x m r L k v e HI ltac:(lia) He) as (nd & Hc & Hrun & HI').
    pose proof He as [HeL Hk]%entry_of_elem. split; [|eauto 10].
    intros ret x' m' r' Hdone. rewrite Hrun in Hdone. injection Hdone as <- <- <- <-.
    split; [split; [eauto|done]|]. split.
    { split; [done|]. intros Hall. exfalso. by eapply Hall. }
    split; [|done].
    rewrite (xsf_search_element_spec fuel x _ _ k HI') by (rewrite set_val_length; lia).
    by rewrite (entry_of_set_val_same k v L e Hs He).
  - destruct (xsf_insert_new fuel x m r L k v HI Hfuel He) as [Hok Hbad].
    pose proof He as Hall. rewrite entry_of_None in Hall. split.
    + intros ret x' m' r' Hdone.
      destruct (decide ((next_free m < addr_limit)%N ∧ (xsf_element_count_ x < INT_MAX)%Z))
        as [[Hlim Hcount]|Hn]; [|exfalso; by eapply Hbad].
      destruct (Hok Hlim Hcount) as (m1 & Hrun & Hnext & HI').
      rewrite Hrun in Hdone. injection Hdone as <- <- <- <-.
      split; [split; [done|]; intros (e & HeL & Hk); exfalso; by eapply Hall|].
      split; [done|]. split.
      * rewrite (xsf_search_element_spec fuel _ _ _ k HI')
          by (rewrite insert_entry_length by done; lia).
        match goal with |- context [insert_entry ?e _] =>
          change k with (e_key e) at 1; rewrite (entry_of_intro (insert_entry e L) e) end;
          [done| |apply insert_entry_elem; [done|by left]].
        destruct (xinv_shape _ _ _ HI') as (hd' & _ & Hsh'). apply (sh_sorted _ _ _ _ Hsh').
      * split; [done|]. intros _. eexists. split; [exact HI'|]. by split.
    + intros [(e & HeL & Hk)|[Hlim Hcount]].
      * exfalso. by eapply Hall.
      * destruct (Hok Hlim Hcount) as (m' & Hrun & _). eauto 10.
Qed.

(** * Further properties of the code *)

(** ** Teardown *)

Lemma delete_ptr_cells m a :
  is_Some (cells m !! a) →
  delete_ptr m (Some a) = Done (mkMem (delete a (cells m)) (next_free m)).
Proof. intros [n Hn]. unfold delete_ptr, load. by rewrite Hn. Qed.

Lemma fwd_at_delete m a a' j :
  a' ≠ a → fwd_at (mkMem (delete a (cells m)) (next_free m)) a' j = fwd_at m a' j.
Proof. intros Hne. unfold fwd_at. simpl. by rewrite lookup_delete_ne. Qed.

Lemma fwd_at_cell m a j q : fwd_at m a j = Some q → is_Some (cells m !! a).
Proof. unfold fwd_at. destruct (cells m !! a); [by eexists|done]. Qed.

Lemma linked_cell m j p C : linked m j p C → is_Some (cells m !! p).
Proof. intros H%linked_head. by eapply fwd_at_cell. Qed.

Lemma reaches_head m j p C : linked m j p C → reaches m j (head C) C.
Proof. destruct C as [|x C]; simpl; [done|]. by intros [_ H]. Qed.

Lemma delete_chain_starting_from_spec : ∀ C fuel first m,
  NoDup C → reaches m 0 first C → length C < fuel →
  ∃ m', delete_chain_starting_from fuel first m = Done m' ∧
        next_free m' = next_free m ∧
        ∀ a, cells m' !! a = if decide (a ∈ C) then None else cells m !! a.
Proof.
  induction C as [|x C IH]; intros fuel first m Hnd Hreach Hfuel;
    (destruct fuel as [|fuel]; [simpl in Hfuel; lia|]); simpl in *.
  - subst first. exists m. split; [done|]. split; [done|]. intros a.
    destruct (decide (a ∈ [])) as [Hin|_]; [by apply elem_of_nil in Hin|done].
  - destruct Hreach as [-> Hl]. apply NoDup_cons in Hnd as [Hx Hnd].
    rewrite (load_forward_fwd_at _ _ _ _ (linked_head _ _ _ _ Hl)). simpl.
    rewrite (delete_ptr_cells m x) by by eapply linked_cell. simpl.
    destruct (IH fuel (head C) (mkMem (delete x (cells m)) (next_free m)))
      as (m' & -> & Hn & Hc); [done| |lia|].
    { destruct C as [|y C]; simpl; [done|]. destruct Hl as [_ Hl]. split; [done|].
      eapply linked_ext; [|exact Hl].
      intros a Ha. apply fwd_at_delete. by intros ->. }
    exists m'. split; [done|]. split; [done|]. intros a. rewrite Hc. simpl.
    destruct (decide (a ∈ C)) as [Hin|Hin]; destruct (decide (a ∈ x :: C)) as [Hin'|Hin'];
      try done.
    + exfalso. apply Hin'. by right.
    + apply elem_of_cons in Hin' as [->|?]; [|done]. by rewrite lookup_delete_eq.
    + rewrite lookup_delete_ne; [done|]. intros ->. apply Hin'. by left.
Qed.

Lemma xsf_clear_spec : ∀ C fuel x m,
  NoDup (x :: C) → linked m 0 x C → length C < fuel →
  ∃ m', xsf_clear fuel (Some x) m = Done m' ∧
        next_free m' = next_free m ∧
        ∀ a, cells m' !! a = if decide (a ∈ x :: C) then None else cells m !! a.
Proof.
  induction C as [|y C IH]; intros fuel x m Hnd Hl Hfuel;
    (destruct fuel as [|fuel]; [simpl in Hfuel; lia|]); simpl in *.
  - rewrite (load_forward_fwd_at _ _ _ _ Hl). simpl.
    rewrite (delete_ptr_cells m x) by by eapply fwd_at_cell.
    eexists. split; [done|]. split; [done|]. intros a. simpl.
    destruct (decide (a ∈ [x])) as [->%list_elem_of_singleton|Hin].
    + by rewrite lookup_delete_eq.
    + rewrite lookup_delete_ne; [done|]. intros ->. apply Hin. by left.
  - destruct Hl as [Hx Hl]. apply NoDup_cons in Hnd as [Hxn Hnd].
    rewrite (load_forward_fwd_at _ _ _ _ Hx). simpl.
    destruct (IH fuel y m Hnd Hl ltac:(lia)) as (m1 & -> & Hn1 & Hc1). simpl.
    rewrite (delete_ptr_cells m1 x).
    2:{ rewrite Hc1, decide_False by done. by eapply fwd_at_cell. }
    eexists. split; [done|]. split; [done|]. intros a. simpl.
    destruct (decide (a ∈ x :: y :: C)) as [Hin|Hin].
    + apply elem_of_cons in Hin as [->|Hin]; [by rewrite lookup_delete_eq|].
      rewrite lookup_delete_ne by (intros ->; done). by rewrite Hc1, decide_True.
    + rewrite lookup_delete_ne by (intros ->; apply Hin; by left).
      rewrite Hc1, decide_False; [done|]. intros ?. apply Hin. by right.
Qed.

Lemma move_forward_dangling fuel m a j k :
  cells m !! a = None → move_forward_in_level (S fuel) m (Some a) j k = Fault.
Proof. intros H. simpl. unfold load_forward, load. by rewrite H. Qed.

Lemma traverse_levels_dangling fuel m a i k :
  cells m !! a = None → traverse_levels (S fuel) m i (Some a) k = Fault.
Proof. intros H. destruct i; simpl; unfold load_forward, load; by rewrite H. Qed.

Lemma collect_levels_dangling fuel m a i k preds :
  cells m !! a = None → collect_levels (S fuel) m i (Some a) k preds = Fault.
Proof. intros H. destruct i; simpl; unfold load_forward, load; by rewrite H. Qed.

(** X1. [clear] returns and frees exactly the header and the nodes of the
    list: their cells are gone, every other cell and the allocation frontier
    are as before.  [header_] still points to the freed header, so every
    later [get], [contains], [put] or [remove] on the object dereferences
    freed memory. *)
Theorem X1_clear_frees_the_list fuel s m L :
  Inv s m L → length L < fuel →
  ∃ m', clear fuel s m = Done m' ∧
        next_free m' = next_free m ∧
        (∀ a, owns (header_ s) L a → cells m' !! a = None) ∧
        (∀ a, ¬ owns (header_ s) L a → cells m' !! a = cells m !! a) ∧
        (∀ k v, get fuel k s m' = Fault ∧ contains fuel k s m' = Fault ∧
                put fuel k v s m' = Fault ∧ remove fuel k s m' = Fault).
Proof.
  intros HI Hfuel. destruct (inv_shape _ _ _ HI) as (hd & Hhd & Hsh).
  pose proof (sh_linked _ _ _ _ Hsh 0 ltac:(lia)) as Hl. rewrite at_level_0 in Hl.
  pose proof (sh_nodup _ _ _ _ Hsh) as Hnd. apply NoDup_cons in Hnd as [Hhdn Hnd].
  unfold clear. rewrite Hhd.
  rewrite (load_forward_fwd_at _ _ _ _ (linked_head _ _ _ _ Hl)). simpl.
  destruct (delete_chain_starting_from_spec (e_addr <$> L) fuel (head (e_addr <$> L)) m)
    as (m1 & -> & Hn1 & Hc1); [done|by eapply reaches_head|by rewrite length_fmap|].
  simpl. rewrite (delete_ptr_cells m1 hd).
  2:{ rewrite Hc1, decide_False by done. by eapply linked_cell. }
  eexists. split; [done|]. split; [done|].
  assert (cells (mkMem (delete hd (cells m1)) (next_free m1)) !! hd = None) as Hgone
    by (simpl; by rewrite lookup_delete_eq).
  split; [|split].
  - intros a [[= ->]|Ha]; [done|]. simpl.
    destruct (decide (a = hd)) as [->|Hne]; [by rewrite lookup_delete_eq|].
    rewrite lookup_delete_ne by done. by rewrite Hc1, decide_True.
  - intros a Ha. simpl. rewrite lookup_delete_ne by (intros ->; apply Ha; by left).
    rewrite Hc1, decide_False; [done|]. intros Hin. apply Ha. by right.
  - intros k v. destruct fuel as [|fuel]; [lia|].
    unfold get, contains, put, remove, find_node, traverse_to_level_zero,
      find_predecessors, traverse_and_collect_predecessors.
    rewrite Hhd, traverse_levels_dangling, collect_levels_dangling by done. done.
Qed.

(** X2. [~XSFSkipList] returns and frees exactly the header and the nodes of
    the list; every other cell and the allocation frontier are as before. *)
Theorem X2_destructor_frees_the_list fuel x m L :
  XInv x m L → length L < fuel →
  ∃ m', XSFSkipList_destructor fuel x m = Done m' ∧
        next_free m' = next_free m ∧
        (∀ a, owns (xsf_header_ x) L a → cells m' !! a = None) ∧
        (∀ a, ¬ owns (xsf_header_ x) L a → cells m' !! a = cells m !! a).
Proof.
  intros HI Hfuel. destruct (xinv_shape _ _ _ HI) as (hd & Hhd & Hsh).
  pose proof (sh_linked _ _ _ _ Hsh 0 ltac:(lia)) as Hl. rewrite at_level_0 in Hl.
  pose proof (sh_nodup _ _ _ _ Hsh) as Hnd. apply NoDup_cons in Hnd as [Hhdn Hnd].
  unfold XSFSkipList_destructor. rewrite Hhd.
  rewrite (load_forward_fwd_at _ _ _ _ (linked_head _ _ _ _ Hl)). simpl.
  assert (∃ m1, match head (e_addr <$> L) with
                | Some _ => xsf_clear fuel (head (e_addr <$> L)) m
                | None => Done m
                end = Done m1 ∧
                next_free m1 = next_free m ∧
                ∀ a, cells m1 !! a = if decide (a ∈ e_addr <$> L) then None
                                     else cells m !! a) as (m1 & -> & Hn1 & Hc1).
  { destruct (e_addr <$> L) as [|y C] eqn:HC; simpl.
    - exists m. split; [done|]. split; [done|]. intros a.
      destruct (decide (a ∈ [])) as [Hin|_]; [by apply elem_of_nil in Hin|done].
    - destruct Hl as [_ Hl]. apply (xsf_clear_spec C fuel y m Hnd Hl).
      apply (f_equal length) in HC. rewrite length_fmap in HC. simpl in HC. lia. }
  simpl. rewrite (delete_ptr_cells m1 hd).
  2:{ rewrite Hc1, decide_False by done. by eapply linked_cell. }
  eexists. split; [done|]. split; [done|]. split.
  - intros a [[= ->]|Ha]; simpl; [by rewrite lookup_delete_eq|].
    destruct (decide (a = hd)) as [->|Hne]; [by rewrite lookup_delete_eq|].
    rewrite lookup_delete_ne by done. by rewrite Hc1, decide_True.
  - intros a Ha. simpl. rewrite lookup_delete_ne by (intros ->; apply Ha; by left).
    rewrite Hc1, decide_False; [done|]. intros Hin. apply Ha. by right.
Qed.

(** ** Construction *)

(** X3. The constructor returns exactly when [new] succeeds, and otherwise
    fails with the allocation failure.  It allocates one node, the header,
    at the frontier and leaves every other cell alone; the new list is
    empty: [size] is 0, [empty] is true, the level in use is 0, and on every
    key [get] is empty, [contains] is false and [remove] returns false
    without changing anything. *)
Theorem X3_constructor_gives_empty_list fuel max_level seed m :
  0 < fuel →
  ((next_free m < addr_limit)%N →
   ∃ s m',
     SkipList_new max_level seed m = Done (s, m') ∧
     max_level_ s = u8 max_level ∧ current_max_level_ s = 0 ∧ gen_ s = seed ∧
     header_ s = Some (next_free m) ∧
     size s = 0%Z ∧ empty s = true ∧
     next_free m' = (next_free m + 1)%N ∧
     (∀ a, a ≠ next_free m → cells m' !! a = cells m !! a) ∧
     Inv s m' [] ∧
     ∀ k, get fuel k s m' = Done None ∧ contains fuel k s m' = Done false ∧
          remove fuel k s m' = Done (false, s, m')) ∧
  (¬ (next_free m < addr_limit)%N → SkipList_new max_level seed m = BadAlloc).
Proof.
  intros Hfuel. split.
  - intros Hlim. destruct (SkipList_new_spec max_level seed m Hlim) as (m' & Hrun & HI).
    eexists _, m'. split; [exact Hrun|]. simpl. do 6 (split; [done|]).
    assert (m' = mkMem (<[next_free m :=
                           mkNode 0 default_value (replicate (u8 max_level + 1) None)]>
                          (cells m)) (next_free m + 1)%N) as Hm'.
    { unfold SkipList_new, create_header_node, create_node, new_node in Hrun.
      destruct (N.ltb_spec (next_free m) addr_limit); [|lia]. simpl in Hrun. congruence. }
    split; [by rewrite Hm'|]. split.
    { intros a Ha. rewrite Hm'. simpl. by rewrite lookup_insert_ne. }
    split; [done|]. intros k.
    rewrite (get_spec fuel _ m' [] k HI) by (simpl; lia).
    rewrite (contains_spec fuel _ m' [] k HI) by (simpl; lia).
    rewrite (remove_absent fuel _ m' [] k HI) by (done || simpl; lia).
    split; [done|]. split; [|done]. f_equal; try (apply bool_decide_eq_false_2; by intros [? ?]).
  - intros Hlim. unfold SkipList_new, create_header_node.
    by rewrite create_node_BadAlloc.
Qed.

(** X4. [XSFSkipList(max_level)] with [0 <= max_level < INT_MAX] gives an
    empty list: [size] is 0, [search_element] finds nothing and
    [delete_element] changes nothing.  With [max_level = -1] the constructor
    returns a list whose header has no forward cell, and every
    [search_element], [insert_element] and [delete_element] on it, and its
    destructor, are undefined; below -1 the array [new] of the header fails; at [INT_MAX]
    [level + 1] overflows. *)
Theorem X4_xsf_constructor fuel max_level m :
  0 < fuel → (next_free m < addr_limit)%N →
  ((0 ≤ max_level < INT_MAX)%Z →
   ∃ x m',
     XSFSkipList_new max_level m = Done (x, m') ∧
     xsf_size x = 0%Z ∧ xsf_skip_list_level_ x = 0 ∧ xsf_max_level_ x = max_level ∧
     XInv x m' [] ∧
     ∀ k, xsf_search_element fuel k x m' = Done None ∧
          xsf_delete_element fuel k x m' = Done (x, m')) ∧
  (max_level = (-1)%Z →
   ∃ x m',
     XSFSkipList_new max_level m = Done (x, m') ∧
     XSFSkipList_destructor fuel x m' = Fault ∧
     ∀ k v r, xsf_search_element fuel k x m' = Fault ∧
              xsf_insert_element fuel k v x m' r = Fault ∧
              xsf_delete_element fuel k x m' = Fault) ∧
  ((max_level < -1)%Z → XSFSkipList_new max_level m = BadAlloc) ∧
  (max_level = INT_MAX → XSFSkipList_new max_level m = Fault).
Proof.
  intros Hfuel Hlim. split; [|split; [|split]].
  - intros Hmax. destruct (XSFSkipList_new_spec max_level m Hmax Hlim) as (m' & Hrun & HI).
    eexists _, m'. split; [exact Hrun|]. simpl. do 3 (split; [done|]). split; [done|].
    intros k. rewrite (xsf_search_element_spec fuel _ m' [] k HI) by (simpl; lia).
    by rewrite (xsf_delete_absent fuel _ m' [] k HI) by (done || simpl; lia).
  - intros ->. unfold XSFSkipList_new, xsf_new_node, new_node. simpl.
    destruct (N.ltb_spec (next_free m) addr_limit); [|lia]. simpl.
    eexists _, _. split; [done|].
    split; [unfold XSFSkipList_destructor, load_forward, load; simpl;
            by rewrite lookup_insert_eq|].
    intros k v r. destruct fuel as [|fuel]; [lia|].
    unfold xsf_search_element, xsf_insert_element, xsf_delete_element. simpl.
    unfold load_forward, load. simpl. by rewrite lookup_insert_eq.
  - intros Hneg. unfold XSFSkipList_new, xsf_new_node.
    destruct (Z.leb_spec INT_MAX max_level); [unfold INT_MAX in *; lia|].
    by destruct (Z.ltb_spec (max_level + 1) 0); [|lia].
  - intros ->. unfold XSFSkipList_new, xsf_new_node. by rewrite Z.leb_refl.
Qed.

(** ** The search *)

(** X5. [find_predecessors] returns an array of [max_level_ + 1] pointers.
    Above the level in use they are [nullptr].  At each level [j] in use the
    pointer is the header or a node of level at least [j] whose key is below
    [key], and the node after it at level [j], if there is one, has a key
    that is not below [key]. *)
Theorem X5_find_predecessors fuel s m L k :
  Inv s m L → length L < fuel →
  ∃ hd preds,
    header_ s = Some hd ∧
    find_predecessors fuel s m k = Done preds ∧
    length preds = max_level_ s + 1 ∧
    (∀ j, current_max_level_ s < j → j ≤ max_level_ s → preds !! j = Some None) ∧
    (∀ j, j ≤ current_max_level_ s →
       ∃ p, preds !! j = Some (Some p) ∧
            (p = hd ∨ ∃ e, e ∈ L ∧ e_addr e = p ∧ (e_key e < k)%Z ∧ j ≤ e_lvl e) ∧
            (load_forward m (Some p) j = Done None ∨
             ∃ e', e' ∈ L ∧ j ≤ e_lvl e' ∧ (k ≤ e_key e')%Z ∧
                   load_forward m (Some p) j = Done (Some (e_addr e')))).
Proof.
  intros HI Hfuel.
  destruct (find_predecessors_spec fuel s m L k HI Hfuel)
    as (hd & preds & Hhd & Hrun & Hlen & Hlook).
  destruct (inv_shape _ _ _ HI) as (hd' & Hhd' & Hsh).
  assert (hd' = hd) as -> by congruence.
  pose proof (sh_sorted _ _ _ _ Hsh) as Hs. pose proof (inv_cml _ _ _ HI) as Hcml.
  exists hd, preds. split; [done|]. split; [done|]. split; [done|]. split.
  - intros j Hj1 Hj2. rewrite Hlook, decide_False by lia. by rewrite decide_True.
  - intros j Hj. exists (pred_at hd j k L). split; [by rewrite Hlook, decide_True|]. split.
    + unfold pred_at, last_addr.
      destruct (last (at_level j (below k L))) as [e|] eqn:Hlast; simpl; [|by left].
      right. exists e. apply last_Some_elem_of in Hlast.
      apply list_elem_of_filter in Hlast as [Hlv [Hk He]%list_elem_of_filter]. done.
    + pose proof (sh_linked _ _ _ _ Hsh j ltac:(lia)) as Hl.
      rewrite (at_level_split j k L Hs), fmap_app in Hl.
      apply linked_split in Hl. rewrite last_addr_fmap in Hl. apply linked_head in Hl.
      fold (pred_at hd j k L) in Hl. rewrite fmap_head in Hl.
      destruct (head (at_level j (from k L))) as [e'|] eqn:Hhead; simpl in Hl.
      * right. exists e'. apply head_Some_elem_of in Hhead.
        apply list_elem_of_filter in Hhead as [Hlv [Hk He]%list_elem_of_filter].
        do 3 (split; [done|]). by apply load_forward_fwd_at.
      * left. by apply load_forward_fwd_at.
Qed.

(** ** [put] of an absent key, and how it can fail *)

Lemma put_absent_unfold fuel s m L k v :
  Inv s m L → length L < fuel → entry_of k L = None →
  ∃ hd preds,
    header_ s = Some hd ∧ length preds = max_level_ s + 1 ∧
    (∀ j, preds !! j =
          if decide (j ≤ current_max_level_ s) then Some (Some (pred_at hd j k L))
          else if decide (j ≤ max_level_ s) then Some None else None) ∧
    put fuel k v s m = insert_new_node fuel k v preds s m.
Proof.
  intros HI Hfuel Hnone.
  destruct (find_predecessors_spec fuel s m L k HI Hfuel)
    as (hd & preds & Hhd & Hrun & Hlen & Hlook).
  destruct (inv_shape _ _ _ HI) as (hd' & Hhd' & Hsh).
  assert (hd' = hd) as -> by congruence.
  exists hd, preds. do 3 (split; [done|]).
  unfold put. rewrite Hrun. simpl.
  rewrite (vec_get_Done _ _ (Some (pred_at hd 0 k L)))
    by (rewrite Hlook; by rewrite decide_True by lia).
  simpl. by rewrite (get_node_at_level_zero_spec _ _ _ _ _ Hsh), Hnone.
Qed.

(** A loop [for (uint8_t i = lo; i <= 255; i++)] whose body always returns
    runs for as long as it is given. *)
Lemma for_up_u8_255_runs_on {St : Type} (P : St → Prop) (body : nat → St → res St) :
  (∀ i s, i ≤ 255 → P s → ∃ s', body i s = Done s' ∧ P s') →
  ∀ fuel lo s, lo ≤ 255 → P s → for_up u8_succ fuel lo 255 body s = OutOfFuel.
Proof.
  intros Hbody. induction fuel as [|fuel IH]; intros lo s Hlo HP; simpl; [done|].
  destruct (Nat.leb_spec lo 255); [|lia].
  destruct (Hbody lo s Hlo HP) as (s' & -> & HP'). simpl.
  apply IH; [|done]. unfold u8. pose proof (Nat.mod_upper_bound (lo + 1) 256). lia.
Qed.

(** X6. [put] of a key the list does not have, when the level drawn is
    below 255 and [new] succeeds: it returns; the new node is allocated at
    the frontier with the key, the value and one forward cell per level up to
    the drawn level; the list is the old one with the new element between
    the smaller and the larger keys; [size] is one more, the level in use is
    the larger of the old one and the drawn level, and the generator has
    advanced by one flip more than the drawn level. *)
Theorem X6_put_absent_key fuel s m L k v :
  Inv s m L → length L + 256 ≤ fuel → (∀ e, e ∈ L → e_key e ≠ k) →
  fst (level_of flip (max_level_ s) (gen_ s)) < 255 → (next_free m < addr_limit)%N →
  ∃ lv s' m',
    lv = fst (level_of flip (max_level_ s) (gen_ s)) ∧
    put fuel k v s m = Done (s', m') ∧
    size s' = (size s + 1)%Z ∧
    current_max_level_ s' = current_max_level_ s `max` lv ∧
    gen_ s' = advance flip (gen_ s) (lv + 1) ∧
    max_level_ s' = max_level_ s ∧ header_ s' = header_ s ∧
    next_free m' = (next_free m + 1)%N ∧
    node_hd m' (next_free m) = Some (k, v, lv + 1) ∧
    Inv s' m' (below k L ++ mkEntry (next_free m) k v lv :: from k L).
Proof.
  intros HI Hfuel Habs Hlv Hlim. apply entry_of_None in Habs.
  destruct (put_new fuel s m L k v HI Hfuel Habs) as [Hok _].
  destruct (Hok Hlv Hlim) as (m' & Hrun & Hnext & HI').
  eexists _, _, m'. split; [done|]. split; [exact Hrun|]. simpl.
  split; [done|]. split; [done|]. split; [by rewrite level_of_state|].
  do 3 (split; [done|]). split; [|exact HI'].
  destruct (inv_shape _ _ _ HI') as (hd & _ & Hsh).
  apply (sh_nodes _ _ _ _ Hsh (mkEntry (next_free m) k v _)).
  apply elem_of_app. right. by left.
Qed.

(** X7. [put] of a key the list does not have never returns when the level
    drawn is 255 (which needs [max_level_ = 255]): the loop
    [for (uint8_t i = current_max_level_ + 1; i <= new_level; i++)] cannot
    be left, however long it runs. *)
Theorem X7_put_level_255_never_returns fuel s m L k v :
  Inv s m L → length L + 256 ≤ fuel → (∀ e, e ∈ L → e_key e ≠ k) →
  fst (level_of flip (max_level_ s) (gen_ s)) = 255 →
  put fuel k v s m = OutOfFuel ∧ max_level_ s = 255.
Proof.
  intros HI Hfuel Habs Hlv. apply entry_of_None in Habs.
  pose proof (inv_max _ _ _ HI) as Hmax. pose proof (inv_cml_u8 _ _ _ HI) as Hcml8.
  pose proof (level_of_le flip (max_level_ s) (gen_ s)) as Hle.
  assert (max_level_ s = 255) as HM by lia. split; [|done].
  destruct (put_absent_unfold fuel s m L k v HI ltac:(lia) Habs)
    as (hd & preds & Hhd & Hlen & _ & ->).
  unfold insert_new_node. rewrite generate_random_level_spec by lia. simpl.
  rewrite Hlv. unfold adjust_max_level_for_insertion. simpl.
  destruct (Nat.ltb_spec (current_max_level_ s) 255); [|lia].
  rewrite (for_up_u8_255_runs_on (fun preds => length preds = 256)); [done| | |lia].
  - intros i p Hi Hp. rewrite vec_set_Done by lia. eexists. split; [done|].
    by rewrite length_insert.
  - unfold u8. pose proof (Nat.mod_upper_bound (current_max_level_ s + 1) 256). lia.
Qed.

(** X8. [put] of a key the list does not have, when no address is left for
    [new]: the allocation failure comes out of [put] (the level drawn being
    below 255). *)
Theorem X8_put_allocation_failure fuel s m L k v :
  Inv s m L → length L + 256 ≤ fuel → (∀ e, e ∈ L → e_key e ≠ k) →
  fst (level_of flip (max_level_ s) (gen_ s)) < 255 → ¬ (next_free m < addr_limit)%N →
  put fuel k v s m = BadAlloc.
Proof.
  intros HI Hfuel Habs Hlv Hlim. apply entry_of_None in Habs.
  pose proof (inv_max _ _ _ HI) as Hmax. pose proof (inv_cml_u8 _ _ _ HI) as Hcml8.
  pose proof (level_of_le flip (max_level_ s) (gen_ s)) as Hle.
  destruct (put_absent_unfold fuel s m L k v HI ltac:(lia) Habs)
    as (hd & preds & Hhd & Hlen & _ & ->).
  unfold insert_new_node. rewrite generate_random_level_spec by lia. simpl.
  set (s1 := mkSkipList _ _ _ _ (snd _)).
  destruct (adjust_max_level_for_insertion_spec fuel
              (fst (level_of flip (max_level_ s) (gen_ s))) preds s1 hd)
    as [Hadj _]; try done; [lia|].
  destruct (Hadj Hlv) as (preds' & -> & _). simpl.
  by rewrite create_node_BadAlloc.
Qed.

(** X9. [put] is idempotent: after a [put(k, v)] that returned, a second
    [put(k, v)] returns and leaves the list object and the whole memory
    exactly as they are. *)
Theorem X9_put_twice_is_put_once fuel s m L k v s1 m1 :
  Inv s m L → length L + 256 ≤ fuel →
  put fuel k v s m = Done (s1, m1) →
  put fuel k v s1 m1 = Done (s1, m1).
Proof.
  intros HI Hfuel Hput.
  destruct (put_cases_length _ _ _ _ _ _ _ _ HI Hfuel Hput)
    as (L' & HI' & Hlen & (e' & He' & Hv) & _).
  destruct (put_existing_store fuel s1 m1 L' k v e' HI' ltac:(lia) He')
    as (nd & Hc & Hk & _ & ->).
  destruct (inv_shape _ _ _ HI') as (hd & _ & Hsh).
  apply entry_of_elem in He' as [He' _].
  pose proof (sh_nodes _ _ _ _ Hsh e' He') as Hn. unfold node_hd in Hn. rewrite Hc in Hn.
  injection Hn as _ Hval _.
  do 2 f_equal. unfold store. destruct nd as [nk nv nf]. simpl in *.
  assert (mkNode k v nf = mkNode nk nv nf) as -> by congruence.
  rewrite insert_id by done. by destruct m1.
Qed.

(** ** What [remove] does to memory *)

Lemma same_cell_cells m m' a : same_cell m m' a → cells m' !! a = cells m !! a.
Proof.
  unfold same_cell, node_hd, fwd_at. intros [Hn Hf].
  destruct (cells m' !! a) as [[k' v' f']|], (cells m !! a) as [[k v f]|];
    simpl in *; try done.
  injection Hn as -> -> _. do 2 f_equal. apply list_eq. intros j. apply Hf.
Qed.

Lemma unlink_writes (T : addr → Prop) succ fuel preds node c m m1 :
  ptrs_in T preds →
  for_up succ fuel 0 c
    (fun i m0 =>
       do p <- vec_get preds i;
       do nxt <- load_forward m0 p i;
       if bool_decide (nxt = node) then
         do after <- load_forward m0 node i;
         store_forward m0 p i after
       else Done m0) m = Done m1 →
  writes_within T m m1.
Proof.
  intros Hptrs Hd.
  eapply (for_up_preserves (writes_within T m)); [|exact Hd|apply writes_within_refl].
  intros i mi mi' Hbody Hwi. cbv beta in Hbody.
  eapply writes_within_trans; [exact Hwi|].
  destruct (vec_get preds i) as [p| | |] eqn:Hp; simpl in Hbody; try done.
  destruct (load_forward mi p i) as [nxt| | |]; simpl in Hbody; try done.
  destruct (bool_decide (nxt = node));
    [|injection Hbody as <-; apply writes_within_refl].
  destruct (load_forward mi node i) as [after| | |]; simpl in Hbody; try done.
  eapply store_forward_writes; [exact Hbody|]. intros a ->.
  unfold vec_get in Hp. destruct (preds !! i) as [q|] eqn:Hq; [|done].
  injection Hp as ->. by eapply Hptrs.
Qed.

Lemma delete_ptr_inv m p m' :
  delete_ptr m p = Done m' →
  ∃ a, p = Some a ∧ m' = mkMem (delete a (cells m)) (next_free m).
Proof.
  unfold delete_ptr, load. destruct p as [a|]; [|done].
  destruct (cells m !! a); simpl; [|done]. intros [= <-]. by exists a.
Qed.

Lemma remove_writes fuel s m L k b s' m' :
  Inv s m L → length L < fuel →
  remove fuel k s m = Done (b, s', m') →
  writes_within (owns (header_ s) L) m m' ∧
  ∀ e, entry_of k L = Some e → cells m' !! e_addr e = None.
Proof.
  intros HI Hfuel Hrem.
  destruct (find_predecessors_spec fuel s m L k HI Hfuel)
    as (hd & preds & Hhd & Hrun & Hlen & Hlook).
  destruct (inv_shape _ _ _ HI) as (hd' & Hhd' & Hsh).
  assert (hd' = hd) as -> by congruence.
  pose proof (found_ptrs_in _ _ _ _ _ _ Hlook) as Hptrs.
  unfold remove in Hrem. rewrite Hrun in Hrem. simpl in Hrem.
  rewrite (vec_get_Done _ _ (Some (pred_at hd 0 k L))) in Hrem
    by (rewrite Hlook; by rewrite decide_True by lia).
  simpl in Hrem. rewrite (get_node_at_level_zero_spec _ _ _ _ _ Hsh) in Hrem.
  rewrite Hhd. destruct (entry_of k L) as [e|] eqn:He; simpl in Hrem.
  2:{ injection Hrem as <- <- <-. split; [apply writes_within_refl|done]. }
  unfold delete_node in Hrem.
  destruct (disconnect_node_from_levels fuel (Some (e_addr e)) preds s m) as [m1| | |] eqn:Hd;
    simpl in Hrem; try done.
  destruct (delete_ptr m1 (Some (e_addr e))) as [m2| | |] eqn:Hdel; simpl in Hrem; try done.
  destruct (adjust_max_level fuel _ m2) as [s2| | |]; simpl in Hrem; try done.
  injection Hrem as <- <- <-.
  assert (owns (Some hd) L (e_addr e)) as Hown.
  { right. apply list_elem_of_fmap. exists e. split; [done|].
    by apply entry_of_elem in He as [? _]. }
  split.
  - eapply writes_within_trans.
    + eapply unlink_writes; [exact Hptrs|exact Hd].
    + eapply delete_ptr_writes; [exact Hdel|]. by intros a [= <-].
  - intros e0 [= <-]. apply delete_ptr_inv in Hdel as (a & [= <-] & ->). simpl.
    by rewrite lookup_delete_eq.
Qed.

(** X10. A [remove] that finds its key frees the node of that key and
    nothing else: the cell of the node is gone, the allocation frontier has
    not moved, the other elements keep their key, value and level, and every
    cell that does not belong to the list is as it was. *)
Theorem X10_remove_frees_the_node fuel s m L k e :
  Inv s m L → length L + 256 ≤ fuel → e ∈ L → e_key e = k →
  ∃ s' m',
    remove fuel k s m = Done (true, s', m') ∧
    cells m' !! e_addr e = None ∧
    next_free m' = next_free m ∧
    (∀ e', e' ∈ L → e_key e' ≠ k →
           node_hd m' (e_addr e') = Some (e_key e', e_val e', e_lvl e' + 1)) ∧
    (∀ a, ¬ owns (header_ s) L a → cells m' !! a = cells m !! a).
Proof.
  intros HI Hfuel He Hk.
  destruct (inv_shape _ _ _ HI) as (hd & _ & Hsh). pose proof (sh_sorted _ _ _ _ Hsh) as Hs.
  assert (entry_of k L = Some e) as Hent by (rewrite <- Hk; by apply entry_of_intro).
  destruct (remove_present fuel s m L k e HI Hfuel Hent)
    as (hd' & c' & m' & _ & Hrun & HI' & _).
  destruct (remove_writes fuel s m L k _ _ _ HI ltac:(lia) Hrun) as [[Hn Hw] Hfree].
  eexists _, m'. split; [exact Hrun|]. split; [by apply Hfree|]. split; [done|]. split.
  - intros e' He' Hk'. destruct (inv_shape _ _ _ HI') as (hd2 & _ & Hsh').
    apply (sh_nodes _ _ _ _ Hsh' e'). by apply remove_key_elem.
  - intros a Ha. by apply same_cell_cells, Hw.
Qed.

(** ** Several lists, several calls *)

(** X11. Two lists that live in one memory and share no node do not
    interfere: after a [put] or a [remove] on the first, the second
    represents the same elements at the same nodes, and [get] and [contains]
    on it answer as before. *)
Theorem X11_lists_do_not_interfere fuel sA LA sB LB m :
  Inv sA m LA → Inv sB m LB →
  (∀ a, owns (header_ sA) LA a → ¬ owns (header_ sB) LB a) →
  length LA + 256 ≤ fuel → length LB < fuel →
  (∀ k v sA' m', put fuel k v sA m = Done (sA', m') →
     Inv sB m' LB ∧
     ∀ k2, get fuel k2 sB m' = get fuel k2 sB m ∧
           contains fuel k2 sB m' = contains fuel k2 sB m) ∧
  (∀ k b sA' m', remove fuel k sA m = Done (b, sA', m') →
     Inv sB m' LB ∧
     ∀ k2, get fuel k2 sB m' = get fuel k2 sB m ∧
           contains fuel k2 sB m' = contains fuel k2 sB m).
Proof.
  intros HA HB Hdisj HfA HfB.
  assert (∀ m', frame (owns (header_ sA) LA) m m' → (next_free m' ≤ addr_limit)%N →
                Inv sB m' LB ∧
                ∀ k2, get fuel k2 sB m' = get fuel k2 sB m ∧
                      contains fuel k2 sB m' = contains fuel k2 sB m) as Hkeep.
  { intros m' Hfr Hlim.
    assert (Inv sB m' LB) as HB'.
    { eapply Inv_frame; [exact HB|exact Hfr| |done]. intros a Hb Ha. by eapply Hdisj. }
    split; [done|]. intros k2.
    rewrite !(get_spec fuel sB _ LB k2) by done.
    by rewrite !(contains_spec fuel sB _ LB k2) by done. }
  split.
  - intros k v sA' m' Hput. apply Hkeep; [by eapply put_frame; [| |exact Hput]; [done|lia]|].
    destruct (put_cases_length _ _ _ _ _ _ _ _ HA HfA Hput) as (L' & HI' & _).
    destruct (inv_shape _ _ _ HI') as (hd & _ & Hsh). apply (sh_space _ _ _ _ Hsh).
  - intros k b sA' m' Hrem.
    apply Hkeep; [by eapply remove_frame; [| |exact Hrem]; [done|lia]|].
    destruct (remove_returns fuel sA m LA k HA HfA) as (b0 & s0 & m0 & L' & Hrun & HI').
    rewrite Hrun in Hrem. injection Hrem as <- <- <-.
    destruct (inv_shape _ _ _ HI') as (hd & _ & Hsh). apply (sh_space _ _ _ _ Hsh).
Qed.

(** X12. A caller that performs any sequence of [put], [get], [contains],
    [remove], [size] and [empty] calls on a list gets the answers that the
    sequence has on the key-ordered list of (key, value, level) triples, and
    leaves a list that represents the resulting triples. *)
Theorem X12_calls_answer_as_the_view fuel os s m L answers s' m' :
  Inv s m L → length L + length os + 256 ≤ fuel →
  run_ops fuel os s m = Done (answers, s', m') →
  ∃ L', Inv s' m' L' ∧ abs_ops os (abs s L) = (answers, abs s' L').
Proof.
  intros HI Hfuel Hrun.
  destruct (run_ops_sound fuel os s m L answers s' m' HI Hfuel Hrun) as (L' & HI' & Habs & _).
  by exists L'.
Qed.

Lemma remove_key_insert_entry a k v lv L :
  increasing (e_key <$> L) → entry_of k L = None →
  remove_key k (insert_entry (mkEntry a k v lv) L) = L.
Proof.
  intros Hs Hnone. rewrite entry_of_None in Hnone.
  unfold remove_key, insert_entry. simpl.
  rewrite filter_app, filter_cons, decide_False by (simpl; intros H; by apply H).
  rewrite !filter_Forall_id; [by rewrite <- split_sorted| |].
  - apply Forall_forall. intros e [_ He]%list_elem_of_filter. by apply Hnone.
  - apply Forall_forall. intros e [He _]%list_elem_of_filter. lia.
Qed.

(** X13. [put] of a key the list does not have, followed by [remove] of
    that key, gives back the list: [remove] returns true, the same elements
    are at the same nodes, and [size], the level in use and the header are
    what they were before the [put].  The node that the [put] allocated
    has been freed again; what stays changed is the generator, which keeps
    the flips the [put] drew. *)
Theorem X13_put_then_remove_restores fuel s m L k v s1 m1 :
  Inv s m L → length L + 257 ≤ fuel → (∀ e, e ∈ L → e_key e ≠ k) →
  put fuel k v s m = Done (s1, m1) →
  ∃ m2,
    remove fuel k s1 m1
    = Done (true,
            mkSkipList (max_level_ s) (current_max_level_ s) (header_ s)
                       (element_count_ s) (gen_ s1), m2) ∧
    Inv (mkSkipList (max_level_ s) (current_max_level_ s) (header_ s)
                    (element_count_ s) (gen_ s1)) m2 L ∧
    gen_ s1 = snd (level_of flip (max_level_ s) (gen_ s)) ∧
    next_free m2 = (next_free m + 1)%N ∧
    cells m2 !! next_free m = None.
Proof.
  intros HI Hfuel Habs Hput. apply entry_of_None in Habs.
  destruct (inv_shape _ _ _ HI) as (hd & _ & Hsh). pose proof (sh_sorted _ _ _ _ Hsh) as Hs.
  assert (length L + 256 ≤ fuel) as Hf0 by lia.
  destruct (put_cases _ _ _ _ _ _ _ _ HI Hf0 Hput)
    as [(e & He & _)|(_ & Hlv & Hlim & -> & HI1)]; [congruence|].
  set (e := mkEntry (next_free m) k v (fst (level_of flip (max_level_ s) (gen_ s)))) in *.
  assert (entry_of k (insert_entry e L) = Some e) as Hent.
  { destruct (inv_shape _ _ _ HI1) as (hd1 & _ & Hsh1).
    apply (entry_of_intro (insert_entry e L) e (sh_sorted _ _ _ _ Hsh1)).
    apply insert_entry_elem; [done|by left]. }
  assert (length (insert_entry e L) + 256 ≤ fuel) as Hfuel1
    by (rewrite insert_entry_length by done; lia).
  pose proof (remove_present fuel _ m1 _ k e HI1 Hfuel1 Hent)
    as (hd1 & c' & m2 & _ & Hrun & HI2 & _).
  assert (length (insert_entry e L) < fuel) as Hfuel2 by lia.
  destruct (remove_writes fuel _ m1 _ k _ _ _ HI1 Hfuel2 Hrun) as [[Hn _] Hfree].
  destruct (put_new fuel s m L k v HI Hf0 Habs) as [Hok _].
  destruct (Hok Hlv Hlim) as (m1' & Hput' & Hnext & _).
  rewrite Hput in Hput'. injection Hput' as <-.
  simpl in *. unfold e in HI2. rewrite remove_key_insert_entry in HI2 by done.
  assert (c' = current_max_level_ s) as ->.
  { pose proof (inv_top _ _ _ HI2) as Htop. simpl in Htop.
    by rewrite Htop, (inv_top _ _ _ HI). }
  replace (element_count_ s + 1 - 1)%Z with (element_count_ s) in * by lia.
  exists m2. split; [done|]. split; [done|]. split; [done|]. split; [congruence|].
  by apply (Hfree e).
Qed.

(** ** [XSFSkipList] *)

Lemma shape_chains m hd M L :
  shape m hd M L →
  linked m 0 hd (e_addr <$> L) ∧ hd ∉ e_addr <$> L ∧
  ∀ i, i ≤ M →
    ∃ Ci, linked m i hd Ci ∧ increasing (key_at m <$> Ci) ∧
          Ci = filter (fun a => i ≤ node_level m a) (e_addr <$> L).
Proof.
  intros Hsh.
  split; [rewrite <- (at_level_0 L) at 1; apply (sh_linked _ _ _ _ Hsh); lia|].
  split; [pose proof (sh_nodup _ _ _ _ Hsh) as Hnd; by apply NoDup_cons in Hnd as [? _]|].
  intros i Hi. exists (e_addr <$> at_level i L).
  split; [by apply (sh_linked _ _ _ _ Hsh)|].
  assert (∀ e, e ∈ L → key_at m (e_addr e) = e_key e ∧ node_level m (e_addr e) = e_lvl e)
    as Hcell.
  { intros e He. pose proof (sh_nodes _ _ _ _ Hsh e He) as Hn.
    unfold node_hd in Hn. unfold key_at, node_level.
    destruct (cells m !! e_addr e) as [nd|]; [|done]. injection Hn as -> _ ->.
    split; [done|lia]. }
  split.
  - rewrite <- list_fmap_compose.
    erewrite (list_fmap_ext _ e_key (at_level i L)).
    + apply increasing_filter, (sh_sorted _ _ _ _ Hsh).
    + intros _ e He%list_elem_of_lookup_2%at_level_elem. simpl. by apply Hcell.
  - unfold at_level. symmetry. apply filter_fmap_on.
    intros e He. destruct (Hcell e He) as [_ ->]. done.
Qed.

Lemma XInv_XSpecInv x m L : XInv x m L → XSpecInv x m.
Proof.
  intros HI. destruct (xinv_shape _ _ _ HI) as (hd & Hhd & Hsh).
  pose proof (xinv_max _ _ _ HI) as Hmax.
  destruct (shape_chains _ _ _ _ Hsh) as (H0 & Hhdn & Hall).
  split; [pose proof (xinv_level _ _ _ HI); lia|].
  exists hd, (e_addr <$> L). split; [done|]. split; [done|]. split; [done|].
  split; [by rewrite length_fmap, (xinv_count _ _ _ HI)|].
  intros i Hi. apply Hall. lia.
Qed.

(** X14. The structural invariant of an [XSFSkipList]: the level in use is
    between 0 and [max_level_], [element_count_] is the number of nodes on
    the level-0 chain, and at every level the chain from the header is
    strictly increasing in key and is the part of the level-0 chain whose
    nodes reach that level.  Every [insert_element] that returns keeps it,
    and [delete_element] returns and keeps it. *)
Theorem X14_xsf_operations_preserve_invariant fuel x m L :
  XInv x m L → (Z.of_nat (length L) + xsf_max_level_ x + 2 ≤ Z.of_nat fuel)%Z →
  XSpecInv x m ∧
  (∀ k v r ret x' m' r',
     xsf_insert_element fuel k v x m r = Done (ret, x', m', r') →
     XSpecInv x' m' ∧ ∃ L', XInv x' m' L') ∧
  (∀ k, ∃ x' m' L',
     xsf_delete_element fuel k x m = Done (x', m') ∧
     XSpecInv x' m' ∧ XInv x' m' L').
Proof.
  intros HI Hfuel. pose proof (xinv_max _ _ _ HI) as Hmax.
  split; [by eapply XInv_XSpecInv|]. split.
  - intros k v r ret x' m' r' Hrun.
    destruct (xsf_insert_cases _ _ _ _ _ _ _ _ _ _ _ HI Hfuel Hrun)
      as [(e & nd & _ & _ & -> & _ & _ & _ & HI')|(_ & _ & _ & _ & lv & HI')];
      (split; [by eapply XInv_XSpecInv|by eexists]).
  - intros k. destruct (entry_of k L) as [e|] eqn:He.
    + destruct (xsf_delete_present fuel x m L k e HI Hfuel He)
        as (hd & c' & m' & _ & Hrun & HI' & _).
      eexists _, m', _. split; [exact Hrun|]. split; [by eapply XInv_XSpecInv|done].
    + exists x, m, L. split; [apply (xsf_delete_absent fuel x m L k HI); [lia|done]|].
      split; [by eapply XInv_XSpecInv|done].
Qed.

(** X15. [insert_element] of a key the list does not have, when [new]
    succeeds and the [int] counter does not overflow: it returns 0; the new
    node is allocated at the frontier with the key, the value and one forward
    cell per level up to the level drawn from [rand()]; the list is the old
    one with the new element between the smaller and the larger keys;
    [size] is one more, [skip_list_level_] is the larger of the old one and
    the drawn level, and [rand()] has been called once more than the drawn
    level. *)
Theorem X15_insert_element_absent_key fuel x m r L k v :
  XInv x m L → (Z.of_nat (length L) + xsf_max_level_ x + 2 ≤ Z.of_nat fuel)%Z →
  (∀ e, e ∈ L → e_key e ≠ k) →
  (next_free m < addr_limit)%N → (xsf_element_count_ x < INT_MAX)%Z →
  ∃ lv x' m',
    lv = fst (level_of xsf_flip (Z.to_nat (xsf_max_level_ x)) r) ∧
    xsf_insert_element fuel k v x m r = Done (0%Z, x', m', advance xsf_flip r (lv + 1)) ∧
    xsf_size x' = (xsf_size x + 1)%Z ∧
    xsf_skip_list_level_ x' = xsf_skip_list_level_ x `max` lv ∧
    xsf_max_level_ x' = xsf_max_level_ x ∧ xsf_header_ x' = xsf_header_ x ∧
    next_free m' = (next_free m + 1)%N ∧
    node_hd m' (next_free m) = Some (k, v, lv + 1) ∧
    XInv x' m' (below k L ++ mkEntry (next_free m) k v lv :: from k L).
Proof.
  intros HI Hfuel Habs Hlim Hcount. apply entry_of_None in Habs.
  destruct (xsf_insert_new fuel x m r L k v HI Hfuel Habs) as [Hok _].
  destruct (Hok Hlim Hcount) as (m' & Hrun & Hnext & HI').
  eexists _, _, m'. split; [done|]. split; [by rewrite <- level_of_state|]. simpl.
  do 5 (split; [done|]). split; [|exact HI'].
  destruct (xinv_shape _ _ _ HI') as (hd & _ & Hsh).
  apply (sh_nodes _ _ _ _ Hsh (mkEntry (next_free m) k v _)).
  apply elem_of_app. right. by left.
Qed.

(** ** The two implementations side by side *)

Lemma bindings_filter (P : Z * V → Prop) (Q : entry → Prop)
    `{∀ p, Decision (P p)} `{∀ e, Decision (Q e)} L :
  (∀ e, P (e_key e, e_val e) ↔ Q e) →
  filter P (bindings L) = bindings (filter Q L).
Proof. intros HPQ. unfold bindings. apply filter_fmap_on. intros e _. apply HPQ. Qed.

Lemma bindings_lookup k L :
  e_val <$> entry_of k L = snd <$> head (filter (fun p : Z * V => p.1 = k) (bindings L)).
Proof.
  unfold entry_of. rewrite (bindings_filter _ (fun e => e_key e = k)) by done.
  unfold bindings. rewrite fmap_head. by destruct (head _).
Qed.

Lemma bindings_set_val k v L :
  bindings (set_val k v L)
  = (fun p : Z * V => if decide (p.1 = k) then (k, v) else p) <$> bindings L.
Proof.
  unfold bindings, set_val. rewrite <- !list_fmap_compose. apply list_fmap_ext.
  intros _ e _. simpl. by destruct (decide (e_key e = k)).
Qed.

Lemma bindings_insert_entry e L :
  bindings (insert_entry e L)
  = filter (fun p : Z * V => (p.1 < e_key e)%Z) (bindings L)
    ++ (e_key e, e_val e) :: filter (fun p : Z * V => (e_key e ≤ p.1)%Z) (bindings L).
Proof.
  rewrite (bindings_filter _ (fun e' => (e_key e' < e_key e)%Z)) by done.
  rewrite (bindings_filter _ (fun e' => (e_key e ≤ e_key e')%Z)) by done.
  unfold insert_entry, bindings. by rewrite fmap_app, fmap_cons.
Qed.

Lemma bindings_remove_key k L :
  bindings (remove_key k L) = filter (fun p : Z * V => p.1 ≠ k) (bindings L).
Proof. by rewrite (bindings_filter _ (fun e => e_key e ≠ k)) by done. Qed.

Lemma bindings_present k L LX :
  bindings L = bindings LX → is_Some (entry_of k L) ↔ is_Some (entry_of k LX).
Proof.
  intros HB. rewrite <- !(fmap_is_Some e_val), !bindings_lookup. by rewrite HB.
Qed.

(** X16. A [SkipList] and an [XSFSkipList] that hold the same keys and
    values answer alike: [search_element] finds what [get] returns and the
    sizes are equal.  After [put(k, v)] on the one and [insert_element(k, v)]
    on the other they again hold the same keys and values, whatever levels
    the two random sources gave, and [insert_element] has returned 1 exactly
    when the key was there; the same after [remove(k)] and
    [delete_element(k)]. *)
Theorem X16_two_implementations_agree fuel s m L x mx LX :
  Inv s m L → XInv x mx LX → bindings L = bindings LX →
  length L + 256 ≤ fuel →
  (Z.of_nat (length LX) + xsf_max_level_ x + 2 ≤ Z.of_nat fuel)%Z →
  (∀ k, xsf_search_element fuel k x mx = get fuel k s m) ∧
  xsf_size x = size s ∧
  (∀ k v r s' m' ret x' mx' r',
     put fuel k v s m = Done (s', m') →
     xsf_insert_element fuel k v x mx r = Done (ret, x', mx', r') →
     (ret = 1%Z ↔ contains fuel k s m = Done true) ∧
     ∃ L' LX', Inv s' m' L' ∧ XInv x' mx' LX' ∧ bindings L' = bindings LX') ∧
  (∀ k b s' m' x' mx',
     remove fuel k s m = Done (b, s', m') →
     xsf_delete_element fuel k x mx = Done (x', mx') →
     ∃ L' LX', Inv s' m' L' ∧ XInv x' mx' LX' ∧ bindings L' = bindings LX').
Proof.
  intros HI HXI HB Hfuel HXfuel. pose proof (xinv_max _ _ _ HXI) as Hmax.
  assert (length L < fuel) as Hf1 by lia. assert (length LX < fuel) as Hf2 by lia.
  split; [|split; [|split]].
  - intros k. rewrite (xsf_search_element_spec fuel x mx LX k HXI Hf2).
    rewrite (get_spec fuel s m L k HI Hf1). by rewrite !bindings_lookup, HB.
  - unfold xsf_size, size. rewrite (xinv_count _ _ _ HXI), (inv_count _ _ _ HI).
    apply (f_equal length) in HB. unfold bindings in HB. rewrite !length_fmap in HB.
    by rewrite HB.
  - intros k v r s' m' ret x' mx' r' Hput Hins.
    pose proof (bindings_present k L LX HB) as Hpres.
    rewrite (contains_spec fuel s m L k HI Hf1).
    destruct (put_cases _ _ _ _ _ _ _ _ HI Hfuel Hput)
      as [(e & He & -> & _ & HI')|(Hnone & _ & _ & -> & HI')];
      destruct (xsf_insert_cases _ _ _ _ _ _ _ _ _ _ _ HXI HXfuel Hins)
        as [(ex & nd & Hex & -> & -> & _ & _ & _ & HXI')
           |(Hxnone & -> & _ & _ & lv & HXI')].
    + split; [split; [intros _|done]; by rewrite He, bool_decide_eq_true_2 by by eexists|].
      eexists _, _. split; [exact HI'|]. split; [exact HXI'|].
      by rewrite !bindings_set_val, HB.
    + exfalso. rewrite He, Hxnone in Hpres. destruct Hpres as [Hp _].
      by destruct (Hp ltac:(by eexists)).
    + exfalso. rewrite Hnone, Hex in Hpres. destruct Hpres as [_ Hp].
      by destruct (Hp ltac:(by eexists)).
    + split.
      { rewrite Hnone. split; [done|].
        rewrite bool_decide_eq_false_2 by (by intros [? ?]). by intros [=]. }
      eexists _, _. split; [exact HI'|]. split; [exact HXI'|].
      by rewrite !bindings_insert_entry, HB.
  - intros k b s' m' x' mx' Hrem Hdel.
    pose proof (bindings_present k L LX HB) as Hpres.
    destruct (remove_cases _ _ _ _ _ _ _ _ HI Hfuel Hrem)
      as [(e & He & _ & -> & HI')|(Hnone & _ & -> & ->)].
    + destruct (entry_of k LX) as [ex|] eqn:Hex.
      2:{ exfalso. rewrite He in Hpres. destruct Hpres as [Hp _].
          by destruct (Hp ltac:(by eexists)). }
      destruct (xsf_delete_present fuel x mx LX k ex HXI HXfuel Hex)
        as (hd & c' & mx1 & _ & Hrun & HXI' & _).
      rewrite Hrun in Hdel. injection Hdel as <- <-.
      eexists _, _. split; [exact HI'|]. split; [exact HXI'|].
      by rewrite !bindings_remove_key, HB.
    + destruct (entry_of k LX) as [ex|] eqn:Hex.
      { exfalso. rewrite Hnone in Hpres. destruct Hpres as [_ Hp].
        by destruct (Hp ltac:(by eexists)). }
      rewrite (xsf_delete_absent fuel x mx LX k HXI Hf2 Hex) in Hdel.
      injection Hdel as <- <-. by exists L, LX.
Qed.

(** ** What [delete_element] does to memory *)

Lemma xsf_delete_writes fuel x m L k x' m' :
  XInv x m L → length L < fuel →
  xsf_delete_element fuel k x m = Done (x', m') →
  writes_within (owns (xsf_header_ x) L) m m' ∧
  ∀ e, entry_of k L = Some e → cells m' !! e_addr e = None.
Proof.
  intros HI Hfuel Hdel.
  destruct (xinv_shape _ _ _ HI) as (hd & Hhd & Hsh).
  pose proof (xinv_max _ _ _ HI) as Hmax. pose proof (xinv_level _ _ _ HI) as Hlevel.
  destruct (xsf_find fuel x m L k HI Hfuel)
    as (hd' & preds & Hhd' & Hupd & Hrun & Hlen & Hlook0).
  assert (hd' = hd) as -> by congruence.
  destruct (collect_levels_spec m hd _ L k fuel Hsh Hfuel (xsf_skip_list_level_ x) hd
              (replicate (Z.to_nat (xsf_max_level_ x) + 1) None))
    as (preds' & Hrun' & _ & Hlook); [lia|by rewrite length_replicate
                                     |by exists [], (at_level (xsf_skip_list_level_ x) (below k L))|].
  rewrite Hhd in Hrun. rewrite Hrun in Hrun'. injection Hrun' as <-.
  assert (ptrs_in (owns (Some hd) L) preds) as Hptrs.
  { intros j p Hj. rewrite Hlook in Hj.
    destruct (decide (j ≤ xsf_skip_list_level_ x)).
    - injection Hj as <-. destruct (pred_at_elem hd j k L) as [->|(e & He & ->)]; [by left|].
      right. apply list_elem_of_fmap. by exists e.
    - apply lookup_replicate in Hj as [[=] _]. }
  destruct (xsf_candidate m hd _ L k Hsh) as (Hc1 & Hc2 & Hc3).
  unfold xsf_delete_element in Hdel. rewrite Hupd in Hdel. simpl in Hdel.
  rewrite Hhd in Hdel.
  rewrite (xsf_descend_collect _ _ _ _ _ _ _ Hrun) in Hdel.
  rewrite (vec_get_Done _ _ _ (Hlook0 0 ltac:(lia))) in Hdel. simpl in Hdel.
  rewrite Hc1 in Hdel. simpl in Hdel. rewrite Hc2 in Hdel. rewrite Hhd.
  destruct (entry_of k L) as [e|] eqn:He.
  2:{ rewrite bool_decide_eq_false_2 in Hdel by by intros [? ?].
      injection Hdel as <- <-. split; [apply writes_within_refl|done]. }
  rewrite bool_decide_eq_true_2 in Hdel by by eexists.
  rewrite Hc3 in Hdel by by eexists. simpl in Hdel.
  match type of Hdel with
  | bind ?loop _ = _ => destruct loop as [m1| | |] eqn:Hd; simpl in Hdel; try done
  end.
  destruct (adjust_max_level_loop fuel m1 _ _) as [lvl| | |]; simpl in Hdel; try done.
  destruct (delete_ptr m1 (Some (e_addr e))) as [m2| | |] eqn:Hfree; simpl in Hdel; try done.
  destruct (int_decr _) as [cnt| | |]; simpl in Hdel; try done.
  injection Hdel as <- <-.
  assert (owns (Some hd) L (e_addr e)) as Hown.
  { right. apply list_elem_of_fmap. exists e. split; [done|].
    by apply entry_of_elem in He as [? _]. }
  split.
  - eapply writes_within_trans.
    + eapply unlink_writes; [exact Hptrs|exact Hd].
    + eapply delete_ptr_writes; [exact Hfree|]. by intros a [= <-].
  - intros e0 [= <-]. apply delete_ptr_inv in Hfree as (a & [= <-] & ->). simpl.
    by rewrite lookup_delete_eq.
Qed.

(** X17. A [delete_element] that finds its key frees the node of that key
    and nothing else: the cell of the node is gone, the allocation frontier
    has not moved, the other elements keep their key, value and level, and
    every cell that does not belong to the list is as it was. *)
Theorem X17_delete_element_frees_the_node fuel x m L k e :
  XInv x m L → (Z.of_nat (length L) + xsf_max_level_ x + 2 ≤ Z.of_nat fuel)%Z →
  e ∈ L → e_key e = k →
  ∃ x' m',
    xsf_delete_element fuel k x m = Done (x', m') ∧
    cells m' !! e_addr e = None ∧
    next_free m' = next_free m ∧
    (∀ e', e' ∈ L → e_key e' ≠ k →
           node_hd m' (e_addr e') = Some (e_key e', e_val e', e_lvl e' + 1)) ∧
    (∀ a, ¬ owns (xsf_header_ x) L a → cells m' !! a = cells m !! a).
Proof.
  intros HI Hfuel He Hk. pose proof (xinv_max _ _ _ HI) as Hmax.
  destruct (xinv_shape _ _ _ HI) as (hd & _ & Hsh). pose proof (sh_sorted _ _ _ _ Hsh) as Hs.
  assert (entry_of k L = Some e) as Hent by (rewrite <- Hk; by apply entry_of_intro).
  destruct (xsf_delete_present fuel x m L k e HI Hfuel Hent)
    as (hd' & c' & m' & _ & Hrun & HI' & _).
  assert (length L < fuel) as Hf by lia.
  destruct (xsf_delete_writes fuel x m L k _ _ HI Hf Hrun) as [[Hn Hw] Hfree].
  eexists _, m'. split; [exact Hrun|]. split; [by apply Hfree|]. split; [done|]. split.
  - intros e' He' Hk'. destruct (xinv_shape _ _ _ HI') as (hd2 & _ & Hsh').
    apply (sh_nodes _ _ _ _ Hsh' e'). by apply remove_key_elem.
  - intros a Ha. by apply same_cell_cells, Hw.
Qed.

(** ** Other keys of an [XSFSkipList] *)

(** X21. For a key [k2] other than [k], [search_element(k2)] finds the
    same after an [insert_element(k, v)] that returned, and after
    [delete_element(k)], as before. *)
Theorem X21_xsf_other_keys_untouched fuel x m L k k2 v r :
  XInv x m L → (Z.of_nat (length L) + xsf_max_level_ x + 2 ≤ Z.of_nat fuel)%Z →
  k2 ≠ k →
  (∀ ret x' m' r',
     xsf_insert_element fuel k v x m r = Done (ret, x', m', r') →
     xsf_search_element fuel k2 x' m' = xsf_search_element fuel k2 x m) ∧
  (∀ x' m',
     xsf_delete_element fuel k x m = Done (x', m') →
     xsf_search_element fuel k2 x' m' = xsf_search_element fuel k2 x m).
Proof.
  intros HI Hfuel Hne. pose proof (xinv_max _ _ _ HI) as Hmax.
  destruct (xinv_shape _ _ _ HI) as (hd & _ & Hsh). pose proof (sh_sorted _ _ _ _ Hsh) as Hs.
  assert (length L < fuel) as Hf by lia.
  rewrite (xsf_search_element_spec fuel x m L k2 HI Hf). split.
  - intros ret x' m' r' Hrun.
    destruct (xsf_insert_cases _ _ _ _ _ _ _ _ _ _ _ HI Hfuel Hrun)
      as [(e & nd & He & _ & -> & _ & _ & _ & HI')|(_ & _ & _ & _ & lv & HI')].
    + rewrite (xsf_search_element_spec fuel x m' _ k2 HI')
        by (rewrite set_val_length; lia).
      apply entry_of_elem in He as [_ Hk].
      by destruct (entry_of_other k k2 v e L Hs Hne Hk) as (-> & _).
    + rewrite (xsf_search_element_spec fuel x' m' _ k2 HI')
        by (rewrite insert_entry_length by done; lia).
      by destruct (entry_of_other k k2 v (mkEntry (next_free m) k v lv) L Hs Hne eq_refl)
        as (_ & -> & _).
  - intros x' m' Hdel. destruct (entry_of k L) as [e|] eqn:He.
    + destruct (xsf_delete_present fuel x m L k e HI Hfuel He)
        as (hd' & c' & m1 & _ & Hrun & HI' & _).
      rewrite Hrun in Hdel. injection Hdel as <- <-.
      pose proof (remove_key_length k L e Hs He) as Hlen.
      rewrite (xsf_search_element_spec fuel _ m1 _ k2 HI') by lia.
      apply entry_of_elem in He as [_ Hk].
      by destruct (entry_of_other k k2 v e L Hs Hne Hk) as (_ & _ & ->).
    + rewrite (xsf_delete_absent fuel x m L k HI Hf He) in Hdel.
      injection Hdel as <- <-. by rewrite (xsf_search_element_spec fuel x m L k2 HI Hf).
Qed.

(** ** Taking a key out and putting it back *)

Lemma filter_Forall_nil {A : Type} (P : A → Prop) `{∀ x, Decision (P x)} (l : list A) :
  Forall (fun x => ¬ P x) l → filter P l = [].
Proof.
  induction 1 as [|x l Hx _ IH]; [done|]. by rewrite filter_cons, decide_False.
Qed.

Lemma insert_after_remove e' L k e :
  increasing (e_key <$> L) → entry_of k L = Some e → e_key e' = k →
  insert_entry e' (remove_key k L) = below k L ++ e' :: remove_key k (from k L) ∧
  L = below k L ++ e :: remove_key k (from k L).
Proof.
  intros Hs He Hk'. destruct (remove_key_split k L e Hs He) as (R & Hfrom & HL' & HR).
  assert (remove_key k (from k L) = R) as HRk.
  { rewrite Hfrom. unfold remove_key. rewrite filter_cons, decide_False.
    - apply filter_Forall_id. eapply Forall_impl; [exact HR|]. simpl. intros; lia.
    - apply entry_of_elem in He as [_ Hk]. by intros H; apply H. }
  rewrite HRk. split; [|rewrite <- Hfrom; by apply split_sorted].
  unfold insert_entry. rewrite HL', Hk'. unfold below, from.
  rewrite !filter_app.
  rewrite (filter_Forall_id (fun e0 => (e_key e0 < k)%Z) (filter _ L))
    by apply below_Forall.
  assert (filter (fun e0 => (e_key e0 < k)%Z) R = []) as ->.
  { apply filter_Forall_nil. eapply Forall_impl; [exact HR|]. simpl. intros; lia. }
  assert (filter (fun e0 => (k ≤ e_key e0)%Z) (filter (fun e0 => (e_key e0 < k)%Z) L) = [])
    as ->.
  { apply filter_Forall_nil. eapply Forall_impl; [apply below_Forall|]. simpl. intros; lia. }
  rewrite (filter_Forall_id (fun e0 => (k ≤ e_key e0)%Z) R)
    by (eapply Forall_impl; [exact HR|]; simpl; intros; lia).
  by rewrite app_nil_r.
Qed.

(** X22. [remove(k)] of a key the list has, followed by [put] of that key
    with the value it had, gives a list with the same keys and values in the
    same order and the same [size]; the node of the key is a new one, with a
    newly drawn level. *)
Theorem X22_remove_then_put_restores_bindings fuel s m L k e s1 m1 s2 m2 :
  Inv s m L → length L + 256 ≤ fuel → e ∈ L → e_key e = k →
  remove fuel k s m = Done (true, s1, m1) →
  put fuel k (e_val e) s1 m1 = Done (s2, m2) →
  ∃ L2, Inv s2 m2 L2 ∧ bindings L2 = bindings L ∧ size s2 = size s ∧
        get fuel k s2 m2 = get fuel k s m.
Proof.
  intros HI Hfuel HeL Hk Hrem Hput.
  destruct (inv_shape _ _ _ HI) as (hd & _ & Hsh). pose proof (sh_sorted _ _ _ _ Hsh) as Hs.
  assert (entry_of k L = Some e) as He by (rewrite <- Hk; by apply entry_of_intro).
  destruct (remove_cases _ _ _ _ _ _ _ _ HI Hfuel Hrem)
    as [(e0 & He0 & _ & -> & HI1)|(Hnone & _)]; [|congruence].
  pose proof (remove_key_length k L e Hs He) as Hlen.
  assert (length (remove_key k L) + 256 ≤ fuel) as Hf1 by lia.
  assert (entry_of k (remove_key k L) = None) as Hgone.
  { apply entry_of_None. by intros e' [? _]%remove_key_elem. }
  destruct (put_cases _ _ _ _ _ _ _ _ HI1 Hf1 Hput)
    as [(e1 & He1 & _)|(_ & _ & _ & -> & HI2)]; [congruence|].
  set (e' := mkEntry _ k (e_val e) _) in HI2.
  destruct (insert_after_remove e' L k e Hs He eq_refl) as [Hins HL].
  eexists. split; [exact HI2|]. split; [|split].
  - rewrite Hins. rewrite HL at 3. unfold bindings. rewrite !fmap_app, !fmap_cons.
    simpl. by rewrite Hk.
  - unfold size. simpl. lia.
  - assert (length (insert_entry e' (remove_key k L)) < fuel) as Hf2.
    { destruct (inv_shape _ _ _ HI1) as (hd1 & _ & Hsh1).
      rewrite insert_entry_length by apply (sh_sorted _ _ _ _ Hsh1). lia. }
    rewrite (get_spec fuel _ m2 _ k HI2 Hf2).
    assert (length L < fuel) as Hf0 by lia.
    rewrite (get_spec fuel s m L k HI Hf0), He.
    destruct (inv_shape _ _ _ HI2) as (hd2 & _ & Hsh2).
    change k with (e_key e') at 1.
    rewrite (entry_of_intro _ e' (sh_sorted _ _ _ _ Hsh2)); [done|].
    rewrite Hins. apply elem_of_app. right. by left.
Qed.

(** ** Several [XSFSkipList]s in one memory *)

Lemma XInv_frame x m m' L (own : addr → Prop) :
  XInv x m L → frame own m m' →
  (∀ a, owns (xsf_header_ x) L a → ¬ own a) →
  (next_free m' ≤ addr_limit)%N →
  XInv x m' L.
Proof.
  intros HI [Hle Hfr] Hdisj Hlim. destruct HI as [? ? ? ? (hd & Hhd & Hsh)].
  constructor; try done. exists hd. split; [done|].
  eapply shape_frame; try done. intros a Ha.
  destruct (sh_alloc _ _ _ _ Hsh) as [H1 H2]. apply Hfr.
  - apply Hdisj. rewrite Hhd. apply elem_of_cons in Ha as [->|Ha]; [by left|by right].
  - apply elem_of_cons in Ha as [->|(e & -> & He)%list_elem_of_fmap]; [done|by apply H2].
Qed.

Lemma xsf_insert_frame fuel x m r L k v ret x' m' r' :
  XInv x m L → length L < fuel →
  xsf_insert_element fuel k v x m r = Done (ret, x', m', r') →
  frame (owns (xsf_header_ x) L) m m'.
Proof.
  intros HI Hfuel Hins.
  destruct (xinv_shape _ _ _ HI) as (hd & Hhd & Hsh).
  pose proof (xinv_max _ _ _ HI) as Hmax. pose proof (xinv_level _ _ _ HI) as Hlevel.
  destruct (xsf_find fuel x m L k HI Hfuel)
    as (hd' & preds & Hhd' & Hupd & Hrun & Hlen & Hlook0).
  assert (hd' = hd) as -> by congruence.
  destruct (collect_levels_spec m hd _ L k fuel Hsh Hfuel (xsf_skip_list_level_ x) hd
              (replicate (Z.to_nat (xsf_max_level_ x) + 1) None))
    as (preds' & Hrun' & _ & Hlook); [lia|by rewrite length_replicate
                                     |by exists [], (at_level (xsf_skip_list_level_ x) (below k L))|].
  rewrite Hhd in Hrun. rewrite Hrun in Hrun'. injection Hrun' as <-.
  assert (ptrs_in (owns (Some hd) L) preds) as Hptrs.
  { intros j p Hj. rewrite Hlook in Hj.
    destruct (decide (j ≤ xsf_skip_list_level_ x)).
    - injection Hj as <-. destruct (pred_at_elem hd j k L) as [->|(e & He & ->)]; [by left|].
      right. apply list_elem_of_fmap. by exists e.
    - apply lookup_replicate in Hj as [[=] _]. }
  destruct (xsf_candidate m hd _ L k Hsh) as (Hc1 & Hc2 & Hc3).
  unfold xsf_insert_element in Hins. rewrite Hupd in Hins. simpl in Hins.
  rewrite Hhd in Hins.
  rewrite (xsf_descend_collect _ _ _ _ _ _ _ Hrun) in Hins.
  rewrite (vec_get_Done _ _ _ (Hlook0 0 ltac:(lia))) in Hins. simpl in Hins.
  rewrite Hc1 in Hins. simpl in Hins. rewrite Hc2 in Hins. rewrite Hhd.
  destruct (entry_of k L) as [e|] eqn:He.
  - rewrite bool_decide_eq_true_2 in Hins by by eexists.
    rewrite Hc3 in Hins by by eexists. simpl in Hins.
    destruct (set_value m (Some (e_addr e)) v) as [m1| | |] eqn:Hset; simpl in Hins; try done.
    injection Hins as _ _ <- _.
    destruct (update_existing_node_writes (owns (Some hd) L) _ _ _ _ Hset) as [Hn Hw].
    { intros a [= <-]. right. apply list_elem_of_fmap. exists e. split; [done|].
      by apply entry_of_elem in He as [? _]. }
    split; [lia|]. intros a Ha _. by apply Hw.
  - rewrite bool_decide_eq_false_2 in Hins by by intros [? ?].
    destruct (xsf_get_random_level fuel x r) as [[lv r1]| | |]; simpl in Hins; try done.
    match type of Hins with
    | bind ?raise _ = _ =>
        destruct raise as [[preds1 x1]| | |] eqn:Hraise; simpl in Hins; try done
    end.
    assert (ptrs_in (owns (Some hd) L) preds1) as Hptrs1.
    { destruct (xsf_skip_list_level_ x <? lv); [|by injection Hraise as <- _].
      destruct (for_up int_succ fuel _ lv _ preds) as [p1| | |] eqn:Hloop;
        simpl in Hraise; try done. injection Hraise as <- _.
      eapply (for_up_preserves (ptrs_in (owns (Some hd) L))); [|exact Hloop|exact Hptrs].
      intros i p p' Hset Hp. cbv beta in Hset.
      eapply vec_set_ptrs_in; [exact Hset|exact Hp|].
      intros a [= <-]. by left. }
    unfold xsf_create_node, xsf_new_node in Hins.
    destruct (INT_MAX <=? Z.of_nat lv)%Z; [done|].
    destruct (Z.of_nat lv + 1 <? 0)%Z; [done|].
    replace (Z.to_nat (Z.of_nat lv + 1)) with (lv + 1) in Hins by lia.
    fold (create_node k v lv m) in Hins.
    destruct (create_node k v lv m) as [[nn m1]| | |] eqn:Hc; simpl in Hins; try done.
    match type of Hins with
    | bind ?splice _ = _ => destruct splice as [m2| | |] eqn:Hi; simpl in Hins; try done
    end.
    destruct (int_incr _) as [cnt| | |]; simpl in Hins; try done.
    injection Hins as _ _ <- _.
    apply create_node_inv in Hc as (-> & Hn1 & Hsame1).
    set (T := fun a => a = next_free m ∨ owns (Some hd) L a).
    assert (writes_within T m1 m2) as [Hn2 Hw2].
    { eapply (for_up_preserves (writes_within T m1)); [|exact Hi|apply writes_within_refl].
      intros i mi mi' Hbody Hwi. cbv beta in Hbody.
      destruct (vec_get preds1 i) as [p| | |] eqn:Hp; simpl in Hbody; try done.
      destruct (load_forward mi p i) as [nxt| | |]; simpl in Hbody; try done.
      destruct (store_forward mi (Some (next_free m)) i nxt) as [mj| | |] eqn:Hs1;
        simpl in Hbody; try done.
      eapply writes_within_trans; [exact Hwi|].
      eapply writes_within_trans.
      - eapply store_forward_writes; [exact Hs1|]. intros a [= <-]. by left.
      - eapply store_forward_writes; [exact Hbody|]. intros a ->. right.
        unfold vec_get in Hp. destruct (preds1 !! i) as [q|] eqn:Hq; [|done].
        injection Hp as ->. by eapply Hptrs1. }
    split; [lia|]. intros a Ha' Hlt.
    eapply same_cell_trans; [apply Hsame1; lia|]. apply Hw2.
    intros [->|Hown]; [lia|done].
Qed.

Lemma XSFSkipList_new_inv max_level m x m' :
  (0 ≤ max_level < INT_MAX)%Z →
  XSFSkipList_new max_level m = Done (x, m') →
  x = mkXSF max_level 0 (Some (next_free m)) 0 ∧
  XInv x m' [] ∧
  next_free m' = (next_free m + 1)%N ∧
  ∀ a, a ≠ next_free m → same_cell m m' a.
Proof.
  intros Hmax Hnew. destruct (decide (next_free m < addr_limit)%N) as [Hlim|Hlim].
  - destruct (XSFSkipList_new_spec max_level m Hmax Hlim) as (m1 & Hrun & HI).
    rewrite Hrun in Hnew. injection Hnew as <- <-. split; [done|]. split; [done|].
    unfold XSFSkipList_new, xsf_new_node, new_node in Hrun.
    destruct (INT_MAX <=? max_level)%Z; [done|].
    destruct (max_level + 1 <? 0)%Z; [done|].
    destruct (next_free m <? addr_limit)%N; [|done]. simpl in Hrun.
    injection Hrun as <-. split; [done|]. intros a Ha.
    unfold same_cell, node_hd, fwd_at. simpl. by rewrite lookup_insert_ne.
  - unfold XSFSkipList_new, xsf_new_node, new_node in Hnew.
    destruct (INT_MAX <=? max_level)%Z; [done|].
    destruct (max_level + 1 <? 0)%Z; [done|].
    by destruct (N.ltb_spec (next_free m) addr_limit); [lia|].
Qed.

(** X23. Two [XSFSkipList]s that live in one memory and share no node do
    not touch each other's nodes: after an [insert_element] or a
    [delete_element] on the first, the second represents the same elements at
    the same nodes and [search_element] on it finds the same.  (What they do
    share is [rand()]: the levels the second will draw depend on how often
    the first has inserted.) *)
Theorem X23_xsf_lists_share_no_memory fuel xA LA xB LB m :
  XInv xA m LA → XInv xB m LB →
  (∀ a, owns (xsf_header_ xA) LA a → ¬ owns (xsf_header_ xB) LB a) →
  (Z.of_nat (length LA) + xsf_max_level_ xA + 2 ≤ Z.of_nat fuel)%Z → length LB < fuel →
  (∀ k v r ret xA' m' r',
     xsf_insert_element fuel k v xA m r = Done (ret, xA', m', r') →
     XInv xB m' LB ∧
     ∀ k2, xsf_search_element fuel k2 xB m' = xsf_search_element fuel k2 xB m) ∧
  (∀ k xA' m',
     xsf_delete_element fuel k xA m = Done (xA', m') →
     XInv xB m' LB ∧
     ∀ k2, xsf_search_element fuel k2 xB m' = xsf_search_element fuel k2 xB m).
Proof.
  intros HA HB Hdisj HfA HfB. pose proof (xinv_max _ _ _ HA) as Hmax.
  assert (length LA < fuel) as HfA' by lia.
  assert (∀ m', frame (owns (xsf_header_ xA) LA) m m' → (next_free m' ≤ addr_limit)%N →
                XInv xB m' LB ∧
                ∀ k2, xsf_search_element fuel k2 xB m' = xsf_search_element fuel k2 xB m)
    as Hkeep.
  { intros m' Hfr Hlim.
    assert (XInv xB m' LB) as HB'.
    { eapply XInv_frame; [exact HB|exact Hfr| |done]. intros a Hb Ha. by eapply Hdisj. }
    split; [done|]. intros k2.
    by rewrite !(xsf_search_element_spec fuel xB _ LB k2) by done. }
  split.
  - intros k v r ret xA' m' r' Hins.
    apply Hkeep; [by eapply xsf_insert_frame; [| |exact Hins]|].
    destruct (xsf_insert_cases _ _ _ _ _ _ _ _ _ _ _ HA HfA Hins)
      as [(e & nd & _ & _ & -> & _ & _ & _ & HI')|(_ & _ & _ & _ & lv & HI')];
      destruct (xinv_shape _ _ _ HI') as (hd & _ & Hsh); apply (sh_space _ _ _ _ Hsh).
  - intros k xA' m' Hdel.
    destruct (xsf_delete_writes fuel xA m LA k _ _ HA HfA' Hdel) as [[Hn Hw] _].
    apply Hkeep.
    + split; [lia|]. intros a Ha _. by apply Hw.
    + rewrite Hn. destruct (xinv_shape _ _ _ HA) as (hd & _ & Hsh).
      apply (sh_space _ _ _ _ Hsh).
Qed.

End SkipList.

(** * A worked scenario

    Values are strings, the generator is a finite list of flips (all later
    flips fail), and [rand()] reads from a list of integers. *)

Definition coin_list (g : list bool) : bool * list bool :=
  match g with
  | [] => (false, [])
  | b :: g' => (b, g')
  end.

Definition rand_list (r : list Z) : Z * list Z :=
  match r with
  | [] => (0%Z, [])
  | x :: r' => (x, r')
  end.

Definition done_or {A : Type} (d : A) (r : res A) : A :=
  match r with
  | Done a => a
  | _ => d
  end.

Definition ex_seed : list bool :=
  [true; false; false; true; true; true; true; true; false].

Definition ex_m0 : @mem String.string := mkMem ∅ 0%N.

(** [SkipList list(4, seed)] *)
Definition ex_st0 : SkipList * mem :=
  Eval vm_compute in
    done_or (mkSkipList 0 0 None 0%Z [], ex_m0)
            (SkipList_new String.EmptyString 4 ex_seed ex_m0).

(** [put(3, "c")], [put(1, "a")], [put(2, "b")] *)
Definition ex_st1 : SkipList * mem :=
  Eval vm_compute in
    done_or ex_st0 (put coin_list 300 3 "c"%string ex_st0.1 ex_st0.2).

Definition ex_st2 : SkipList * mem :=
  Eval vm_compute in
    done_or ex_st1 (put coin_list 300 1 "a"%string ex_st1.1 ex_st1.2).

Definition ex_st3 : SkipList * mem :=
  Eval vm_compute in
    done_or ex_st2 (put coin_list 300 2 "b"%string ex_st2.1 ex_st2.2).

Definition ex_c : entry := mkEntry 1%N 3 "c"%string 1.
Definition ex_a : entry := mkEntry 2%N 1 "a"%string 0.
Definition ex_b : entry := mkEntry 3%N 2 "b"%string 4.

Lemma ex_Inv0 : Inv ex_st0.1 ex_st0.2 [].
Proof.
  destruct (SkipList_new_spec String.EmptyString 4 ex_seed ex_m0) as (m' & Hrun & HI);
    [done|].
  vm_compute in Hrun. injection Hrun as <-. exact HI.
Qed.

Lemma ex_Inv1 : Inv ex_st1.1 ex_st1.2 [ex_c].
Proof.
  destruct (put_new coin_list 300 ex_st0.1 ex_st0.2 [] 3
              "c"%string ex_Inv0) as [Hok _];
    [simpl; lia|done|].
  destruct Hok as (m' & Hrun & _ & HI); [simpl; lia|done|].
  vm_compute in Hrun. injection Hrun as <-. exact HI.
Qed.

Lemma ex_Inv2 : Inv ex_st2.1 ex_st2.2 [ex_a; ex_c].
Proof.
  destruct (put_new coin_list 300 ex_st1.1 ex_st1.2 [ex_c] 1
              "a"%string ex_Inv1) as [Hok _];
    [simpl; lia|done|].
  destruct Hok as (m' & Hrun & _ & HI); [simpl; lia|done|].
  vm_compute in Hrun. injection Hrun as <-. exact HI.
Qed.

Lemma ex_Inv3 : Inv ex_st3.1 ex_st3.2 [ex_a; ex_b; ex_c].
Proof.
  destruct (put_new coin_list 300 ex_st2.1 ex_st2.2 [ex_a; ex_c] 2
              "b"%string ex_Inv2) as [Hok _];
    [simpl; lia|done|].
  destruct Hok as (m' & Hrun & _ & HI); [simpl; lia|done|].
  vm_compute in Hrun. injection Hrun as <-. exact HI.
Qed.

(** [remove(2)], the only node of level 4 *)
Definition ex_st4 : SkipList * mem :=
  Eval vm_compute in
    match remove 300 2 ex_st3.1 ex_st3.2 with
    | Done (_, s, m) => (s, m)
    | _ => ex_st3
    end.

(** The scenario of the specification: three insertions, a lookup, the
    size, a removal and a second removal of the same key. *)
Example scenario :
  get 300 2 ex_st3.1 ex_st3.2 = Done (Some "b"%string) ∧
  size ex_st3.1 = 3%Z ∧
  (∃ s' m',
     remove 300 1 ex_st3.1 ex_st3.2 = Done (true, s', m') ∧
     size s' = 2%Z ∧
     get 300 1 s' m' = Done None ∧
     remove 300 1 s' m' = Done (false, s', m')).
Proof.
  split; [by vm_compute|]. split; [done|].
  destruct (remove 300 1 ex_st3.1 ex_st3.2) as [[[b s'] m']| | |] eqn:Hrem;
    vm_compute in Hrem; try done.
  injection Hrem as <- <- <-. eexists _, _. split; [reflexivity|].
  split; [done|]. split; by vm_compute.
Qed.

(** ** The same scenario on an [XSFSkipList]

    [XSFSkipList<int, string> a(4)], then [insert_element] of the same three
    pairs, with [rand()] returning numbers that give the same levels. *)

Definition ex_xa : XSFSkipList * mem :=
  Eval vm_compute in
    done_or (mkXSF 0 0 None 0, ex_m0) (XSFSkipList_new String.EmptyString 4 ex_m0).

Definition ex_rand : list Z := [1; 0; 0; 1; 1; 1; 1; 0]%Z.

Definition ex_insert (k : Z) (v : String.string) (st : XSFSkipList * mem * list Z)
    : XSFSkipList * mem * list Z :=
  match xsf_insert_element rand_list 300 k v st.1.1 st.1.2 st.2 with
  | Done (_, x, m, r) => (x, m, r)
  | _ => st
  end.

Definition ex_xs1 : XSFSkipList * mem * list Z :=
  Eval vm_compute in ex_insert 3 "c"%string (ex_xa, ex_rand).

Definition ex_xs2 : XSFSkipList * mem * list Z :=
  Eval vm_compute in ex_insert 1 "a"%string ex_xs1.

Definition ex_xs3 : XSFSkipList * mem * list Z :=
  Eval vm_compute in ex_insert 2 "b"%string ex_xs2.

(** [delete_element(2)] *)
Definition ex_xs4 : XSFSkipList * mem :=
  Eval vm_compute in
    done_or ex_xs3.1 (xsf_delete_element 300 2 ex_xs3.1.1 ex_xs3.1.2).

Lemma ex_XInv_a : XInv ex_xa.1 ex_xa.2 [].
Proof.
  destruct (XSFSkipList_new_spec String.EmptyString 4 ex_m0) as (m' & Hrun & HI);
    [done|done|].
  vm_compute in Hrun. injection Hrun as <-. exact HI.
Qed.

Lemma ex_XInv1 : XInv ex_xs1.1.1 ex_xs1.1.2 [ex_c].
Proof.
  destruct (xsf_insert_new rand_list 300 ex_xa.1 ex_xa.2 ex_rand [] 3
              "c"%string ex_XInv_a) as [Hok _];
    [simpl; lia|done|].
  destruct Hok as (m' & Hrun & _ & HI); [done|by vm_compute|].
  vm_compute in Hrun. injection Hrun as <-. exact HI.
Qed.

Lemma ex_XInv2 : XInv ex_xs2.1.1 ex_xs2.1.2 [ex_a; ex_c].
Proof.
  destruct (xsf_insert_new rand_list 300 ex_xs1.1.1 ex_xs1.1.2 ex_xs1.2 [ex_c] 1
              "a"%string ex_XInv1) as [Hok _];
    [simpl; lia|done|].
  destruct Hok as (m' & Hrun & _ & HI); [done|by vm_compute|].
  vm_compute in Hrun. injection Hrun as <-. exact HI.
Qed.

Lemma ex_XInv3 : XInv ex_xs3.1.1 ex_xs3.1.2 [ex_a; ex_b; ex_c].
Proof.
  destruct (xsf_insert_new rand_list 300 ex_xs2.1.1 ex_xs2.1.2 ex_xs2.2 [ex_a; ex_c] 2
              "b"%string ex_XInv2) as [Hok _];
    [simpl; lia|done|].
  destruct Hok as (m' & Hrun & _ & HI); [done|by vm_compute|].
  vm_compute in Hrun. injection Hrun as <-. exact HI.
Qed.

(** ** The theorems at the scenario *)

Lemma C1_witness :
  (∃ s' m',
     put coin_list 300 3 "c"%string ex_st0.1 ex_st0.2 = Done (s', m') ∧
     get 300 3 s' m' = Done (Some "c"%string) ∧
     contains 300 3 s' m' = Done true) ∧
  (∃ ret x' mx' r',
     xsf_insert_element rand_list 300 3 "c"%string ex_xa.1 ex_xa.2 ex_rand
     = Done (ret, x', mx', r') ∧
     xsf_search_element 300 3 x' mx' = Done (Some "c"%string)).
Proof.
  destruct (C1_put_get_round_trip coin_list rand_list 300 ex_st0.1 ex_st0.2 []
              ex_xa.1 ex_xa.2 ex_rand [] 3 "c"%string
              ex_Inv0 ltac:(simpl; lia) ex_XInv_a ltac:(simpl; lia))
    as [(H1 & H2 & _) (H3 & _)].
  split.
  - destruct H2 as (s' & m' & Hput); [right; split; [simpl; lia|done]|].
    exists s', m'. split; [done|]. by apply H1.
  - destruct (xsf_insert_element rand_list 300 3 "c"%string ex_xa.1 ex_xa.2 ex_rand)
      as [[[[ret x'] mx'] r']| | |] eqn:Hrun; try by vm_compute in Hrun.
    exists ret, x', mx', r'. split; [done|]. by eapply H3.
Defined.

Lemma C2_witness :
  (∃ s' m',
     remove 300 1 ex_st3.1 ex_st3.2 = Done (true, s', m') ∧
     get 300 1 s' m' = Done None ∧
     size s' = 2%Z ∧
     remove 300 1 s' m' = Done (false, s', m')) ∧
  (∃ x' mx',
     xsf_delete_element 300 1 ex_xs3.1.1 ex_xs3.1.2 = Done (x', mx') ∧
     xsf_search_element 300 1 x' mx' = Done None ∧
     xsf_size x' = 2%Z ∧
     xsf_delete_element 300 1 x' mx' = Done (x', mx')).
Proof.
  destruct (C2_remove_correct 300 ex_st3.1 ex_st3.2 [ex_a; ex_b; ex_c]
              ex_xs3.1.1 ex_xs3.1.2 [ex_a; ex_b; ex_c] 1
              ex_Inv3 ltac:(simpl; lia) ex_XInv3 ltac:(simpl; lia))
    as [(b & s' & m' & Hrun & Hiff & Htrue & _) (x' & mx' & Hdel & Hgone & Hin & _)].
  split.
  - assert (b = true) as -> by (apply Hiff; exists ex_a; split; [by left|done]).
    destruct (Htrue eq_refl) as (Hg & Hs & Hr).
    exists s', m'. split; [done|]. split; [done|]. split; [by rewrite Hs|done].
  - destruct Hin as [Hs Hagain]; [exists ex_a; split; [by left|done]|].
    exists x', mx'. split; [done|]. split; [done|]. split; [by rewrite Hs|done].
Defined.

Lemma C3_witness :
  (∃ m',
     put coin_list 300 3 "z"%string ex_st3.1 ex_st3.2 = Done (ex_st3.1, m') ∧
     get 300 3 ex_st3.1 m' = Done (Some "z"%string) ∧
     next_free m' = next_free ex_st3.2) ∧
  (∃ mx',
     xsf_insert_element rand_list 300 3 "z"%string ex_xs3.1.1 ex_xs3.1.2 ex_xs3.2
     = Done (1%Z, ex_xs3.1.1, mx', ex_xs3.2) ∧
     xsf_search_element 300 3 ex_xs3.1.1 mx' = Done (Some "z"%string)).
Proof.
  destruct (C3_put_overwrites_in_place coin_list rand_list 300 ex_st3.1 ex_st3.2
              [ex_a; ex_b; ex_c] ex_xs3.1.1 ex_xs3.1.2 ex_xs3.2 [ex_a; ex_b; ex_c]
              3 "z"%string ex_c ex_c
              ex_Inv3 ltac:(simpl; lia) ltac:(by right; right; left) eq_refl
              ex_XInv3 ltac:(simpl; lia) ltac:(by right; right; left) eq_refl)
    as [(s' & m' & nd & Hput & Hget & -> & _ & _ & _ & Hnext & _)
        (ndx & _ & Hins & Hsearch)].
  split; [by exists m'|by eexists].
Defined.

Lemma C4_witness : SpecInv ex_st3.1 ex_st3.2.
Proof.
  by destruct (C4_operations_preserve_invariant coin_list 300 ex_st3.1 ex_st3.2
                 [ex_a; ex_b; ex_c] ex_Inv3 ltac:(simpl; lia)) as (H & _).
Defined.

Definition ex_x : XSFSkipList := mkXSF 4 0 (Some 0%N) 0.

Lemma C5_witness :
  (∃ lv s', generate_random_level coin_list 300 ex_st0.1 = Done (lv, s') ∧ lv ≤ 4) ∧
  (∃ lv r', xsf_get_random_level rand_list 300 ex_x [1; 1; 0]%Z = Done (lv, r') ∧
            (Z.of_nat lv ≤ 4)%Z).
Proof.
  destruct (C5_random_level_in_range coin_list rand_list 300 ex_st0.1 ex_x [1; 1; 0]%Z
              ltac:(simpl; lia) ltac:(simpl; lia) ltac:(simpl; lia) ltac:(simpl; lia))
    as [(lv & H1 & _ & H2 & _) (lv' & H3 & [_ H4] & _)].
  split; [exists lv; eexists; by split|exists lv'; eexists; by split].
Defined.

Lemma C6_witness :
  (remove 300 2 ex_st3.1 ex_st3.2 = Done (true, ex_st4.1, ex_st4.2) ∧
   current_max_level_ ex_st4.1 < current_max_level_ ex_st3.1) ∧
  (xsf_delete_element 300 2 ex_xs3.1.1 ex_xs3.1.2 = Done ex_xs4 ∧
   xsf_skip_list_level_ ex_xs4.1 < xsf_skip_list_level_ ex_xs3.1.1).
Proof.
  assert (remove 300 2 ex_st3.1 ex_st3.2 = Done (true, ex_st4.1, ex_st4.2)) as Hrem
    by by vm_compute.
  assert (xsf_delete_element 300 2 ex_xs3.1.1 ex_xs3.1.2 = Done (ex_xs4.1, ex_xs4.2))
    as Hdel by by vm_compute.
  assert (∀ e' : entry, e' ∈ [ex_a; ex_b; ex_c] → e_key e' ≠ 2%Z → e_lvl e' < 4) as Hlow.
  { intros e' He' Hk. repeat (apply elem_of_cons in He' as [->|He']); simpl in *; try lia.
    by apply elem_of_nil in He'. }
  destruct (C6_level_shrinks_after_remove 300 ex_st3.1 ex_st3.2 [ex_a; ex_b; ex_c]
              ex_xs3.1.1 ex_xs3.1.2 [ex_a; ex_b; ex_c] 2
              ex_Inv3 ltac:(simpl; lia) ex_XInv3 ltac:(simpl; lia)) as [HA HB].
  split.
  - split; [done|].
    destruct (HA _ _ Hrem) as (_ & _ & _ & Hdrop). apply Hdrop; [simpl; lia|done].
  - split; [done|].
    destruct (HB _ _ ltac:(exists ex_b; split; [by right; left|done]) Hdel)
      as (_ & _ & _ & Hdrop).
    apply Hdrop; [simpl; lia|done].
Defined.

Lemma C9_witness :
  ∃ s' m',
    put coin_list 300 2 "x"%string ex_st3.1 ex_st3.2 = Done (s', m') ∧
    get 300 3 s' m' = get 300 3 ex_st3.1 ex_st3.2.
Proof.
  destruct (C9_other_keys_untouched coin_list 300 ex_st3.1 ex_st3.2 [ex_a; ex_b; ex_c]
              2 3 "x"%string ex_Inv3 ltac:(simpl; lia) ltac:(done)) as [Hput _].
  destruct (put coin_list 300 2 "x"%string ex_st3.1 ex_st3.2) as [[s' m']| | |] eqn:Hrun;
    try by vm_compute in Hrun.
  exists s', m'. split; [done|]. by apply Hput.
Defined.

(** ** Two lists in one memory *)

(** [XSFSkipList<int, string> a(4), b(4)] *)
Definition ex_xb : XSFSkipList * mem :=
  Eval vm_compute in done_or ex_xa (XSFSkipList_new String.EmptyString 4 ex_xa.2).

Lemma C10_witness :
  ∃ x' m' r',
    xsf_insert_element rand_list 300 7 "v"%string ex_xa.1 ex_xa.2 [1; 0]%Z
    = Done (0%Z, x', m', r') ∧
    xsf_search_element 300 7 x' m' = Done (Some "v"%string) ∧
    xsf_size x' = 1%Z.
Proof.
  destruct (C10_insert_element_result rand_list 300 ex_xa.1 ex_xa.2 [1; 0]%Z [] 7
              "v"%string ex_XInv_a ltac:(simpl; lia)) as [Hres Hret].
  destruct Hret as (ret & x' & m' & r' & Hrun); [right; split; [done|simpl; unfold INT_MAX; lia]|].
  destruct (Hres _ _ _ _ Hrun) as (_ & Hzero & Hsearch & _ & Hnew).
  assert (ret = 0%Z) as -> by (apply Hzero; intros e He; by apply elem_of_nil in He).
  destruct (Hnew eq_refl) as (lv & _ & _ & Hsize).
  exists x', m', r'. split; [done|]. split; [done|]. by rewrite Hsize.
Defined.

(** [SkipList a(4, seed), b(4, seed)] and the calls made on each *)
Definition ex_sb : SkipList * mem :=
  Eval vm_compute in
    done_or ex_st0 (SkipList_new String.EmptyString 4 ex_seed ex_st0.2).

Definition ex_calls : list op :=
  [Put 3 "c"%string; Put 1 "a"%string; Get 3; Put 2 "b"%string; Remove 1; Contains 1; Size].

Definition ex_run_a : list answer * SkipList * mem :=
  Eval vm_compute in
    done_or ([], ex_st0.1, ex_sb.2) (run_ops coin_list 300 ex_calls ex_st0.1 ex_sb.2).

Definition ex_run_b : list answer * SkipList * mem :=
  Eval vm_compute in
    done_or ([], ex_sb.1, ex_run_a.2) (run_ops coin_list 300 ex_calls ex_sb.1 ex_run_a.2).

Lemma C8_witness :
  ex_run_a.1.1 = ex_run_b.1.1 ∧ gen_ ex_run_a.1.2 = gen_ ex_run_b.1.2.
Proof.
  destruct (C8_same_seed_same_behaviour String.EmptyString coin_list 300 4 ex_seed ex_calls
              ex_m0 ex_st0.1 ex_st0.2 ex_sb.1 ex_sb.2
              ex_run_a.1.1 ex_run_a.1.2 ex_run_a.2
              ex_run_b.1.1 ex_run_b.1.2 ex_run_b.2
              ltac:(by vm_compute) ltac:(by vm_compute) ltac:(simpl; lia)
              ltac:(by vm_compute) ltac:(by vm_compute)) as (H1 & H2 & _).
  by split.
Defined.

(** The same call on both lists, first on [a] then on [b], and what [b]
    would have answered had [a] not been used. *)
Definition ex_ins_a : Z * XSFSkipList * mem * list Z :=
  Eval vm_compute in
    done_or (0%Z, ex_xa.1, ex_xb.2, [])
      (xsf_insert_element rand_list 300 7 "v"%string ex_xa.1 ex_xb.2 [1; 0; 0]%Z).

Definition ex_ins_b : Z * XSFSkipList * mem * list Z :=
  Eval vm_compute in
    done_or ex_ins_a
      (xsf_insert_element rand_list 300 7 "v"%string ex_xb.1 ex_ins_a.1.2 ex_ins_a.2).

Definition ex_ins_b_alone : Z * XSFSkipList * mem * list Z :=
  Eval vm_compute in
    done_or ex_ins_a
      (xsf_insert_element rand_list 300 7 "v"%string ex_xb.1 ex_xb.2 [1; 0; 0]%Z).

(** C8 fails for [XSFSkipList]: [get_random_level] draws from [rand()], whose
    state belongs to the process.  Two lists built alike receive the same
    call; the first gets a node of level 1 and the second, drawing from what
    the first has left, a node of level 0.  Had the first list not been
    used, the second would have got level 1. *)
Lemma C8_counterexample_xsf_shares_rand :
  XSFSkipList_new String.EmptyString 4 ex_m0 = Done ex_xa ∧
  XSFSkipList_new String.EmptyString 4 ex_xa.2 = Done ex_xb ∧
  xsf_insert_element rand_list 300 7 "v"%string ex_xa.1 ex_xb.2 [1; 0; 0]%Z
  = Done ex_ins_a ∧
  xsf_insert_element rand_list 300 7 "v"%string ex_xb.1 ex_ins_a.1.2 ex_ins_a.2
  = Done ex_ins_b ∧
  xsf_insert_element rand_list 300 7 "v"%string ex_xb.1 ex_xb.2 [1; 0; 0]%Z
  = Done ex_ins_b_alone ∧
  ex_ins_a.2 ≠ [1; 0; 0]%Z ∧
  xsf_skip_list_level_ ex_ins_a.1.1.2 = 1 ∧ node_level ex_ins_b.1.2 2%N = 1 ∧
  xsf_skip_list_level_ ex_ins_b.1.1.2 = 0 ∧ node_level ex_ins_b.1.2 3%N = 0 ∧
  xsf_skip_list_level_ ex_ins_b_alone.1.1.2 = 1.
Proof. repeat split; by vm_compute. Qed.

(** * The string helpers *)

Lemma str_find_None c str : str_find c str = None ↔ c ∉ str.
Proof.
  induction str as [|x str IH]; simpl.
  - split; [intros _; apply not_elem_of_nil|done].
  - destruct (decide (x = c)) as [->|Hne].
    + split; [done|]. intros H. exfalso. apply H. by left.
    + rewrite fmap_None, IH, not_elem_of_cons. naive_solver.
Qed.

Lemma str_find_Some c : ∀ str n,
  str_find c str = Some n →
  str = take n str ++ c :: drop (S n) str ∧ c ∉ take n str ∧ n < length str.
Proof.
  induction str as [|x str IH]; intros n; simpl; [done|].
  destruct (decide (x = c)) as [->|Hne].
  - intros [= <-]. simpl. rewrite drop_0. split; [done|]. split; [apply not_elem_of_nil|lia].
  - intros Hn. apply fmap_Some in Hn as (n' & Hn' & ->).
    destruct (IH n' Hn') as (Hsplit & Hnot & Hlt). simpl.
    split; [by rewrite <- Hsplit|]. split; [|lia].
    rewrite not_elem_of_cons. split; [done|done].
Qed.

Lemma str_find_first c k v : c ∉ k → str_find c (k ++ c :: v) = Some (length k).
Proof.
  induction k as [|x k IH]; simpl; intros Hk.
  - by rewrite decide_True.
  - apply not_elem_of_cons in Hk as [Hx Hk]. rewrite decide_False by done.
    by rewrite IH.
Qed.

Lemma is_valid_string_colon str : is_valid_string str = true ↔ colon ∈ str.
Proof.
  unfold is_valid_string. rewrite andb_true_iff, negb_true_iff.
  rewrite bool_decide_eq_false, bool_decide_eq_true.
  split.
  - intros [_ Hf]. destruct (decide (colon ∈ str)) as [|Hn]; [done|].
    by apply str_find_None in Hn.
  - intros Hin. split.
    + intros ->. by apply elem_of_nil in Hin.
    + intros Hn. by apply str_find_None in Hn.
Qed.

(** X18. [is_valid_string] holds exactly of the strings that contain a
    colon; the test for the empty string adds nothing. *)
Theorem X18_is_valid_string_iff_colon str :
  (is_valid_string str = true ↔ colon ∈ str) ∧
  is_valid_string str = bool_decide (str_find colon str ≠ None).
Proof.
  split; [apply is_valid_string_colon|].
  unfold is_valid_string. destruct str as [|x str]; [done|].
  by rewrite bool_decide_eq_false_2.
Qed.

(** X19. [get_key_value_from_string] never throws.  On a string without a
    colon it leaves [*key] and [*value] as they are.  On a string with a
    colon it splits at the first one: [*key] becomes what is before it,
    which contains no colon, and [*value] what is after it, so that the
    string is [*key], a colon and [*value]. *)
Theorem X19_get_key_value_from_string_splits str key value :
  (colon ∉ str → get_key_value_from_string str key value = Some (key, value)) ∧
  (colon ∈ str →
   ∃ k v, get_key_value_from_string str key value = Some (k, v) ∧
          str = k ++ colon :: v ∧ colon ∉ k).
Proof.
  unfold get_key_value_from_string. split.
  - intros Hn. destruct (is_valid_string str) eqn:Hv; [|done].
    by apply is_valid_string_colon in Hv.
  - intros Hin. apply is_valid_string_colon in Hin as Hv. rewrite Hv. simpl.
    destruct (str_find colon str) as [n|] eqn:Hf;
      [|apply str_find_None in Hf; done].
    destruct (str_find_Some colon str n Hf) as (Hsplit & Hnot & Hlt).
    unfold str_substr. simpl. rewrite drop_0.
    destruct (Nat.leb_spec (n + 1) (length str)); [|lia]. simpl.
    exists (take n str), (drop (n + 1) str). split; [done|].
    split; [|done]. by replace (n + 1) with (S n) by lia.
Qed.

(** X20. Round trip: for a key without a colon, parsing the key, a colon
    and the value gives back the key and the value, whatever the value
    contains. *)
Theorem X20_get_key_value_from_string_round_trip k v key value :
  colon ∉ k →
  is_valid_string (k ++ colon :: v) = true ∧
  get_key_value_from_string (k ++ colon :: v) key value = Some (k, v).
Proof.
  intros Hk.
  assert (is_valid_string (k ++ colon :: v) = true) as Hv.
  { apply is_valid_string_colon, elem_of_app. right. by left. }
  split; [done|]. unfold get_key_value_from_string. rewrite Hv. simpl.
  rewrite (str_find_first colon k v Hk). unfold str_substr. simpl. rewrite drop_0.
  rewrite take_app_length.
  destruct (Nat.leb_spec (length k + 1) (length (k ++ colon :: v))) as [_|Hlt];
    [|rewrite length_app in Hlt; simpl in Hlt; lia].
  simpl. rewrite <- drop_drop, drop_app_length. done.
Qed.

(** * The further properties at the scenario *)

Lemma X1_witness :
  ∃ m', clear 300 ex_st3.1 ex_st3.2 = Done m' ∧
        cells m' !! 2%N = None ∧
        get 300 3 ex_st3.1 m' = Fault.
Proof.
  destruct (X1_clear_frees_the_list coin_list 300 ex_st3.1 ex_st3.2 [ex_a; ex_b; ex_c]
              ex_Inv3 ltac:(simpl; lia)) as (m' & Hrun & _ & Hfreed & _ & Hafter).
  exists m'. split; [done|]. split.
  - apply Hfreed. right. by left.
  - apply (Hafter 3%Z String.EmptyString).
Defined.

Lemma X2_witness :
  ∃ m', XSFSkipList_destructor 300 ex_xs3.1.1 ex_xs3.1.2 = Done m' ∧
        cells m' !! 0%N = None ∧ cells m' !! 3%N = None.
Proof.
  destruct (X2_destructor_frees_the_list 300 ex_xs3.1.1 ex_xs3.1.2 [ex_a; ex_b; ex_c]
              ex_XInv3 ltac:(simpl; lia)) as (m' & Hrun & _ & Hfreed & _).
  exists m'. split; [done|]. split; apply Hfreed; [by left|right; by right; left].
Defined.

Lemma X3_witness :
  ∃ s m', SkipList_new String.EmptyString 4 ex_seed ex_m0 = Done (s, m') ∧
          size s = 0%Z ∧ get 300 7 s m' = Done None.
Proof.
  destruct (X3_constructor_gives_empty_list String.EmptyString 300 4 ex_seed ex_m0
              ltac:(lia)) as [Hok _].
  destruct (Hok ltac:(done)) as (s & m' & Hrun & _ & _ & _ & _ & Hsize & _ & _ & _ & _ & Hq).
  exists s, m'. split; [done|]. split; [done|]. apply (Hq 7%Z).
Defined.

Lemma X4_witness :
  (∃ x m', XSFSkipList_new String.EmptyString 4 ex_m0 = Done (x, m') ∧ xsf_size x = 0%Z) ∧
  (∃ x m', XSFSkipList_new String.EmptyString (-1) ex_m0 = Done (x, m') ∧
           xsf_search_element 300 7 x m' = Fault).
Proof.
  split.
  - destruct (X4_xsf_constructor String.EmptyString rand_list 300 4 ex_m0
                ltac:(lia) ltac:(done)) as [Hok _].
    destruct (Hok ltac:(by vm_compute)) as (x & m' & Hrun & Hsize & _).
    by exists x, m'.
  - destruct (X4_xsf_constructor String.EmptyString rand_list 300 (-1) ex_m0
                ltac:(lia) ltac:(done)) as (_ & Hneg & _).
    destruct (Hneg eq_refl) as (x & m' & Hrun & _ & Hq).
    exists x, m'. split; [done|]. apply (Hq 7%Z String.EmptyString []).
Defined.

Lemma X5_witness :
  ∃ preds, find_predecessors 300 ex_st3.1 ex_st3.2 3 = Done preds ∧ length preds = 5.
Proof.
  destruct (X5_find_predecessors 300 ex_st3.1 ex_st3.2 [ex_a; ex_b; ex_c] 3
              ex_Inv3 ltac:(simpl; lia)) as (hd & preds & _ & Hrun & Hlen & _).
  by exists preds.
Defined.

Lemma X6_witness :
  ∃ s' m', put coin_list 300 3 "c"%string ex_st0.1 ex_st0.2 = Done (s', m') ∧
           size s' = 1%Z ∧ current_max_level_ s' = 1 ∧
           node_hd m' 1%N = Some (3%Z, "c"%string, 2).
Proof.
  destruct (X6_put_absent_key coin_list 300 ex_st0.1 ex_st0.2 [] 3 "c"%string
              ex_Inv0 ltac:(simpl; lia)
              ltac:(intros e He; by apply elem_of_nil in He)
              ltac:(simpl; lia) ltac:(done))
    as (lv & s' & m' & Hlv & Hrun & Hsize & Hcml & _ & _ & _ & _ & Hnode & _).
  exists s', m'. split; [done|]. split; [by rewrite Hsize|].
  split; [by rewrite Hcml, Hlv|]. by rewrite Hlv in Hnode.
Defined.

(** [SkipList list(255, seed)] with a seed whose first 255 flips succeed. *)
Definition ex_s255 : SkipList * mem :=
  Eval vm_compute in
    done_or ex_st0 (SkipList_new String.EmptyString 255 (replicate 255 true) ex_m0).

Lemma ex_Inv255 : Inv ex_s255.1 ex_s255.2 [].
Proof.
  destruct (SkipList_new_spec String.EmptyString 255 (replicate 255 true) ex_m0)
    as (m' & Hrun & HI); [done|].
  vm_compute in Hrun. injection Hrun as <-. exact HI.
Qed.

Lemma X7_witness : put coin_list 300 3 "c"%string ex_s255.1 ex_s255.2 = OutOfFuel.
Proof.
  apply (X7_put_level_255_never_returns coin_list 300 ex_s255.1 ex_s255.2 [] 3 "c"%string
           ex_Inv255 ltac:(simpl; lia)
           ltac:(intros e He; by apply elem_of_nil in He)
           ltac:(by vm_compute)).
Defined.

(** A memory with one address left, and a list whose header takes it. *)
Definition ex_mfull : @mem String.string := mkMem ∅ (2 ^ 64 - 1)%N.

Definition ex_sfull : SkipList * mem :=
  Eval vm_compute in
    done_or ex_st0 (SkipList_new String.EmptyString 4 ex_seed ex_mfull).

Lemma ex_Invfull : Inv ex_sfull.1 ex_sfull.2 [].
Proof.
  destruct (SkipList_new_spec String.EmptyString 4 ex_seed ex_mfull)
    as (m' & Hrun & HI); [done|].
  vm_compute in Hrun. injection Hrun as <-. exact HI.
Qed.

Lemma X8_witness : put coin_list 300 3 "c"%string ex_sfull.1 ex_sfull.2 = BadAlloc.
Proof.
  apply (X8_put_allocation_failure coin_list 300 ex_sfull.1 ex_sfull.2 [] 3 "c"%string
           ex_Invfull ltac:(simpl; lia)
           ltac:(intros e He; by apply elem_of_nil in He)
           ltac:(simpl; lia) ltac:(by vm_compute)).
Defined.

Lemma X9_witness :
  put coin_list 300 3 "c"%string ex_st1.1 ex_st1.2 = Done (ex_st1.1, ex_st1.2).
Proof.
  apply (X9_put_twice_is_put_once coin_list 300 ex_st0.1 ex_st0.2 [] 3 "c"%string
           ex_st1.1 ex_st1.2 ex_Inv0 ltac:(simpl; lia) ltac:(by vm_compute)).
Defined.

Lemma X10_witness :
  ∃ s' m', remove 300 2 ex_st3.1 ex_st3.2 = Done (true, s', m') ∧
           cells m' !! 3%N = None ∧ next_free m' = 4%N.
Proof.
  destruct (X10_remove_frees_the_node 300 ex_st3.1 ex_st3.2 [ex_a; ex_b; ex_c] 2 ex_b
              ex_Inv3 ltac:(simpl; lia) ltac:(by right; left) eq_refl)
    as (s' & m' & Hrun & Hfree & Hnext & _).
  by exists s', m'.
Defined.

Lemma ex_Inv_a_shared : Inv ex_st0.1 ex_sb.2 [].
Proof.
  destruct (SkipList_new_inv String.EmptyString 4 ex_seed ex_st0.2 ex_sb.1 ex_sb.2)
    as (_ & _ & Hnext & Hsame); [by vm_compute|].
  apply (Inv_frame ex_st0.1 ex_st0.2 ex_sb.2 [] (fun a => a = 1%N) ex_Inv0).
  - split; [rewrite Hnext; lia|]. intros a Ha _. by apply Hsame.
  - intros a [[= <-]|Ha]; [done|]. by apply elem_of_nil in Ha.
  - by vm_compute.
Qed.

Lemma ex_Inv_b_shared : Inv ex_sb.1 ex_sb.2 [].
Proof.
  by destruct (SkipList_new_inv String.EmptyString 4 ex_seed ex_st0.2 ex_sb.1 ex_sb.2)
    as (_ & HI & _); [by vm_compute|].
Qed.

Lemma X11_witness :
  ∃ s' m', put coin_list 300 3 "c"%string ex_st0.1 ex_sb.2 = Done (s', m') ∧
           Inv ex_sb.1 m' [] ∧ get 300 3 ex_sb.1 m' = Done None.
Proof.
  destruct (X11_lists_do_not_interfere coin_list 300 ex_st0.1 [] ex_sb.1 [] ex_sb.2
              ex_Inv_a_shared ex_Inv_b_shared
              ltac:(intros a [Ha|Ha] Hb; [|by apply elem_of_nil in Ha];
                    destruct Hb as [Hb|Hb]; [|by apply elem_of_nil in Hb];
                    vm_compute in Ha, Hb; congruence)
              ltac:(simpl; lia) ltac:(simpl; lia)) as [Hput _].
  destruct (put coin_list 300 3 "c"%string ex_st0.1 ex_sb.2) as [[s' m']| | |] eqn:Hrun;
    try by vm_compute in Hrun.
  destruct (Hput 3%Z "c"%string s' m' Hrun) as [HI Hq].
  exists s', m'. split; [done|]. split; [done|].
  destruct (Hq 3%Z) as [-> _]. by vm_compute.
Defined.

Definition ex_run : list answer * SkipList * mem :=
  Eval vm_compute in
    done_or ([], ex_st0.1, ex_st0.2) (run_ops coin_list 300 ex_calls ex_st0.1 ex_st0.2).

Lemma X12_witness :
  ex_run.1.1
  = [Unit; Unit; Value (Some "c"%string); Unit; Bool true; Bool false; Count 2] ∧
  ∃ L', Inv ex_run.1.2 ex_run.2 L' ∧
        abs_ops coin_list ex_calls (abs ex_st0.1 []) = (ex_run.1.1, abs ex_run.1.2 L').
Proof.
  split; [done|].
  apply (X12_calls_answer_as_the_view coin_list 300 ex_calls ex_st0.1 ex_st0.2 []
           ex_run.1.1 ex_run.1.2 ex_run.2 ex_Inv0 ltac:(simpl; lia) ltac:(by vm_compute)).
Defined.

Lemma X13_witness :
  ∃ m2, remove 300 3 ex_st1.1 ex_st1.2
        = Done (true, mkSkipList 4 0 (Some 0%N) 0 (gen_ ex_st1.1), m2) ∧
        Inv (mkSkipList 4 0 (Some 0%N) 0 (gen_ ex_st1.1)) m2 [].
Proof.
  destruct (X13_put_then_remove_restores coin_list 300 ex_st0.1 ex_st0.2 [] 3 "c"%string
              ex_st1.1 ex_st1.2 ex_Inv0 ltac:(simpl; lia)
              ltac:(intros e He; by apply elem_of_nil in He) ltac:(by vm_compute))
    as (m2 & Hrun & HI & _).
  by exists m2.
Defined.

Lemma X14_witness : XSpecInv ex_xs3.1.1 ex_xs3.1.2.
Proof.
  by destruct (X14_xsf_operations_preserve_invariant rand_list 300 ex_xs3.1.1 ex_xs3.1.2
                 [ex_a; ex_b; ex_c] ex_XInv3 ltac:(simpl; lia)) as (H & _).
Defined.

Lemma X15_witness :
  ∃ x' m' r',
    xsf_insert_element rand_list 300 3 "c"%string ex_xa.1 ex_xa.2 ex_rand
    = Done (0%Z, x', m', r') ∧
    xsf_size x' = 1%Z ∧ xsf_skip_list_level_ x' = 1 ∧
    node_hd m' 1%N = Some (3%Z, "c"%string, 2).
Proof.
  destruct (X15_insert_element_absent_key rand_list 300 ex_xa.1 ex_xa.2 ex_rand [] 3
              "c"%string ex_XInv_a ltac:(simpl; lia)
              ltac:(intros e He; by apply elem_of_nil in He)
              ltac:(done) ltac:(by vm_compute))
    as (lv & x' & m' & Hlv & Hrun & Hsize & Hlevel & _ & _ & _ & Hnode & _).
  exists x', m'. eexists. split; [exact Hrun|]. split; [by rewrite Hsize|].
  split; [by rewrite Hlevel, Hlv|]. by rewrite Hlv in Hnode.
Defined.

Lemma X16_witness :
  xsf_search_element 300 2 ex_xs3.1.1 ex_xs3.1.2 = get 300 2 ex_st3.1 ex_st3.2 ∧
  xsf_size ex_xs3.1.1 = size ex_st3.1.
Proof.
  destruct (X16_two_implementations_agree coin_list rand_list 300 ex_st3.1 ex_st3.2
              [ex_a; ex_b; ex_c] ex_xs3.1.1 ex_xs3.1.2 [ex_a; ex_b; ex_c]
              ex_Inv3 ex_XInv3 eq_refl ltac:(simpl; lia) ltac:(simpl; lia))
    as (Hsearch & Hsize & _).
  split; [apply Hsearch|done].
Defined.

Lemma X17_witness :
  ∃ x' m', xsf_delete_element 300 2 ex_xs3.1.1 ex_xs3.1.2 = Done (x', m') ∧
           cells m' !! 3%N = None ∧ next_free m' = 4%N.
Proof.
  destruct (X17_delete_element_frees_the_node 300 ex_xs3.1.1 ex_xs3.1.2
              [ex_a; ex_b; ex_c] 2 ex_b
              ex_XInv3 ltac:(simpl; lia) ltac:(by right; left) eq_refl)
    as (x' & m' & Hrun & Hfree & Hnext & _).
  by exists x', m'.
Defined.

Lemma X20_witness :
  get_key_value_from_string ["a"; "b"; ":"; "c"; ":"; "d"]%char [] []
  = Some (["a"; "b"]%char, ["c"; ":"; "d"]%char).
Proof.
  apply (X20_get_key_value_from_string_round_trip
           ["a"; "b"]%char ["c"; ":"; "d"]%char [] []).
  intros H. repeat (apply elem_of_cons in H as [H|H]; [discriminate|]).
  by apply elem_of_nil in H.
Defined.

Lemma X21_witness :
  ∃ ret x' m' r',
    xsf_insert_element rand_list 300 2 "x"%string ex_xs3.1.1 ex_xs3.1.2 ex_xs3.2
    = Done (ret, x', m', r') ∧
    xsf_search_element 300 3 x' m' = Done (Some "c"%string).
Proof.
  destruct (X21_xsf_other_keys_untouched rand_list 300 ex_xs3.1.1 ex_xs3.1.2
              [ex_a; ex_b; ex_c] 2 3 "x"%string ex_xs3.2
              ex_XInv3 ltac:(simpl; lia) ltac:(done)) as [Hins _].
  destruct (xsf_insert_element rand_list 300 2 "x"%string ex_xs3.1.1 ex_xs3.1.2 ex_xs3.2)
    as [[[[ret x'] m'] r']| | |] eqn:Hrun; try by vm_compute in Hrun.
  exists ret, x', m', r'. split; [done|]. rewrite (Hins _ _ _ _ eq_refl). by vm_compute.
Defined.

(** [put(2, "b")] after [remove(2)] *)
Definition ex_st5 : SkipList * mem :=
  Eval vm_compute in
    done_or ex_st4 (put coin_list 300 2 "b"%string ex_st4.1 ex_st4.2).

Lemma X22_witness :
  ∃ L2, Inv ex_st5.1 ex_st5.2 L2 ∧
        bindings L2 = [(1%Z, "a"%string); (2%Z, "b"%string); (3%Z, "c"%string)] ∧
        size ex_st5.1 = 3%Z.
Proof.
  destruct (X22_remove_then_put_restores_bindings coin_list 300 ex_st3.1 ex_st3.2
              [ex_a; ex_b; ex_c] 2 ex_b ex_st4.1 ex_st4.2 ex_st5.1 ex_st5.2
              ex_Inv3 ltac:(simpl; lia) ltac:(by right; left) eq_refl
              ltac:(by vm_compute) ltac:(by vm_compute))
    as (L2 & HI & HB & Hsize & _).
  exists L2. split; [done|]. split; [done|]. by rewrite Hsize.
Defined.

Lemma ex_XInv_a_shared : XInv ex_xa.1 ex_xb.2 [].
Proof.
  destruct (XSFSkipList_new_inv String.EmptyString 4 ex_xa.2 ex_xb.1 ex_xb.2)
    as (_ & _ & Hnext & Hsame); [by vm_compute|by vm_compute|].
  apply (XInv_frame ex_xa.1 ex_xa.2 ex_xb.2 [] (fun a => a = 1%N) ex_XInv_a).
  - split; [rewrite Hnext; lia|]. intros a Ha _. by apply Hsame.
  - intros a [[= <-]|Ha]; [done|]. by apply elem_of_nil in Ha.
  - by vm_compute.
Qed.

Lemma ex_XInv_b_shared : XInv ex_xb.1 ex_xb.2 [].
Proof.
  by destruct (XSFSkipList_new_inv String.EmptyString 4 ex_xa.2 ex_xb.1 ex_xb.2)
    as (_ & HI & _); [by vm_compute|by vm_compute|].
Qed.

Lemma X23_witness :
  ∃ ret x' m' r',
    xsf_insert_element rand_list 300 7 "v"%string ex_xa.1 ex_xb.2 [1; 0; 0]%Z
    = Done (ret, x', m', r') ∧
    XInv ex_xb.1 m' [] ∧
    xsf_search_element 300 7 ex_xb.1 m' = Done None.
Proof.
  destruct (X23_xsf_lists_share_no_memory rand_list 300 ex_xa.1 [] ex_xb.1 [] ex_xb.2
              ex_XInv_a_shared ex_XInv_b_shared
              ltac:(intros a [Ha|Ha] Hb; [|by apply elem_of_nil in Ha];
                    destruct Hb as [Hb|Hb]; [|by apply elem_of_nil in Hb];
                    vm_compute in Ha, Hb; congruence)
              ltac:(simpl; lia) ltac:(simpl; lia)) as [Hins _].
  specialize (Hins 7%Z "v"%string [1; 0; 0]%Z).
  destruct (xsf_insert_element rand_list 300 7 "v"%string ex_xa.1 ex_xb.2 [1; 0; 0]%Z)
    as [[[[ret x'] m'] r']| | |] eqn:Hrun; try by vm_compute in Hrun.
  destruct (Hins ret x' m' r' eq_refl) as [HI Hq].
  exists ret, x', m', r'. split; [done|]. split; [done|]. rewrite (Hq 7%Z). by vm_compute.
Defined.
